(** * Small-World-Simulation: graph construction and breadth-first spread

    A shallow embedding of the computational core of [app.py]:
    - [bfs_generator] (lines 33-41), the lazy traversal that yields a copy of
      the visited set after each expanded node;
    - [bfs_spread] (lines 86-95), the traversal that counts nodes per depth;
    - the three [nx.watts_strogatz_graph] calls of lines 61-65, together with
      the part of the networkx [Graph] class the traversals rely on.

    A networkx [Graph] keeps a dict of dicts [_adj]; Python dicts iterate in
    insertion order, so a node's adjacency is modelled as the list of its
    neighbours in insertion order, without repetition. *)

From stdpp Require Import gmap list sets sorting strings.
From Stdlib Require Import QArith.
Close Scope Q_scope.

Set Default Proof Using "Type".

(** ** The networkx graph object

    [app.py] imports networkx and uses its [Graph] only through
    [neighbors]; [watts_strogatz_graph] also uses [has_edge], [degree],
    [add_edges_from], [remove_edge] and [add_edge].  These are transcribed
    from networkx/classes/graph.py (releases 2.x and 3.x), each next to the
    Python it stands for. *)

Abbreviation Graph := (gmap nat (list nat)).

(** [G.neighbors(n)]: an iterator over the adjacency dict of [n];
    [None] stands for the [NetworkXError] raised when [n] is not a node.
<<
    try:
        return iter(self._adj[n])
    except KeyError as err:
        raise NetworkXError(...) from err
>> *)
Definition neighbors (G : Graph) (n : nat) : option (list nat) := G !! n.

(** [G.has_edge(u, v)].
<<
    try:
        return v in self._adj[u]
    except KeyError:
        return False
>> *)
Definition has_edge (G : Graph) (u v : nat) : bool :=
  match G !! u with
  | Some ns => bool_decide (v ∈ ns)
  | None => false
  end.

(** [G.degree(u)], that is [len(nbrs) + (u in nbrs)]: a self-loop counts
    twice. *)
Definition degree (G : Graph) (u : nat) : nat :=
  match G !! u with
  | Some ns => length ns + (if bool_decide (u ∈ ns) then 1 else 0)
  | None => 0
  end.

(** [G.number_of_edges()], i.e. [sum(d for _, d in G.degree()) // 2]. *)
Definition number_of_edges (G : Graph) : nat :=
  sum_list (map (degree G) (elements (dom G))) / 2.

(** [G.add_node(n)]. *)
Definition add_node (n : nat) (G : Graph) : Graph :=
  match G !! n with
  | Some _ => G
  | None => <[n := []]> G
  end.

(** [G._adj[u][v] = datadict]: a key already present keeps its place. *)
Definition set_adj (u v : nat) (G : Graph) : Graph :=
  match G !! u with
  | Some ns => if decide (v ∈ ns) then G else <[u := ns ++ [v]]> G
  | None => G
  end.

(** [G.add_edge(u, v)].
<<
    if u not in self._node: ... self._adj[u] = {} ...
    if v not in self._node: ... self._adj[v] = {} ...
    datadict = self._adj[u].get(v, {})
    self._adj[u][v] = datadict
    self._adj[v][u] = datadict
>> *)
Definition add_edge (u v : nat) (G : Graph) : Graph :=
  set_adj v u (set_adj u v (add_node v (add_node u G))).

(** [G.add_edges_from(ebunch)]. *)
Definition add_edges_from (es : list (nat * nat)) (G : Graph) : Graph :=
  foldl (λ G e, add_edge e.1 e.2 G) G es.

(** [del d[k]] on one adjacency dict. *)
Definition del_adj (v : nat) (ns : list nat) : list nat :=
  filter (λ x, x ≠ v) ns.

(** [G.remove_edge(u, v)]; [None] is the [NetworkXError] raised for an edge
    that is not in the graph.
<<
    try:
        del self._adj[u][v]
        if u != v:
            del self._adj[v][u]
    except KeyError as err:
        raise NetworkXError(...) from err
>> *)
Definition remove_edge (u v : nat) (G : Graph) : option Graph :=
  match G !! u with
  | Some ns =>
      if decide (v ∈ ns) then
        let G1 := <[u := del_adj v ns]> G in
        if decide (u = v) then Some G1
        else
          match G1 !! v with
          | Some ms =>
              if decide (u ∈ ms) then Some (<[v := del_adj u ms]> G1)
              else None
          | None => None
          end
      else None
  | None => None
  end.

(** [nx.empty_graph(n)]: nodes [0 .. n-1], no edges. *)
Definition empty_graph (n : nat) : Graph :=
  foldl (λ G i, add_node i G) ∅ (seq 0 n).

(** [nx.complete_graph(n)]: edges from [itertools.combinations(range(n), 2)]. *)
Definition complete_graph (n : nat) : Graph :=
  add_edges_from
    (flat_map (λ i, map (pair i) (seq (S i) (n - S i))) (seq 0 n))
    (empty_graph n).

(** ** The random source

    [watts_strogatz_graph] draws from a [random.Random] object through two
    methods: [random()], a multiple of 2^-53 in the interval from 0 to 1,
    and [choice(seq)], which is [seq[_randbelow(len(seq))]]. *)
Class RandomSource (R : Type) := {
  random53 : R → N * R;
  randbelow : R → nat → nat * R;
  randbelow_lt : ∀ r n, 0 < n → (randbelow r n).1 < n
}.

Definition random `{RandomSource R} (r : R) : Q * R :=
  let '(m, r') := random53 r in
  (Qmake (Z.of_N (m mod 2 ^ 53)) (2 ^ 53), r').

Definition choice `{RandomSource R} (r : R) (seq : list nat) : nat * R :=
  let '(i, r') := randbelow r (length seq) in (nth i seq 0, r').

(** A deterministic source for concrete runs: a linear congruential
    generator on 31 bits. *)
Definition lcg_step (s : N) : N := ((s * 1103515245 + 12345) mod 2 ^ 31)%N.

Definition lcg_random53 (s : N) : N * N :=
  ((lcg_step s * 2 ^ 22)%N, lcg_step s).

Definition lcg_randbelow (s : N) (n : nat) : nat * N :=
  (N.to_nat ((lcg_step s / 2 ^ 16) mod N.of_nat n)%N, lcg_step s).

#[global] Instance lcg_source : RandomSource N.
Proof.
  refine {| random53 := lcg_random53; randbelow := lcg_randbelow |}.
  intros r n Hn. unfold lcg_randbelow. cbn [fst].
  pose proof (N.mod_lt (lcg_step r / 2 ^ 16) (N.of_nat n)). lia.
Defined.

(** ** [nx.watts_strogatz_graph]

    The generator of the networkx library that lines 61-65 call three times
    (networkx/generators/random_graphs.py, releases 2.x and 3.x).  A Python
    [float] is a rational number and the routine only compares [p] with
    [random()], so [p] is a [Q].
<<
    if k > n:
        raise nx.NetworkXError(...)
    if k == n:
        return nx.complete_graph(n, create_using)
    G = nx.empty_graph(n, create_using=create_using)
    nodes = list(range(n))
    for j in range(1, k // 2 + 1):
        targets = nodes[j:] + nodes[0:j]
        G.add_edges_from(zip(nodes, targets))
    for j in range(1, k // 2 + 1):
        targets = nodes[j:] + nodes[0:j]
        for u, v in zip(nodes, targets):
            if seed.random() < p:
                w = seed.choice(nodes)
                while w == u or G.has_edge(u, w):
                    w = seed.choice(nodes)
                    if G.degree(u) >= n - 1:
                        break
                else:
                    G.remove_edge(u, v)
                    G.add_edge(u, w)
    return G
>>
    The [while] loop need not terminate for every random source, so the
    embedding bounds it by [fuel] and reports [Timeout] when the bound is
    hit. *)

Inductive outcome (A : Type) : Type :=
  | Ok (a : A)
  | Error
  | Timeout.
Arguments Ok {A} a.
Arguments Error {A}.
Arguments Timeout {A}.

Inductive attempt (R : Type) : Type :=
  | Target (w : nat) (r : R)
  | Skip (r : R)
  | Spinning.
Arguments Target {R} w r.
Arguments Skip {R} r.
Arguments Spinning {R}.

(** [nodes[j:] + nodes[0:j]]. *)
Definition ring_targets (j : nat) (nodes : list nat) : list nat :=
  drop j nodes ++ take j nodes.

(** The ring phase: [for j in range(1, k // 2 + 1)], add the edges
    [zip(nodes, targets)]. *)
Definition ring_lattice (n k : nat) : Graph :=
  let nodes := seq 0 n in
  foldl (λ G j, add_edges_from (zip nodes (ring_targets j nodes)) G)
        (empty_graph n) (seq 1 (k / 2)).

Section Rewiring.
Context {R : Type} `{RandomSource R}.

(** The [while w == u or G.has_edge(u, w)] loop with its [break]; [fuel]
    bounds the number of iterations. *)
Fixpoint pick_target (fuel : nat) (G : Graph) (nodes : list nat)
    (n u w : nat) (r : R) : attempt R :=
  if bool_decide (w = u) || has_edge G u w then
    match fuel with
    | 0 => Spinning
    | S fuel' =>
        let '(w', r') := choice r nodes in
        if decide (n - 1 ≤ degree G u) then Skip r'
        else pick_target fuel' G nodes n u w' r'
    end
  else Target w r.

(** The body of the inner [for u, v in zip(nodes, targets)] loop. *)
Definition rewire_edge (fuel : nat) (n : nat) (p : Q) (nodes : list nat)
    (u v : nat) (G : Graph) (r : R) : outcome (Graph * R) :=
  let '(x, r1) := random r in
  if Qlt_le_dec x p then
    let '(w, r2) := choice r1 nodes in
    match pick_target fuel G nodes n u w r2 with
    | Target w' r3 =>
        match remove_edge u v G with
        | Some G' => Ok (add_edge u w' G', r3)
        | None => Error
        end
    | Skip r3 => Ok (G, r3)
    | Spinning => Timeout
    end
  else Ok (G, r1).

Fixpoint rewire_edges (fuel n : nat) (p : Q) (nodes : list nat)
    (es : list (nat * nat)) (G : Graph) (r : R) : outcome (Graph * R) :=
  match es with
  | [] => Ok (G, r)
  | (u, v) :: es' =>
      match rewire_edge fuel n p nodes u v G r with
      | Ok (G', r') => rewire_edges fuel n p nodes es' G' r'
      | Error => Error
      | Timeout => Timeout
      end
  end.

Fixpoint rewire_rings (fuel n : nat) (p : Q) (nodes : list nat)
    (js : list nat) (G : Graph) (r : R) : outcome (Graph * R) :=
  match js with
  | [] => Ok (G, r)
  | j :: js' =>
      match rewire_edges fuel n p nodes (zip nodes (ring_targets j nodes)) G r with
      | Ok (G', r') => rewire_rings fuel n p nodes js' G' r'
      | Error => Error
      | Timeout => Timeout
      end
  end.

(** [watts_strogatz_graph(n, k, p, seed)].  [Error] is the
    [NetworkXError] of the library; the random source after the call is
    returned with the graph. *)
Definition watts_strogatz_graph (fuel n k : nat) (p : Q) (seed : R)
    : outcome (Graph * R) :=
  if decide (n < k) then Error
  else if decide (k = n) then Ok (complete_graph n, seed)
  else rewire_rings fuel n p (seq 0 n) (seq 1 (k / 2)) (ring_lattice n k) seed.

(** Lines 61-65: the three graphs, drawn one after the other from the same
    source. *)
Definition networks (fuel nodes neighbours : nat) (randomness : Q) (seed : R)
    : outcome (Graph * Graph * Graph) :=
  match watts_strogatz_graph fuel nodes neighbours 0 seed with
  | Ok (regular, r1) =>
      match watts_strogatz_graph fuel nodes neighbours randomness r1 with
      | Ok (small_world, r2) =>
          match watts_strogatz_graph fuel nodes neighbours 1 r2 with
          | Ok (rand, _) => Ok (regular, small_world, rand)
          | Error => Error
          | Timeout => Timeout
          end
      | Error => Error
      | Timeout => Timeout
      end
  | Error => Error
  | Timeout => Timeout
  end.

End Rewiring.

(** ** [bfs_generator]
<<
    def bfs_generator(G, start=0):
        visited, queue = set([start]), deque([start])
        while queue:
            node = queue.popleft()
            for neighbor in G.neighbors(node):
                if neighbor not in visited:
                    visited.add(neighbor)
                    queue.append(neighbor)
            yield visited.copy()
>> *)

(** The frame of a suspended generator: the two locals that survive a
    [yield]. *)
Record GenState := mkGen { visited : gset nat; queue : list nat }.

(** Body of the [for neighbor in G.neighbors(node)] loop. *)
Definition visit (st : gset nat * list nat) (neighbor : nat) : gset nat * list nat :=
  if decide (neighbor ∈ st.1) then st
  else ({[neighbor]} ∪ st.1, st.2 ++ [neighbor]).

Definition expand (ns : list nat) (st : gset nat * list nat) : gset nat * list nat :=
  foldl visit st ns.

(** What one [next(gen)] can do. *)
Inductive pull : Type :=
  | Yield (snapshot : gset nat) (st : GenState)
  | StopIteration
  | NetworkXError.

(** [bfs_generator(G, start)]: the state in which the [while] loop is first
    entered. *)
Definition bfs_generator (start : nat) : GenState :=
  mkGen {[start]} [start].

(** One iteration of the [while queue:] loop, up to the [yield]. *)
Definition gen_next (G : Graph) (st : GenState) : pull :=
  match queue st with
  | [] => StopIteration
  | node :: q =>
      match neighbors G node with
      | None => NetworkXError
      | Some ns =>
          let '(v, q') := expand ns (visited st, q) in
          Yield v (mkGen v q')
      end
  end.

(** How a consumer's sequence of pulls ended. *)
Inductive ending : Type := Exhausted | Raised | Suspended.

(** The snapshots obtained by at most [n] calls to [next], the way the
    animation loop of lines 73-83 drives the generator. *)
Fixpoint pulls (n : nat) (G : Graph) (st : GenState) : list (gset nat) * ending :=
  match n with
  | 0 => ([], Suspended)
  | S n' =>
      match gen_next G st with
      | StopIteration => ([], Exhausted)
      | NetworkXError => ([], Raised)
      | Yield s st' =>
          let '(ss, e) := pulls n' G st' in (s :: ss, e)
      end
  end.

(** ** [bfs_spread]
<<
    def bfs_spread(G):
        visited, queue, levels = set([0]), deque([(0,0)]), {}
        while queue:
            node, depth = queue.popleft()
            levels[depth] = levels.get(depth, 0) + 1
            for n in G.neighbors(node):
                if n not in visited:
                    visited.add(n)
                    queue.append((n, depth+1))
        return levels
>> *)

(** [levels[depth] = levels.get(depth, 0) + 1] on an insertion-ordered dict. *)
Fixpoint bump (depth : nat) (levels : list (nat * nat)) : list (nat * nat) :=
  match levels with
  | [] => [(depth, 1)]
  | (d, c) :: rest =>
      if decide (d = depth) then (d, c + 1) :: rest
      else (d, c) :: bump depth rest
  end.

(** Body of the [for n in G.neighbors(node)] loop at depth [depth]. *)
Definition visit_at (depth : nat) (st : gset nat * list (nat * nat)) (n : nat)
  : gset nat * list (nat * nat) :=
  if decide (n ∈ st.1) then st
  else ({[n]} ∪ st.1, st.2 ++ [(n, depth + 1)]).

Record SpreadState := mkSpread {
  s_visited : gset nat;
  s_queue : list (nat * nat);
  s_levels : list (nat * nat)
}.

Inductive iteration : Type :=
  | Next (st : SpreadState)
  | Done
  | Fail.

(** The loop test and one pass through the body of [while queue:]. *)
Definition spread_iter (G : Graph) (st : SpreadState) : iteration :=
  match s_queue st with
  | [] => Done
  | (node, depth) :: q =>
      let levels := bump depth (s_levels st) in
      match neighbors G node with
      | None => Fail
      | Some ns =>
          let '(v, q') := foldl (visit_at depth) (s_visited st, q) ns in
          Next (mkSpread v q' levels)
      end
  end.

Inductive spread_result : Type :=
  | Levels (levels : list (nat * nat))
  | SpreadError
  | Running.

(** The [while] loop, cut off after [fuel] iterations. *)
Fixpoint spread_loop (fuel : nat) (G : Graph) (st : SpreadState) : spread_result :=
  match spread_iter G st with
  | Done => Levels (s_levels st)
  | Fail => SpreadError
  | Next st' =>
      match fuel with
      | 0 => Running
      | S fuel' => spread_loop fuel' G st'
      end
  end.

(** The locals of [bfs_spread] when the loop is entered; the source fixes
    [start] to 0. *)
Definition spread_from (start : nat) : SpreadState :=
  mkSpread {[start]} [(start, 0)] [].

Definition bfs_spread (fuel : nat) (G : Graph) : spread_result :=
  spread_loop fuel G (spread_from 0).

(** [list(levels.keys())], [list(levels.values())] and the total used for
    the "Nodes Reached" column. *)
Definition keys (levels : list (nat * nat)) : list nat := map fst levels.
Definition values (levels : list (nat * nat)) : list nat := map snd levels.

(** ** The generator with its set objects in a store

    [visited] is one mutable set that every iteration updates in place;
    [visited.copy()] allocates a new set.  Objects are addressed by their
    allocation index. *)
Module Heap.

Abbreviation Store := (list (gset nat)).

Record Gen := mkGen { g_visited : nat; g_queue : list nat }.

Definition alloc (s : gset nat) (σ : Store) : nat * Store :=
  (length σ, σ ++ [s]).

Definition set_contains (a x : nat) (σ : Store) : bool :=
  match σ !! a with
  | Some s => bool_decide (x ∈ s)
  | None => false
  end.

Definition set_add (a x : nat) (σ : Store) : Store :=
  match σ !! a with
  | Some s => <[a := {[x]} ∪ s]> σ
  | None => σ
  end.

Definition set_copy (a : nat) (σ : Store) : nat * Store :=
  alloc (default ∅ (σ !! a)) σ.

Definition bfs_generator (start : nat) (σ : Store) : Gen * Store :=
  let '(a, σ') := alloc {[start]} σ in (mkGen a [start], σ').

Definition visit (a : nat) (st : Store * list nat) (neighbor : nat)
  : Store * list nat :=
  if set_contains a neighbor st.1 then st
  else (set_add a neighbor st.1, st.2 ++ [neighbor]).

Inductive pull : Type :=
  | Yield (snapshot : nat) (g : Gen) (σ : Store)
  | StopIteration
  | NetworkXError.

Definition gen_next (G : Graph) (g : Gen) (σ : Store) : pull :=
  match g_queue g with
  | [] => StopIteration
  | node :: q =>
      match neighbors G node with
      | None => NetworkXError
      | Some ns =>
          let '(σ1, q') := foldl (visit (g_visited g)) (σ, q) ns in
          let '(c, σ2) := set_copy (g_visited g) σ1 in
          Yield c (mkGen (g_visited g) q') σ2
      end
  end.

(** Addresses of the snapshots handed out by at most [n] pulls, and the
    store afterwards. *)
Fixpoint pulls (n : nat) (G : Graph) (g : Gen) (σ : Store)
  : list nat * Store * ending :=
  match n with
  | 0 => ([], σ, Suspended)
  | S n' =>
      match gen_next G g σ with
      | StopIteration => ([], σ, Exhausted)
      | NetworkXError => ([], σ, Raised)
      | Yield c g' σ' =>
          let '(cs, σ'', e) := pulls n' G g' σ' in (c :: cs, σ'', e)
      end
  end.

End Heap.

(** ** Traversal in ascending neighbour order

    The traversal as the specification words it: at every node the
    neighbours are taken in ascending id order.  Used only for comparison
    with [gen_next]. *)
Definition ascending (ns : list nat) : list nat := merge_sort le ns.

Definition gen_next_ascending (G : Graph) (st : GenState) : pull :=
  match queue st with
  | [] => StopIteration
  | node :: q =>
      match neighbors G node with
      | None => NetworkXError
      | Some ns =>
          let '(v, q') := expand (ascending ns) (visited st, q) in
          Yield v (mkGen v q')
      end
  end.

Fixpoint pulls_ascending (n : nat) (G : Graph) (st : GenState)
  : list (gset nat) * ending :=
  match n with
  | 0 => ([], Suspended)
  | S n' =>
      match gen_next_ascending G st with
      | StopIteration => ([], Exhausted)
      | NetworkXError => ([], Raised)
      | Yield s st' =>
          let '(ss, e) := pulls_ascending n' G st' in (s :: ss, e)
      end
  end.

(** ** Graph-theoretic vocabulary *)

Definition edge (G : Graph) (u v : nat) : Prop :=
  ∃ ns, G !! u = Some ns ∧ v ∈ ns.

(** [walk G s d v]: some walk of [d] edges leads from [s] to [v]. *)
Inductive walk (G : Graph) (s : nat) : nat → nat → Prop :=
  | walk_here : walk G s 0 s
  | walk_step d u v : walk G s d u → edge G u v → walk G s (S d) v.

Definition reach (G : Graph) (s v : nat) : Prop := ∃ d, walk G s d v.

(** [d] is the breadth-first depth of [v]: the length of a shortest walk. *)
Definition dist (G : Graph) (s v d : nat) : Prop :=
  walk G s d v ∧ ∀ l, walk G s l v → d ≤ l.

(** The class invariant of an undirected [nx.Graph]: every neighbour is a
    node, no adjacency dict holds a key twice, and the adjacency dicts
    mirror each other. *)
Definition adj_closed (G : Graph) : Prop :=
  map_Forall (λ _ ns, Forall (λ w, w ∈ dom G) ns) G.

Definition adj_nodup (G : Graph) : Prop :=
  map_Forall (λ _ ns, NoDup ns) G.

Definition adj_sym (G : Graph) : Prop :=
  map_Forall (λ u ns, Forall (λ w, has_edge G w u = true) ns) G.

Definition graph_ok (G : Graph) : Prop :=
  adj_closed G ∧ adj_nodup G ∧ adj_sym G.

(** A simple graph has no self-loop. *)
Definition loop_free (G : Graph) : Prop :=
  map_Forall (λ u ns, u ∉ ns) G.

#[global] Instance adj_closed_dec G : Decision (adj_closed G).
Proof. unfold adj_closed. apply _. Defined.

#[global] Instance adj_nodup_dec G : Decision (adj_nodup G).
Proof. unfold adj_nodup. apply _. Defined.

#[global] Instance adj_sym_dec G : Decision (adj_sym G).
Proof. unfold adj_sym. apply _. Defined.

#[global] Instance graph_ok_dec G : Decision (graph_ok G).
Proof. unfold graph_ok. apply _. Defined.

#[global] Instance loop_free_dec G : Decision (loop_free G).
Proof. unfold loop_free. apply _. Defined.

(** The neighbours of [i] on the ring: [i ± 1, ..., i ± k/2] modulo [n]. *)
Definition ring_neighbour (n k i v : nat) : Prop :=
  ∃ j, 1 ≤ j ≤ k / 2 ∧ (v = (i + j) mod n ∨ v = (i + n - j) mod n).

(** ** Proof vocabulary for the traversals *)

(** The neighbours in [ns] that one pass of the [for] loop newly adds to
    the visited set [v], in the order in which it meets them. *)
Fixpoint fresh (v : gset nat) (ns : list nat) : list nat :=
  match ns with
  | [] => []
  | m :: ns' =>
      if decide (m ∈ v) then fresh v ns'
      else m :: fresh ({[m]} ∪ v) ns'
  end.

(** The histogram of a sequence of depths, built as [bfs_spread] does. *)
Definition hist (ds : list nat) : list (nat * nat) :=
  foldl (λ lv d, bump d lv) [] ds.

(** A sequence that starts at 0 and climbs by at most one per position. *)
Definition ramp (ds : list nat) : Prop :=
  (∀ x, ds !! 0 = Some x → x = 0) ∧
  (∀ i a b, ds !! i = Some a → ds !! S i = Some b → a ≤ b ≤ a + 1).

(** The loop invariant of [bfs_spread] started at [start]; [P] lists the
    (node, depth) pairs dequeued so far, oldest first. *)
Record spread_inv (G : Graph) (start : nat) (P : list (nat * nat))
    (s : SpreadState) : Prop := {
  si_nodup : NoDup (map fst (P ++ s_queue s));
  si_visited : s_visited s = list_to_set (map fst (P ++ s_queue s));
  si_first : (P ++ s_queue s) !! 0 = Some (start, 0);
  si_ramp : ramp (map snd (P ++ s_queue s));
  si_front : ∀ n d, s_queue s !! 0 = Some (n, d) →
             ∀ e, e ∈ map snd (P ++ s_queue s) → e ≤ d + 1;
  si_walk : ∀ n d, (n, d) ∈ P ++ s_queue s → walk G start d n;
  si_closed : ∀ n d m, (n, d) ∈ P → edge G n m →
              ∃ e, (m, e) ∈ P ++ s_queue s ∧ e ≤ d + 1;
  si_levels : s_levels s = hist (map snd P)
}.

(** The generator and the histogram traversal in lock step. *)
Definition sim (g : GenState) (s : SpreadState) : Prop :=
  visited g = s_visited s ∧ queue g = map fst (s_queue s).

(** A complete run of the [while] loop from state [s]: the states after
    each iteration, and the full dequeue sequence [Pf]. *)
Inductive completes (G : Graph) : list (nat * nat) → SpreadState →
    list SpreadState → list (nat * nat) → Prop :=
  | completes_done P s :
      s_queue s = [] → completes G P s [] P
  | completes_step P s hd q s' sts Pf :
      s_queue s = hd :: q →
      spread_iter G s = Next s' →
      completes G (P ++ [hd]) s' sts Pf →
      completes G P s (s' :: sts) Pf.

(** The visiting order in the words of the amended C8.  [order] lists
    the nodes in the order in which they are marked visited, beginning
    with [start]; the nodes are expanded in that same order, and what the
    [k]-th expansion adds, [ds !! k], is the list of the neighbours of the
    [k]-th node that were not visited before, in the order of its
    adjacency list. *)
Definition visit_order (G : Graph) (start : nat) (order : list nat)
    (ds : list (list nat)) : Prop :=
  order = start :: concat ds ∧ length ds = length order ∧
  ∀ k u d, order !! k = Some u → ds !! k = Some d →
    ∃ ns, G !! u = Some ns ∧ d `sublist_of` ns ∧ NoDup d ∧
      ∀ m, m ∈ d ↔ m ∈ ns ∧ m ∉ start :: concat (take k ds).

(** ** Proof vocabulary for the graph builder *)

(** The constraints the specification puts on a configuration. *)
Definition valid_config (n k : nat) : Prop :=
  4 ≤ n ∧ 2 ≤ k ∧ k < n ∧ k mod 2 = 0.

(** A simple undirected graph on the nodes [0 .. n-1]. *)
Record simple_on (n : nat) (G : Graph) : Prop := {
  so_dom : ∀ u, is_Some (G !! u) ↔ u < n;
  so_range : ∀ u v, edge G u v → v < n;
  so_nodup : ∀ u ns, G !! u = Some ns → NoDup ns;
  so_sym : ∀ u v, edge G u v → edge G v u;
  so_loop : ∀ u, ¬ edge G u u
}.

Definition adj_len (G : Graph) (u : nat) : nat :=
  match G !! u with
  | Some ns => length ns
  | None => 0
  end.

(** Twice the number of edges of a simple graph on [0 .. n-1]. *)
Definition total_len (n : nat) (G : Graph) : nat :=
  sum_list (map (adj_len G) (seq 0 n)).

(** An edge as an unordered pair. *)
Definition norm (e : nat * nat) : nat * nat :=
  (e.1 `min` e.2, e.1 `max` e.2).

(** The pairs [zip(nodes, targets)] of one pass, and of all passes in the
    order in which both phases of [watts_strogatz_graph] go through them. *)
Definition ring_pass (n j : nat) : list (nat * nat) :=
  zip (seq 0 n) (ring_targets j (seq 0 n)).

Definition ring_pairs (n k : nat) : list (nat * nat) :=
  seq 1 (k / 2) ≫= ring_pass n.

(** The ring neighbours of [i] as a list: first the [k / 2] nodes after
    it, then the [k / 2] nodes before it. *)
Definition ring_adj (n k i : nat) : list nat :=
  map (λ j, (i + j) mod n) (seq 1 (k / 2)) ++
  map (λ j, (i + n - j) mod n) (seq 1 (k / 2)).

(** A rewired graph for concrete runs: population 10, degree 4, rewiring
    probability 1/2, drawn from [lcg_source] started at 0. *)
Definition small_world_10_4 : Graph :=
  match watts_strogatz_graph 10 10 4 (1 # 2) 0%N with
  | Ok (G, _) => G
  | _ => ∅
  end.

(** Closes a decidable goal by evaluating its decision procedure. *)
Ltac by_evaluation := apply (bool_decide_unpack _); vm_compute; exact I.

(** One snapshot per newly discovered node, as the specification words
    it: the first snapshot is taken when the start node is discovered, and
    from one snapshot to the next exactly one node is added. *)
Definition starts_with_start_alone (start : nat) (snaps : list (gset nat)) : Prop :=
  ∀ X, snaps !! 0 = Some X → X = {[start]}.

Definition one_discovery_between (snaps : list (gset nat)) : Prop :=
  ∀ i X Y, snaps !! i = Some X → snaps !! S i = Some Y → size (Y ∖ X) = 1.

(** ** The animation loop (lines 67-83)
<<
    bfs_gens = {k: bfs_generator(g) for k, g in networks.items()}
    done = False
    while not done:
        done = True
        for _ in range(5):
            for key in networks:
                try:
                    visited = next(bfs_gens[key])
                    done = False
                except StopIteration:
                    visited = set(networks[key].nodes())
                placeholders[key].pyplot(plot_graph(networks[key], visited, ...))
        time.sleep(0.005)
>>
    A frame is what one [pyplot] call is given: the key of the network and
    the visited set that [plot_graph] colours.  Only [StopIteration] is
    caught; a [NetworkXError] from the generator leaves the loop. *)

(** The [try ... except StopIteration] statement: the set to draw, the
    generator afterwards, and whether [done] was reset. *)
Definition next_frame (G : Graph) (st : GenState)
  : option (gset nat * GenState * bool) :=
  match gen_next G st with
  | Yield X st' => Some (X, st', true)
  | StopIteration => Some (dom G, st, false)
  | NetworkXError => None
  end.

(** [for key in networks]: one frame per network, in the order of the dict.
    The frames drawn so far are returned also when a generator raises. *)
Fixpoint animate_pass (nets : list (string * Graph * GenState))
  : list (string * gset nat) * option (list (string * Graph * GenState) * bool) :=
  match nets with
  | [] => ([], Some ([], false))
  | (key, G, st) :: rest =>
      match next_frame G st with
      | None => ([], None)
      | Some (X, st', moved) =>
          let '(frames, r) := animate_pass rest in
          ((key, X) :: frames,
           match r with
           | Some (rest', moved') => Some ((key, G, st') :: rest', moved || moved')
           | None => None
           end)
      end
  end.

(** [for _ in range(k)]. *)
Fixpoint animate_steps (k : nat) (nets : list (string * Graph * GenState))
  : list (string * gset nat) * option (list (string * Graph * GenState) * bool) :=
  match k with
  | 0 => ([], Some (nets, false))
  | S k' =>
      match animate_pass nets with
      | (frames, None) => (frames, None)
      | (frames, Some (nets', moved)) =>
          let '(frames', r) := animate_steps k' nets' in
          (frames ++ frames',
           match r with
           | Some (nets'', moved') => Some (nets'', moved || moved')
           | None => None
           end)
      end
  end.

(** [while not done], cut off after [fuel] rounds of five passes. *)
Fixpoint animate (fuel : nat) (nets : list (string * Graph * GenState))
  : list (string * gset nat) * ending :=
  match fuel with
  | 0 => ([], Suspended)
  | S fuel' =>
      match animate_steps 5 nets with
      | (frames, None) => (frames, Raised)
      | (frames, Some (nets', moved)) =>
          if moved then
            let '(frames', e) := animate fuel' nets' in (frames ++ frames', e)
          else (frames, Exhausted)
      end
  end.

(** [bfs_gens]: a new generator, with the default [start=0], per network. *)
Definition bfs_gens (networks : list (string * Graph))
  : list (string * Graph * GenState) :=
  map (λ '(k, g), (k, g, bfs_generator 0)) networks.

(** ** [plot_graph] (lines 44-52)

    Of [plot_graph] only the colour list is computed by the program itself,
    the rest is drawing:
<<
    node_colors = [BLUE if n in visited else GREY for n in G.nodes()]
>>
    with the colour codes #00BFFF and #555555.  [G.nodes()] iterates the
    nodes in insertion order, which the graph model does not keep, so the
    node list is an argument. *)
Definition node_colors (nodes : list nat) (visited : gset nat) : list string :=
  map (λ n, if decide (n ∈ visited) then "#00BFFF" else "#555555") nodes.

(** ** The line-chart table (lines 97-103) and the result table (line 124)
<<
    df_all = pd.concat([
        pd.DataFrame({
            STEPS: list(bfs_spread(G).keys()),
            REACHED: [sum(list(bfs_spread(G).values())[:i+1])
                      for i in range(len(bfs_spread(G)))],
            NETWORK: label
        }) for label, G in networks.items()
    ])
    final_steps = {k: df_all[df_all[NETWORK]==k][STEPS].iloc[-1]
                   for k in networks.keys()}
>> *)

Record Row := mkRow { Steps : nat; Nodes_Reached : nat; Network : string }.

(** The running total [sum(values[:i+1]) for i in range(len(levels))]. *)
Definition nodes_reached (levels : list (nat * nat)) : list nat :=
  map (λ i, sum_list (take (i + 1) (values levels))) (seq 0 (length levels)).

(** One [pd.DataFrame]: a row per depth. *)
Definition data_frame (label : string) (levels : list (nat * nat)) : list Row :=
  zip_with (λ s r, mkRow s r label) (keys levels) (nodes_reached levels).

(** [pd.concat] over [networks.items()]; [None] when [bfs_spread] does not
    return a histogram. *)
Fixpoint df_all (fuel : nat) (networks : list (string * Graph))
  : option (list Row) :=
  match networks with
  | [] => Some []
  | (label, G) :: rest =>
      match bfs_spread fuel G with
      | Levels levels =>
          match df_all fuel rest with
          | Some rows => Some (data_frame label levels ++ rows)
          | None => None
          end
      | _ => None
      end
  end.

(** [df_all[df_all[NETWORK]==k][STEPS].iloc[-1]]; [None] is the
    [IndexError] of [iloc[-1]] on an empty selection. *)
Definition final_steps (df : list Row) (k : string) : option nat :=
  Steps <$> last (filter (λ row, Network row = k) df).

(** How often [d] occurs in a list of depths. *)
Definition occ (d : nat) (ds : list nat) : nat :=
  length (filter (λ e, e = d) ds).

(** ** Proof vocabulary for the animation *)

(** Pulled to the end, the generator [st] hands out exactly [snaps]. *)
Definition yields (G : Graph) (st : GenState) (snaps : list (gset nat)) : Prop :=
  ∀ n, pulls n G st
       = (take n snaps, if decide (n ≤ length snaps) then Suspended else Exhausted).

(** What is drawn for a network in pass [t]: its [t]-th snapshot, and all
    its nodes once the snapshots are used up. *)
Definition shown (G : Graph) (snaps : list (gset nat)) (t : nat) : gset nat :=
  default (dom G) (snaps !! t).

Definition pass_frames (specs : list (string * Graph * list (gset nat)))
    (t : nat) : list (string * gset nat) :=
  map (λ spec, (spec.1.1, shown spec.1.2 spec.2 t)) specs.

(** The length of the longest snapshot stream. *)
Definition longest (specs : list (string * Graph * list (gset nat))) : nat :=
  max_list (map (λ spec, length spec.2) specs).

(** After [t] passes every generator has the rest of its stream to give. *)
Definition tracks (t : nat) (nets : list (string * Graph * GenState))
    (specs : list (string * Graph * list (gset nat))) : Prop :=
  Forall2 (λ net spec, net.1 = spec.1 ∧ yields net.1.2 net.2 (drop t spec.2))
          nets specs.

(** The set of neighbours of a node. *)
Definition nbr_set (G : Graph) (x : nat) : gset nat :=
  list_to_set (default [] (G !! x)).

(** How many of the pairs in [es] end in [x]. *)
Definition incoming (x : nat) (es : list (nat * nat)) : nat :=
  length (filter (λ e, e.2 = x) es).

(** The number of steps from node 0 to node [v] along the ring of the
    regular network: the shorter way round, [k / 2] places per step. *)
Definition ring_distance (n k v : nat) : nat :=
  (v `min` (n - v) + k / 2 - 1) / (k / 2).

(** Lines 23-24: the values the two integer sliders can take.
<<
    with col1: nodes = st.slider(POPULATION, 20, 200, 50, step=10)
    with col2: neighbours = st.slider(FRIENDS, 2, 10, 4)
>> *)
Definition slider_setting (nodes neighbours : nat) : Prop :=
  20 ≤ nodes ≤ 200 ∧ nodes mod 10 = 0 ∧ 2 ≤ neighbours ≤ 10.

(** Two separate pairs of friends: the edges 0-1 and 2-3. *)
Definition two_pairs : Graph :=
  add_edge 2 3 (add_edge 0 1 (empty_graph 4)).

(** * Properties *)

(** ** One pass of the [for] loop *)

Lemma fresh_elem v ns m : m ∈ fresh v ns ↔ m ∈ ns ∧ m ∉ v.
Proof.
  revert v. induction ns as [|a ns IH]; intros v; simpl.
  - set_solver.
  - destruct (decide (a ∈ v)).
    + rewrite IH. set_solver.
    + rewrite elem_of_cons, IH. destruct (decide (m = a)); set_solver.
Qed.

Lemma fresh_nodup v ns : NoDup (fresh v ns).
Proof.
  revert v. induction ns as [|a ns IH]; intros v; simpl.
  - constructor.
  - destruct (decide (a ∈ v)); [apply IH|].
    constructor; [|apply IH].
    rewrite fresh_elem. set_solver.
Qed.

Lemma expand_fresh ns v q :
  expand ns (v, q) = (list_to_set (fresh v ns) ∪ v, q ++ fresh v ns).
Proof.
  unfold expand. revert v q. induction ns as [|a ns IH]; intros v q; simpl.
  - f_equal; [set_solver | by rewrite app_nil_r].
  - unfold visit at 2. simpl. destruct (decide (a ∈ v)).
    + apply IH.
    + rewrite IH. simpl. f_equal; [set_solver | by rewrite <- app_assoc].
Qed.

Lemma visit_at_fresh d ns v q :
  foldl (visit_at d) (v, q) ns
  = (list_to_set (fresh v ns) ∪ v, q ++ map (λ m, (m, d + 1)) (fresh v ns)).
Proof.
  revert v q. induction ns as [|a ns IH]; intros v q; simpl.
  - f_equal; [set_solver | by rewrite app_nil_r].
  - unfold visit_at at 2. simpl. destruct (decide (a ∈ v)).
    + apply IH.
    + rewrite IH. simpl. f_equal; [set_solver | by rewrite <- app_assoc].
Qed.

Lemma spread_iter_next G s n d q ns :
  s_queue s = (n, d) :: q → G !! n = Some ns →
  spread_iter G s
  = Next (mkSpread (list_to_set (fresh (s_visited s) ns) ∪ s_visited s)
                   (q ++ map (λ m, (m, d + 1)) (fresh (s_visited s) ns))
                   (bump d (s_levels s))).
Proof.
  intros Hq Hn. unfold spread_iter, neighbors. rewrite Hq, Hn.
  by rewrite visit_at_fresh.
Qed.

Lemma gen_next_yield G g n q ns :
  queue g = n :: q → G !! n = Some ns →
  gen_next G g
  = Yield (list_to_set (fresh (visited g) ns) ∪ visited g)
          (mkGen (list_to_set (fresh (visited g) ns) ∪ visited g)
                 (q ++ fresh (visited g) ns)).
Proof.
  intros Hq Hn. unfold gen_next, neighbors. rewrite Hq, Hn.
  by rewrite expand_fresh.
Qed.

(** ** Depth sequences and their histogram *)

Lemma ramp_nil : ramp [].
Proof. split; intros *; by rewrite lookup_nil. Qed.

Lemma ramp_snoc ds x :
  ramp ds → (ds = [] → x = 0) →
  (∀ e, last ds = Some e → e ≤ x ≤ e + 1) →
  ramp (ds ++ [x]).
Proof.
  intros [H0 Hs] Hnil Hlast. split.
  - intros y. destruct ds as [|a ds]; simpl.
    + intros [= <-]. by apply Hnil.
    + intros [= <-]. by apply (H0 a).
  - intros i a b Ha Hb.
    destruct (decide (S i < length ds)) as [Hlt|Hge].
    + rewrite lookup_app_l in Ha by lia. rewrite lookup_app_l in Hb by lia.
      eauto.
    + pose proof (lookup_lt_Some _ _ _ Hb) as Hlen.
      rewrite length_app in Hlen. simpl in Hlen.
      assert (S i = length ds) as Hi by lia.
      rewrite lookup_app_l in Ha by lia.
      rewrite lookup_app_r in Hb by lia.
      rewrite Hi, Nat.sub_diag in Hb. simpl in Hb. injection Hb as <-.
      apply Hlast. rewrite last_lookup, <- Hi. exact Ha.
Qed.

Lemma ramp_snoc_inv ds x :
  ramp (ds ++ [x]) →
  ramp ds ∧ (ds = [] → x = 0) ∧ (∀ e, last ds = Some e → e ≤ x ≤ e + 1).
Proof.
  intros [H0 Hs]. repeat split.
  - intros y Hy. apply H0. rewrite lookup_app_l; [done|].
    by eapply lookup_lt_Some.
  - eapply Hs; (rewrite lookup_app_l; [eassumption|]); by eapply lookup_lt_Some.
  - eapply Hs; (rewrite lookup_app_l; [eassumption|]); by eapply lookup_lt_Some.
  - intros ->. by apply H0.
  - specialize (Hs (pred (length ds)) e x).
    rewrite last_lookup in H.
    pose proof (lookup_lt_Some _ _ _ H) as Hlen.
    apply Hs.
    + rewrite lookup_app_l by lia. done.
    + rewrite lookup_app_r by lia.
      replace (S (pred (length ds)) - length ds) with 0 by lia. done.
  - specialize (Hs (pred (length ds)) e x).
    rewrite last_lookup in H.
    pose proof (lookup_lt_Some _ _ _ H) as Hlen.
    apply Hs.
    + rewrite lookup_app_l by lia. done.
    + rewrite lookup_app_r by lia.
      replace (S (pred (length ds)) - length ds) with 0 by lia. done.
Qed.

Lemma ramp_app_inv ds es : ramp (ds ++ es) → ramp ds.
Proof.
  revert ds. induction es as [|e es IH] using rev_ind; intros ds.
  - by rewrite app_nil_r.
  - rewrite app_assoc. intros Hr. apply IH.
    by apply ramp_snoc_inv in Hr as [? _].
Qed.

Lemma ramp_app_replicate ds d e k :
  ramp ds → last ds = Some e → d ≤ e ≤ d + 1 →
  ramp (ds ++ replicate k (d + 1)).
Proof.
  revert ds e. induction k as [|k IH]; intros ds e Hr Hl He; simpl.
  - by rewrite app_nil_r.
  - rewrite cons_middle, app_assoc. apply (IH _ (d + 1)).
    + apply ramp_snoc; [done| |].
      * intros ->. done.
      * intros e' He'. rewrite Hl in He'. injection He' as <-. lia.
    + by rewrite last_snoc.
    + lia.
Qed.

Lemma ramp_sorted ds i j a b :
  ramp ds → i ≤ j → ds !! i = Some a → ds !! j = Some b → a ≤ b.
Proof.
  intros [_ Hs] Hij Ha. revert b. induction Hij as [|j Hij IH]; intros b Hb.
  - rewrite Ha in Hb. injection Hb as <-. done.
  - destruct (ds !! j) as [c|] eqn:Hc.
    + specialize (IH c eq_refl). specialize (Hs j c b Hc Hb). lia.
    + apply lookup_ge_None in Hc. apply lookup_lt_Some in Hb. lia.
Qed.

Lemma hist_snoc ds d : hist (ds ++ [d]) = bump d (hist ds).
Proof. unfold hist. by rewrite foldl_app. Qed.

Lemma bump_keys d lv :
  keys (bump d lv) = if decide (d ∈ keys lv) then keys lv else keys lv ++ [d].
Proof.
  unfold keys. induction lv as [|[e c] lv IH].
  - cbn [bump map]. case_decide as Hin; [|done]. by apply elem_of_nil in Hin.
  - cbn [bump map fst]. destruct (decide (e = d)) as [->|Hne].
    + cbn [map fst]. rewrite decide_True; [done|]. apply elem_of_cons. by left.
    + cbn [map fst]. rewrite IH. destruct (decide (d ∈ map fst lv)) as [Hin|Hin].
      * rewrite decide_True; [done|]. apply elem_of_cons. by right.
      * rewrite decide_False; [done|]. rewrite elem_of_cons. naive_solver.
Qed.

Lemma bump_sum d lv : sum_list (values (bump d lv)) = S (sum_list (values lv)).
Proof.
  unfold values. induction lv as [|[e c] lv IH]; simpl; [done|].
  destruct (decide (e = d)); simpl; [lia|]. rewrite IH. lia.
Qed.

Lemma bump_positive d lv :
  Forall (λ c, 1 ≤ c) (values lv) → Forall (λ c, 1 ≤ c) (values (bump d lv)).
Proof.
  unfold values. induction lv as [|[e c] lv IH]; simpl; intros Hall.
  - repeat constructor.
  - apply Forall_cons in Hall as [Hc Hall].
    destruct (decide (e = d)); simpl; constructor; auto with lia.
Qed.

Lemma hist_sum ds : sum_list (values (hist ds)) = length ds.
Proof.
  induction ds as [|d ds IH] using rev_ind; [done|].
  rewrite hist_snoc, bump_sum, IH, length_app. simpl. lia.
Qed.

Lemma hist_positive ds : Forall (λ c, 1 ≤ c) (values (hist ds)).
Proof.
  induction ds as [|d ds IH] using rev_ind; [constructor|].
  rewrite hist_snoc. by apply bump_positive.
Qed.

Lemma hist_keys ds :
  ramp ds →
  keys (hist ds) = seq 0 (match last ds with Some l => S l | None => 0 end).
Proof.
  induction ds as [|d ds IH] using rev_ind; intros Hr; [done|].
  apply ramp_snoc_inv in Hr as (Hr & Hnil & Hlast).
  rewrite hist_snoc, bump_keys, last_snoc, IH by done.
  destruct (last ds) as [l|] eqn:Hl.
  - specialize (Hlast l eq_refl).
    destruct (decide (d ∈ seq 0 (S l))) as [Hin|Hin].
    + apply elem_of_seq in Hin. by replace d with l by lia.
    + rewrite elem_of_seq in Hin. replace d with (S l) by lia.
      by rewrite (seq_S (S l)).
  - apply last_None in Hl. rewrite (Hnil Hl).
    rewrite decide_False; [done|]. apply not_elem_of_nil.
Qed.

(** ** The loop invariant of the histogram traversal *)

Lemma has_edge_true G u v : has_edge G u v = true ↔ edge G u v.
Proof.
  unfold has_edge, edge. destruct (G !! u) as [ns|].
  - rewrite bool_decide_eq_true. naive_solver.
  - naive_solver.
Qed.

Lemma adj_closed_edge G u w : adj_closed G → edge G u w → w ∈ dom G.
Proof.
  intros Hc (ns & Hu & Hw). specialize (Hc u ns Hu). simpl in Hc.
  rewrite Forall_forall in Hc. by apply Hc.
Qed.

Lemma walk_dom G s d v :
  adj_closed G → s ∈ dom G → walk G s d v → v ∈ dom G.
Proof.
  intros Hc Hs Hw. induction Hw; [done|]. by eapply adj_closed_edge.
Qed.

Lemma spread_inv_init G start : spread_inv G start [] (spread_from start).
Proof.
  split; simpl.
  - apply NoDup_singleton.
  - set_solver.
  - done.
  - apply (ramp_snoc [] 0); [apply ramp_nil|done|done].
  - intros n d [= <- <-] e He. apply list_elem_of_singleton in He. lia.
  - intros n d Hin. apply list_elem_of_singleton in Hin as [= -> ->].
    constructor.
  - intros n d m Hin. by apply elem_of_nil in Hin.
  - done.
Qed.

Lemma spread_iter_inv G s s' :
  spread_iter G s = Next s' →
  ∃ n d q ns, s_queue s = (n, d) :: q ∧ G !! n = Some ns ∧
    s' = mkSpread (list_to_set (fresh (s_visited s) ns) ∪ s_visited s)
                  (q ++ map (λ m, (m, d + 1)) (fresh (s_visited s) ns))
                  (bump d (s_levels s)).
Proof.
  intros Hit. destruct (s_queue s) as [|[n d] q] eqn:Hq.
  - unfold spread_iter in Hit. by rewrite Hq in Hit.
  - destruct (G !! n) as [ns|] eqn:Hn.
    + rewrite (spread_iter_next G s n d q ns Hq Hn) in Hit.
      injection Hit as <-. by exists n, d, q, ns.
    + unfold spread_iter, neighbors in Hit. by rewrite Hq, Hn in Hit.
Qed.

Lemma spread_inv_step G start P s n d q ns :
  spread_inv G start P s →
  s_queue s = (n, d) :: q → G !! n = Some ns →
  spread_inv G start (P ++ [(n, d)])
    (mkSpread (list_to_set (fresh (s_visited s) ns) ∪ s_visited s)
              (q ++ map (λ m, (m, d + 1)) (fresh (s_visited s) ns))
              (bump d (s_levels s))).
Proof.
  intros [Hnd Hvis Hfirst Hramp Hfront Hwalk Hclosed Hlev] Hq Hn.
  set (news := fresh (s_visited s) ns).
  set (L := P ++ s_queue s) in *.
  assert ((P ++ [(n, d)]) ++ q ++ map (λ m, (m, d + 1)) news
          = L ++ map (λ m, (m, d + 1)) news) as HL.
  { unfold L. rewrite Hq, <- !app_assoc. done. }
  assert (map fst (map (λ m : nat, (m, d + 1)) news) = news) as Hfst.
  { rewrite map_map. simpl. apply map_id. }
  assert (map snd (map (λ m : nat, (m, d + 1)) news)
          = replicate (length news) (d + 1)) as Hsnd.
  { rewrite map_map. simpl. clear. induction news; simpl; congruence. }
  assert (L !! length P = Some (n, d)) as Hhead.
  { unfold L. rewrite lookup_app_r, Nat.sub_diag, Hq by lia. done. }
  assert (∀ e, e ∈ map snd L → e ≤ d + 1) as Hle.
  { apply (Hfront n d). by rewrite Hq. }
  assert (∀ m, m ∈ s_visited s → ∃ e, (m, e) ∈ L ∧ e ≤ d + 1) as Hseen.
  { intros m Hm. rewrite Hvis in Hm. apply elem_of_list_to_set in Hm.
    apply list_elem_of_fmap in Hm as ([m' e] & -> & Hin). exists e.
    split; [done|]. apply Hle. apply list_elem_of_fmap. by exists (m', e). }
  split; cbn [s_visited s_queue s_levels]; rewrite ?HL.
  - rewrite map_app, Hfst. apply NoDup_app. split_and!.
    + done.
    + intros m Hm Hm'. apply fresh_elem in Hm' as [_ Hnot]. apply Hnot.
      rewrite Hvis. by apply elem_of_list_to_set.
    + apply fresh_nodup.
  - rewrite map_app, Hfst, list_to_set_app_L, Hvis. set_solver.
  - rewrite lookup_app_l; [done|]. by eapply lookup_lt_Some.
  - rewrite map_app, Hsnd.
    destruct (last (map snd L)) as [e|] eqn:Hlast.
    + apply (ramp_app_replicate _ d e); [done..|].
      split.
      * rewrite last_lookup in Hlast.
        eapply (ramp_sorted (map snd L) (length P)); [done| |by rewrite list_lookup_fmap, Hhead|done].
        apply lookup_lt_Some in Hhead. rewrite length_map. lia.
      * apply Hle. rewrite last_lookup in Hlast. by eapply list_elem_of_lookup_2.
    + apply last_None in Hlast. apply fmap_nil_inv in Hlast.
      by rewrite Hlast in Hhead.
  - intros n' d' Hhd e He.
    assert (d ≤ d') as Hdd.
    { eapply (ramp_sorted (map snd (L ++ map (λ m, (m, d + 1)) news))
                (length P) (S (length P))).
      - rewrite map_app, Hsnd.
        destruct (last (map snd L)) as [e0|] eqn:Hlast.
        + apply (ramp_app_replicate _ d e0); [done..|].
          split.
          * rewrite last_lookup in Hlast.
            eapply (ramp_sorted (map snd L) (length P)); [done| |by rewrite list_lookup_fmap, Hhead|done].
            apply lookup_lt_Some in Hhead. rewrite length_map. lia.
          * apply Hle. rewrite last_lookup in Hlast. by eapply list_elem_of_lookup_2.
        + apply last_None in Hlast. apply fmap_nil_inv in Hlast.
          by rewrite Hlast in Hhead.
      - lia.
      - rewrite list_lookup_fmap, lookup_app_l, Hhead; [done|].
        by eapply lookup_lt_Some.
      - rewrite list_lookup_fmap, <- HL.
        rewrite lookup_app_r by (rewrite length_app; simpl; lia).
        rewrite length_app. simpl.
        replace (S (length P) - (length P + 1)) with 0 by lia.
        by rewrite Hhd. }
    rewrite map_app, elem_of_app, Hsnd in He. destruct He as [He|He].
    + specialize (Hle e He). lia.
    + apply elem_of_replicate in He as [-> _]. lia.
  - intros m e Hin. apply elem_of_app in Hin as [Hin|Hin]; [by apply Hwalk|].
    apply list_elem_of_fmap in Hin as (m' & [= -> ->] & Hm').
    apply fresh_elem in Hm' as [Hm' _].
    rewrite Nat.add_1_r. apply (walk_step G start d n m').
    + apply Hwalk. by eapply list_elem_of_lookup_2.
    + by exists ns.
  - intros x dx m Hin Hedge. apply elem_of_app in Hin as [Hin|Hin].
    + destruct (Hclosed x dx m Hin Hedge) as (e & He & Hle').
      exists e. split; [|done]. apply elem_of_app. by left.
    + apply list_elem_of_singleton in Hin as [= -> ->].
      destruct Hedge as (ns' & Hns' & Hm). rewrite Hn in Hns'.
      injection Hns' as <-.
      destruct (decide (m ∈ s_visited s)) as [Hv|Hv].
      * destruct (Hseen m Hv) as (e & He & Hle').
        exists e. split; [|done]. apply elem_of_app. by left.
      * exists (d + 1). split; [|done]. apply elem_of_app. right.
        apply list_elem_of_fmap. exists m. split; [done|].
        apply fresh_elem. done.
  - rewrite map_app. change (map snd [(n, d)]) with [d].
    by rewrite hist_snoc, Hlev.
Qed.

Lemma spread_inv_bound G start P s :
  adj_closed G → start ∈ dom G →
  spread_inv G start P s → length (P ++ s_queue s) ≤ size (dom G).
Proof.
  intros Hc Hs Hinv.
  rewrite <- (length_map fst).
  rewrite <- (size_list_to_set (C := gset nat)) by apply Hinv.
  apply subseteq_size. intros m Hm. apply elem_of_list_to_set in Hm.
  apply list_elem_of_fmap in Hm as ([m' e] & -> & Hin).
  eapply walk_dom; [done..|]. by eapply si_walk.
Qed.

(** ** Complete runs *)

Lemma completes_exists G start k P s :
  adj_closed G → start ∈ dom G →
  spread_inv G start P s → size (dom G) ≤ k + length P →
  ∃ sts Pf, completes G P s sts Pf.
Proof.
  intros Hc Hs. revert P s. induction k as [|k IH]; intros P s Hinv Hk.
  - pose proof (spread_inv_bound G start P s Hc Hs Hinv) as Hb.
    rewrite length_app in Hb.
    destruct (s_queue s) eqn:Hq; [|simpl in Hb; lia].
    exists [], P. by constructor.
  - destruct (s_queue s) as [|[n d] q] eqn:Hq.
    { exists [], P. by constructor. }
    assert (n ∈ dom G) as Hn.
    { eapply walk_dom; [done..|]. eapply (si_walk _ _ _ _ Hinv n d).
      rewrite Hq. apply elem_of_app. right. apply elem_of_cons. by left. }
    apply elem_of_dom in Hn as [ns Hn].
    pose proof (spread_inv_step G start P s n d q ns Hinv Hq Hn) as Hinv'.
    destruct (IH _ _ Hinv') as (sts & Pf & Hrun).
    { rewrite length_app. simpl. lia. }
    eexists (_ :: sts), Pf.
    exact (completes_step G P s (n, d) q _ sts Pf Hq
             (spread_iter_next G s n d q ns Hq Hn) Hrun).
Qed.

Lemma last_state_cons (s s' : SpreadState) sts :
  default s (last (s' :: sts)) = default s' (last sts).
Proof. rewrite last_cons. by destruct (last sts). Qed.

Lemma completes_inv G start P s sts Pf :
  completes G P s sts Pf → spread_inv G start P s →
  spread_inv G start Pf (default s (last sts)) ∧
  s_queue (default s (last sts)) = [].
Proof.
  induction 1 as [P s Hq|P s hd q s' sts Pf Hq Hit Hrun IH]; intros Hinv.
  - done.
  - rewrite last_state_cons. apply IH.
    apply spread_iter_inv in Hit as (n & d & q' & ns & Hq' & Hn & ->).
    rewrite Hq in Hq'. injection Hq' as -> <-.
    by apply spread_inv_step.
Qed.

Lemma completes_length G P s sts Pf :
  completes G P s sts Pf → length Pf = length P + length sts.
Proof.
  induction 1 as [|P s hd q s' sts Pf Hq Hit Hrun IH]; simpl; [lia|].
  rewrite IH, length_app. simpl. lia.
Qed.

Lemma completes_prefix G start P s sts Pf :
  completes G P s sts Pf → spread_inv G start P s →
  (P ++ s_queue s) `prefix_of` Pf.
Proof.
  induction 1 as [P s Hq|P s hd q s' sts Pf Hq Hit Hrun IH]; intros Hinv.
  - by rewrite Hq, app_nil_r.
  - apply spread_iter_inv in Hit as (n & d & q' & ns & Hq' & Hn & ->).
    rewrite Hq in Hq'. injection Hq' as -> <-.
    pose proof (spread_inv_step G start P s n d q ns Hinv Hq Hn) as Hinv'.
    specialize (IH Hinv'). cbn [s_queue] in IH.
    etrans; [|exact IH]. rewrite Hq, <- !app_assoc. simpl.
    apply prefix_app, prefix_cons. by apply prefix_app_r.
Qed.

Lemma completes_nth G start P s sts Pf i st :
  completes G P s sts Pf → spread_inv G start P s →
  sts !! i = Some st →
  ∃ Pi, length Pi = length P + S i ∧ spread_inv G start Pi st ∧
        completes G Pi st (drop (S i) sts) Pf.
Proof.
  intros Hrun. revert i.
  induction Hrun as [P s Hq|P s hd q s' sts Pf Hq Hit Hrun IH];
    intros i Hinv Hi; [done|].
  pose proof Hit as Hit'.
  apply spread_iter_inv in Hit' as (n & d & q' & ns & Hq' & Hn & ->).
  rewrite Hq in Hq'. injection Hq' as -> <-.
  pose proof (spread_inv_step G start P s n d q ns Hinv Hq Hn) as Hinv'.
  destruct i as [|i]; simpl in Hi.
  - injection Hi as <-. exists (P ++ [(n, d)]). split_and!; [|done|exact Hrun].
    rewrite length_app. simpl. lia.
  - destruct (IH i Hinv' Hi) as (Pi & Hlen & HPi & Hrest).
    exists Pi. split_and!; [|done..].
    rewrite Hlen, length_app. simpl. lia.
Qed.

Lemma spread_loop_completes G P s sts Pf fuel :
  completes G P s sts Pf → length sts ≤ fuel →
  spread_loop fuel G s = Levels (s_levels (default s (last sts))).
Proof.
  intros Hrun. revert fuel.
  induction Hrun as [P s Hq|P s hd q s' sts Pf Hq Hit Hrun IH]; intros fuel Hf.
  - destruct fuel; simpl; unfold spread_iter; by rewrite Hq.
  - rewrite last_state_cons. simpl in Hf. destruct fuel as [|fuel]; [lia|].
    simpl. rewrite Hit. apply IH. lia.
Qed.

(** ** Generator and histogram traversal in lock step *)

Lemma sim_init start : sim (bfs_generator start) (spread_from start).
Proof. done. Qed.

Lemma sim_stop G g s :
  sim g s → s_queue s = [] → gen_next G g = StopIteration.
Proof. intros [_ Hq] Hs. unfold gen_next. by rewrite Hq, Hs. Qed.

Lemma sim_step G g s s' :
  sim g s → spread_iter G s = Next s' →
  ∃ g', gen_next G g = Yield (s_visited s') g' ∧ sim g' s'.
Proof.
  intros [Hv Hq] Hit.
  apply spread_iter_inv in Hit as (n & d & q & ns & Hsq & Hn & ->).
  rewrite Hsq in Hq. simpl in Hq.
  rewrite (gen_next_yield G g n (map fst q) ns Hq Hn), Hv.
  eexists. split; [done|]. split; simpl; [done|].
  rewrite map_app, map_map. simpl. by rewrite map_id.
Qed.

Lemma pulls_completes G P s sts Pf g n :
  completes G P s sts Pf → sim g s →
  pulls n G g = (map s_visited (take n sts),
                 if decide (n ≤ length sts) then Suspended else Exhausted).
Proof.
  intros Hrun. revert g n.
  induction Hrun as [P s Hq|P s hd q s' sts Pf Hq Hit Hrun IH]; intros g n Hsim.
  - destruct n as [|n]; simpl; [done|].
    by rewrite (sim_stop G g s Hsim Hq).
  - destruct n as [|n]; simpl; [done|].
    destruct (sim_step G g s s' Hsim Hit) as (g' & -> & Hsim').
    rewrite (IH g' n Hsim'). repeat case_decide; try done; lia.
Qed.

(** ** What a finished traversal has computed *)

Lemma nodup_fst_functional (l : list (nat * nat)) x y1 y2 :
  NoDup (map fst l) → (x, y1) ∈ l → (x, y2) ∈ l → y1 = y2.
Proof.
  intros Hnd [i Hi]%list_elem_of_lookup_1 [j Hj]%list_elem_of_lookup_1.
  assert (i = j) as ->.
  { eapply (NoDup_lookup _ i j x Hnd); by rewrite list_lookup_fmap, ?Hi, ?Hj. }
  congruence.
Qed.

Section Final.
Context (G : Graph) (start : nat) (Pf : list (nat * nat)) (s : SpreadState).
Hypothesis Hinv : spread_inv G start Pf s.
Hypothesis Hq : s_queue s = [].

Lemma final_start : (start, 0) ∈ Pf.
Proof using Hinv Hq.
  pose proof (si_first _ _ _ _ Hinv) as H0.
  rewrite Hq, app_nil_r in H0. by eapply list_elem_of_lookup_2.
Qed.

Lemma final_covers l v : walk G start l v → ∃ d, (v, d) ∈ Pf ∧ d ≤ l.
Proof using Hinv Hq.
  induction 1 as [|l u v Hw (du & Hu & Hle) He].
  - exists 0. split; [apply final_start|done].
  - destruct (si_closed _ _ _ _ Hinv u du v Hu He) as (e & Hin & Hle').
    rewrite Hq, app_nil_r in Hin. exists e. split; [done|lia].
Qed.

Lemma final_unique v d e : (v, d) ∈ Pf → (v, e) ∈ Pf → d = e.
Proof using Hinv Hq.
  intros Hd He. pose proof (si_nodup _ _ _ _ Hinv) as Hnd.
  rewrite Hq, app_nil_r in Hnd.
  by eapply (nodup_fst_functional Pf v d e).
Qed.

Lemma final_dist v d : (v, d) ∈ Pf → dist G start v d.
Proof using Hinv Hq.
  intros Hin. split.
  - apply (si_walk _ _ _ _ Hinv). rewrite Hq, app_nil_r. done.
  - intros l Hw. destruct (final_covers l v Hw) as (e & He & Hle).
    by rewrite (final_unique v d e).
Qed.

Lemma final_reach v : v ∈ s_visited s ↔ reach G start v.
Proof using Hinv Hq.
  rewrite (si_visited _ _ _ _ Hinv), Hq, app_nil_r, elem_of_list_to_set.
  split.
  - intros ([v' d] & -> & Hin)%list_elem_of_fmap. exists d.
    by apply final_dist.
  - intros [l Hw]. destruct (final_covers l v Hw) as (d & Hd & _).
    apply list_elem_of_fmap. by exists (v, d).
Qed.

Lemma final_size : size (s_visited s) = length Pf.
Proof using Hinv Hq.
  rewrite (si_visited _ _ _ _ Hinv), Hq, app_nil_r.
  rewrite size_list_to_set, length_map; [done|].
  pose proof (si_nodup _ _ _ _ Hinv) as Hnd.
  by rewrite Hq, app_nil_r in Hnd.
Qed.

End Final.

(** Every traversal of a well-formed graph from one of its nodes runs to
    completion, dequeuing each discovered node once. *)
Lemma traversal_completes G start :
  adj_closed G → start ∈ dom G →
  ∃ sts Pf, completes G [] (spread_from start) sts Pf ∧
    length sts = length Pf ∧ 1 ≤ length Pf ≤ size (dom G).
Proof.
  intros Hc Hs.
  destruct (completes_exists G start (size (dom G)) [] (spread_from start))
    as (sts & Pf & Hrun); [done|done|apply spread_inv_init|simpl; lia|].
  exists sts, Pf. split; [done|].
  pose proof (completes_length _ _ _ _ _ Hrun) as Hlen. simpl in Hlen.
  destruct (completes_inv G start _ _ _ _ Hrun (spread_inv_init G start))
    as [Hinv Hq].
  pose proof (spread_inv_bound G start _ _ Hc Hs Hinv) as Hb.
  rewrite Hq, app_nil_r in Hb.
  pose proof (final_start G start Pf _ Hinv Hq) as H0.
  apply list_elem_of_lookup_1 in H0 as [i Hi]. apply lookup_lt_Some in Hi.
  lia.
Qed.

Lemma dist_unique G s v d e : dist G s v d → dist G s v e → d = e.
Proof. intros [Hd Hmin] [He Hmin']. apply Nat.le_antisymm; auto. Qed.

(** The run of both traversals, packaged: the generator's snapshots are the
    visited sets of the successive states of the histogram traversal. *)
Lemma traversals_run G start fuel n :
  adj_closed G → start ∈ dom G → size (dom G) ≤ fuel → size (dom G) < n →
  ∃ sts Pf final,
    completes G [] (spread_from start) sts Pf ∧
    last sts = Some final ∧
    spread_inv G start Pf final ∧ s_queue final = [] ∧
    length sts = length Pf ∧ length Pf ≤ size (dom G) ∧
    spread_loop fuel G (spread_from start) = Levels (hist (map snd Pf)) ∧
    pulls n G (bfs_generator start) = (map s_visited sts, Exhausted).
Proof.
  intros Hc Hs Hfuel Hn.
  destruct (traversal_completes G start Hc Hs) as (sts & Pf & Hrun & Hlen & Hb).
  destruct (completes_inv G start _ _ _ _ Hrun (spread_inv_init G start))
    as [Hinv Hq].
  destruct (last sts) as [final|] eqn:Hlast.
  2: { apply last_None in Hlast. subst sts. simpl in Hlen. lia. }
  simpl in Hinv, Hq.
  exists sts, Pf, final. split_and!; try done; try lia.
  - rewrite (spread_loop_completes G _ _ _ _ fuel Hrun) by lia.
    rewrite Hlast. simpl. by rewrite (si_levels _ _ _ _ Hinv).
  - rewrite (pulls_completes G _ _ _ _ _ n Hrun (sim_init start)).
    rewrite take_ge by lia. rewrite decide_False by lia. done.
Qed.

(** ** C1: the two traversals report the same number of nodes *)

(** On every well-formed graph that has node 0, the per-depth counts of
    [bfs_spread] add up to the size of the last snapshot that
    [bfs_generator] yields.  C1 below is this statement for the graphs that
    [watts_strogatz_graph] builds. *)
Lemma traversals_agree_on_total (G : Graph) (fuel n : nat) :
  adj_closed G → 0 ∈ dom G → size (dom G) ≤ fuel → size (dom G) < n →
  ∃ levels snaps final,
    bfs_spread fuel G = Levels levels ∧
    pulls n G (bfs_generator 0) = (snaps, Exhausted) ∧
    last snaps = Some final ∧
    sum_list (values levels) = size final.
Proof.
  intros Hc Hs Hfuel Hn.
  destruct (traversals_run G 0 fuel n Hc Hs Hfuel Hn)
    as (sts & Pf & final & Hrun & Hlast & Hinv & Hq & Hlen & Hb & Hsp & Hgen).
  exists (hist (map snd Pf)), (map s_visited sts), (s_visited final).
  split_and!; [done|done| |].
  - by rewrite fmap_last, Hlast.
  - rewrite hist_sum, length_map. symmetry. by eapply final_size.
Qed.

(** ** What each entry of the histogram counts *)

Lemma bump_elem x lv d c :
  NoDup (keys lv) →
  (d, c) ∈ bump x lv ↔
    (d ≠ x ∧ (d, c) ∈ lv) ∨
    (d = x ∧ ((∃ c0, (x, c0) ∈ lv ∧ c = c0 + 1) ∨ (x ∉ keys lv ∧ c = 1))).
Proof.
  unfold keys. induction lv as [|[e c0] lv IH]; intros Hnd.
  - cbn [bump map]. rewrite list_elem_of_singleton. split.
    + intros [= -> ->]. right. split; [done|]. right.
      split; [apply not_elem_of_nil|done].
    + intros [[_ Hin]|[-> [(c1 & Hin & _)|[_ ->]]]];
        [by apply elem_of_nil in Hin|by apply elem_of_nil in Hin|done].
  - cbn [map fst] in Hnd. apply NoDup_cons in Hnd as [He Hnd].
    assert (∀ c', (e, c') ∉ lv) as Hfresh.
    { intros c' Hin. apply He. apply list_elem_of_fmap. by exists (e, c'). }
    cbn [bump]. destruct (decide (e = x)) as [->|Hne].
    + rewrite !elem_of_cons. cbn [map fst]. split.
      * intros [[= -> ->]|Hin].
        -- right. split; [done|]. left. exists c0. split; [|done].
           apply elem_of_cons. by left.
        -- left. split; [|by right]. intros ->. by apply (Hfresh c).
      * intros [[Hd [[= -> ->]|Hin]]|[-> [(c1 & Hin & ->)|[Hnot _]]]].
        -- done.
        -- by right.
        -- apply elem_of_cons in Hin as [[= ->]|Hin]; [by left|].
           by apply Hfresh in Hin.
        -- exfalso. apply Hnot. apply elem_of_cons. by left.
    + rewrite elem_of_cons, (IH Hnd). cbn [map fst].
      setoid_rewrite elem_of_cons. split.
      * intros [[= -> ->]|[[Hd Hin]|[-> [(c1 & Hin & ->)|[Hnot ->]]]]].
        -- left. split; [done|by left].
        -- left. split; [done|by right].
        -- right. split; [done|]. left. exists c1. split; [by right|done].
        -- right. split; [done|]. right. split; [|done].
           intros [Heq|Hin]; [done|]. by apply Hnot.
      * intros [[Hd [[= -> ->]|Hin]]|[-> [(c1 & [[= ? ?]|Hin] & ->)|[Hnot ->]]]].
        -- by left.
        -- right. left. done.
        -- done.
        -- right. right. split; [done|]. left. by exists c1.
        -- right. right. split; [done|]. right. split; [|done].
           intros Hin. apply Hnot. by right.
Qed.

Lemma hist_keys_nodup ds : NoDup (keys (hist ds)).
Proof.
  induction ds as [|d ds IH] using rev_ind; [constructor|].
  rewrite hist_snoc, bump_keys. case_decide as Hin; [done|].
  apply NoDup_app. split_and!; [done| |apply NoDup_singleton].
  intros x Hx ->%list_elem_of_singleton. done.
Qed.

Lemma occ_snoc d ds x :
  occ d (ds ++ [x]) = occ d ds + (if decide (x = d) then 1 else 0).
Proof.
  unfold occ. rewrite filter_app, length_app. f_equal.
  rewrite filter_cons. case_decide; done.
Qed.

(** Each entry of the histogram is the number of occurrences of its depth,
    and only depths that occur have an entry. *)
Lemma hist_elem ds d c : (d, c) ∈ hist ds ↔ c = occ d ds ∧ 0 < c.
Proof.
  revert d c. induction ds as [|x ds IH] using rev_ind; intros d c.
  - unfold hist, occ. simpl. rewrite elem_of_nil. split; [done|].
    intros [-> ?]. simpl in *. lia.
  - rewrite hist_snoc, (bump_elem x _ d c (hist_keys_nodup ds)), occ_snoc.
    assert (x ∈ keys (hist ds) ↔ 0 < occ x ds) as Hkey.
    { unfold keys. rewrite list_elem_of_fmap. split.
      - intros ([x' c'] & -> & Hin). apply IH in Hin. simpl. lia.
      - intros Hpos. exists (x, occ x ds). split; [done|]. by apply IH. }
    split.
    + intros [[Hd Hin]|[-> [(c0 & Hin & ->)|[Hnot ->]]]].
      * apply IH in Hin. rewrite decide_False by done. lia.
      * apply IH in Hin. rewrite decide_True by done. lia.
      * rewrite decide_True by done. rewrite Hkey in Hnot. lia.
    + intros [-> Hpos]. destruct (decide (x = d)) as [->|Hne].
      * right. split; [done|]. destruct (decide (0 < occ d ds)) as [Hp|Hp].
        -- left. exists (occ d ds). split; [by apply IH|done].
        -- right. split; [by rewrite Hkey|lia].
      * left. split; [done|]. apply IH. lia.
Qed.

(** The nodes that a finished traversal tagged with depth [d]. *)
Lemma final_layer G start Pf s d :
  spread_inv G start Pf s → s_queue s = [] →
  ∃ X : gset nat, size X = occ d (map snd Pf) ∧ ∀ v, v ∈ X ↔ dist G start v d.
Proof.
  intros Hinv Hq.
  pose proof (si_nodup _ _ _ _ Hinv) as Hnd. rewrite Hq, app_nil_r in Hnd.
  exists (list_to_set (map fst (filter (λ p, p.2 = d) Pf))). split.
  - rewrite size_list_to_set.
    + rewrite length_map. unfold occ. clear.
      induction Pf as [|[v e] Pf IH]; [done|].
      cbn [map snd]. rewrite !filter_cons. cbn [snd].
      destruct (decide (e = d)); simpl; by rewrite IH.
    + apply (sublist_NoDup _ (map fst Pf)); [exact Hnd|].
      apply fmap_sublist, sublist_filter.
  - intros v. rewrite elem_of_list_to_set, list_elem_of_fmap. split.
    + intros ([v' e] & -> & Hin). apply list_elem_of_filter in Hin as [He Hin].
      simpl in He. subst e. by eapply final_dist.
    + intros Hd. pose proof Hd as [Hw _].
      destruct (final_covers G start Pf s Hinv Hq d v Hw) as (e & He & _).
      pose proof (final_dist G start Pf s Hinv Hq v e He) as Hde.
      rewrite (dist_unique _ _ _ _ _ Hd Hde). exists (v, e). split; [done|].
      apply list_elem_of_filter. done.
Qed.

(** ** C7: depth keys are contiguous and counts are positive *)

(** C7.  On every well-formed graph that has node 0, connected or not (the
    graphs of the builder are such graphs, see [watts_strogatz_graph_ok]),
    [bfs_spread] returns a histogram that begins with the entry for depth 0,
    which counts node 0 alone, whose keys are [0, 1, ..., D] in this order,
    and whose counts are all at least 1. *)
Theorem spread_depths_contiguous (G : Graph) (fuel : nat) :
  adj_closed G → 0 ∈ dom G → size (dom G) ≤ fuel →
  ∃ levels,
    bfs_spread fuel G = Levels levels ∧
    levels !! 0 = Some (0, 1) ∧
    keys levels = seq 0 (length levels) ∧
    Forall (λ c, 1 ≤ c) (values levels).
Proof.
  intros Hc Hs Hfuel.
  destruct (traversals_run G 0 fuel (S (size (dom G))) Hc Hs Hfuel)
    as (sts & Pf & final & Hrun & Hlast & Hinv & Hq & Hlen & Hb & Hsp & Hgen);
    [lia|].
  exists (hist (map snd Pf)).
  assert (ramp (map snd Pf)) as Hr.
  { pose proof (si_ramp _ _ _ _ Hinv) as Hr. by rewrite Hq, app_nil_r in Hr. }
  assert (keys (hist (map snd Pf)) = seq 0 (length (hist (map snd Pf))))
    as Hkeys.
  { pose proof (hist_keys _ Hr) as Hk.
    rewrite Hk. f_equal. unfold keys in Hk.
    apply (f_equal length) in Hk. by rewrite length_map, length_seq in Hk. }
  split_and!; [done| |done|apply hist_positive].
  destruct (final_layer G 0 Pf final 0 Hinv Hq) as (X & HX & HXd).
  assert (X = {[0]}) as ->.
  { apply set_eq. intros v. rewrite HXd, elem_of_singleton. split.
    - intros [Hw _]. by inversion Hw.
    - intros ->. split; [constructor|lia]. }
  rewrite size_singleton in HX.
  assert ((0, 1) ∈ hist (map snd Pf)) as Hin.
  { apply hist_elem. split; [done|lia]. }
  apply list_elem_of_lookup_1 in Hin as [i Hi].
  assert (keys (hist (map snd Pf)) !! i = Some 0) as Hki.
  { unfold keys. by rewrite list_lookup_fmap, Hi. }
  rewrite Hkeys in Hki. apply lookup_seq in Hki as [Hi0 _].
  by replace i with 0 in Hi by lia.
Qed.

(** ** C9: traversing a graph without the start node raises *)

(** C9.  When node 0 is not in the graph, as in the graph with no node at
    all, [bfs_spread] raises and the first [next] on the generator raises;
    neither returns an empty result. *)
Theorem traversal_of_missing_start_raises (G : Graph) (fuel n : nat) :
  G !! 0 = None →
  bfs_spread fuel G = SpreadError ∧
  pulls (S n) G (bfs_generator 0) = ([], Raised).
Proof.
  intros H0. split.
  - unfold bfs_spread. destruct fuel; simpl; unfold spread_iter, neighbors;
      simpl; by rewrite H0.
  - simpl. unfold gen_next, neighbors. simpl. by rewrite H0.
Qed.

(** ** The generator, step by step *)

Lemma fresh_union v ns : list_to_set (fresh v ns) ∪ v = list_to_set ns ∪ v.
Proof.
  apply set_eq. intros x.
  rewrite !elem_of_union, !elem_of_list_to_set, fresh_elem.
  destruct (decide (x ∈ v)); tauto.
Qed.

Lemma gen_next_inv G st X st' :
  gen_next G st = Yield X st' →
  ∃ n q ns, queue st = n :: q ∧ G !! n = Some ns ∧
    X = list_to_set ns ∪ visited st ∧ visited st' = X ∧
    queue st' = q ++ fresh (visited st) ns.
Proof.
  intros Hnext. destruct (queue st) as [|n q] eqn:Hq.
  - unfold gen_next in Hnext. by rewrite Hq in Hnext.
  - destruct (G !! n) as [ns|] eqn:Hn.
    + rewrite (gen_next_yield G st n q ns Hq Hn) in Hnext.
      injection Hnext as <- <-. exists n, q, ns.
      split_and!; try done; by rewrite fresh_union.
    + unfold gen_next, neighbors in Hnext. by rewrite Hq, Hn in Hnext.
Qed.

Lemma pulls_grow G n st :
  (∀ X, X ∈ (pulls n G st).1 → visited st ⊆ X) ∧
  (∀ i X Y, (pulls n G st).1 !! i = Some X →
            (pulls n G st).1 !! (S i) = Some Y → X ⊆ Y).
Proof.
  revert st. induction n as [|n IH]; intros st; simpl.
  { split; [intros X HX; by apply elem_of_nil in HX|done]. }
  destruct (gen_next G st) as [X0 st'| |] eqn:Hnext; simpl;
    try (split; [intros X HX; by apply elem_of_nil in HX|done]).
  destruct (IH st') as [IH1 IH2].
  apply gen_next_inv in Hnext as (m & q & ns & _ & _ & HX0 & Hv' & _).
  destruct (pulls n G st') as [ss e] eqn:Hp. simpl in *.
  split.
  - intros X [->|HX]%elem_of_cons; [set_solver|].
    specialize (IH1 X HX). set_solver.
  - intros [|i] X Y Hi Hi'; simpl in *.
    + injection Hi as <-. rewrite <- Hv'. apply IH1.
      by eapply list_elem_of_lookup_2.
    + by eapply IH2.
Qed.

Lemma pulls_within G n st :
  adj_closed G → visited st ⊆ dom G →
  ∀ X, X ∈ (pulls n G st).1 → X ⊆ dom G.
Proof.
  intros Hc. revert st. induction n as [|n IH]; intros st Hv X; simpl.
  { intros HX. by apply elem_of_nil in HX. }
  destruct (gen_next G st) as [X0 st'| |] eqn:Hnext; simpl;
    try (intros HX; by apply elem_of_nil in HX).
  apply gen_next_inv in Hnext as (m & q & ns & _ & Hm & HX0 & Hv' & _).
  assert (X0 ⊆ dom G) as HX0dom.
  { rewrite HX0. intros x [Hx|Hx]%elem_of_union; [|by apply Hv].
    apply elem_of_list_to_set in Hx. apply (adj_closed_edge G m x Hc).
    by exists ns. }
  specialize (IH st'). rewrite Hv' in IH. specialize (IH HX0dom X).
  destruct (pulls n G st') as [ss e]. simpl in *.
  intros [->|HX]%elem_of_cons; auto.
Qed.

Lemma pulls_extend G m n st i X :
  m ≤ n → (pulls m G st).1 !! i = Some X → (pulls n G st).1 !! i = Some X.
Proof.
  revert n st i. induction m as [|m IH]; intros n st i Hmn; simpl; [done|].
  destruct n as [|n]; [lia|]. simpl.
  destruct (gen_next G st) as [X0 st'| |]; simpl; try done.
  specialize (IH n st').
  destruct (pulls m G st') as [ss e], (pulls n G st') as [ss' e']. simpl in *.
  destruct i as [|i]; simpl; [done|]. apply IH. lia.
Qed.

(** ** The generator over the store *)

Lemma heap_visit_fold a ns σ v q :
  σ !! a = Some v →
  foldl (Heap.visit a) (σ, q) ns
  = (<[a := (expand ns (v, q)).1]> σ, (expand ns (v, q)).2).
Proof.
  unfold expand. revert σ v q. induction ns as [|nb ns IH]; intros σ v q Hσ.
  - simpl. by rewrite list_insert_id.
  - cbn [foldl]. unfold Heap.visit at 2, visit at 2 4, Heap.set_contains.
    cbn [fst snd]. rewrite Hσ.
    destruct (decide (nb ∈ v)) as [Hin|Hin].
    + rewrite bool_decide_eq_true_2 by done. by apply IH.
    + rewrite bool_decide_eq_false_2 by done.
      unfold Heap.set_add. rewrite Hσ.
      rewrite (IH _ ({[nb]} ∪ v)).
      * by rewrite list_insert_insert_eq.
      * apply list_lookup_insert_eq. by eapply lookup_lt_Some.
Qed.

Lemma heap_gen_next G a st σ :
  σ !! a = Some (visited st) →
  Heap.gen_next G (Heap.mkGen a (queue st)) σ
  = match gen_next G st with
    | Yield X st' =>
        Heap.Yield (length σ) (Heap.mkGen a (queue st')) (<[a := X]> σ ++ [X])
    | StopIteration => Heap.StopIteration
    | NetworkXError => Heap.NetworkXError
    end.
Proof.
  intros Hσ. unfold Heap.gen_next, gen_next. cbn [Heap.g_queue Heap.g_visited].
  destruct (queue st) as [|n q]; [done|].
  destruct (neighbors G n) as [ns|]; [|done].
  rewrite (heap_visit_fold a ns σ (visited st) q Hσ).
  destruct (expand ns (visited st, q)) as [v' q']. cbn [fst snd queue].
  unfold Heap.set_copy, Heap.alloc.
  rewrite list_lookup_insert_eq by (by eapply lookup_lt_Some).
  by rewrite length_insert.
Qed.

Lemma heap_pulls G a n st σ :
  σ !! a = Some (visited st) →
  Heap.pulls n G (Heap.mkGen a (queue st)) σ
  = (seq (length σ) (length (pulls n G st).1),
     <[a := default (visited st) (last (pulls n G st).1)]> σ ++ (pulls n G st).1,
     (pulls n G st).2).
Proof.
  revert st σ. induction n as [|n IH]; intros st σ Hσ.
  - simpl. by rewrite list_insert_id, app_nil_r.
  - cbn [Heap.pulls pulls]. rewrite (heap_gen_next G a st σ Hσ).
    destruct (gen_next G st) as [X st'| |] eqn:Hnext; simpl;
      try (by rewrite list_insert_id, app_nil_r).
    apply gen_next_inv in Hnext as (_ & _ & _ & _ & _ & _ & Hv' & _).
    pose proof (lookup_lt_Some _ _ _ Hσ) as Ha.
    rewrite (IH st').
    2: { rewrite lookup_app_l by (rewrite length_insert; lia).
         rewrite Hv'. by apply list_lookup_insert_eq. }
    destruct (pulls n G st') as [ss e]. cbn [fst snd length].
    rewrite length_app, length_insert. cbn [length].
    rewrite Nat.add_1_r. cbn [seq]. f_equal. f_equal.
    rewrite insert_app_l by (rewrite length_insert; lia).
    rewrite list_insert_insert_eq, <- app_assoc. cbn [app].
    rewrite Hv', last_cons. by destruct (last ss).
Qed.

(** ** C10: snapshots grow, stay inside the graph, and are never touched
    again *)

(** C10.  On a well-formed graph that has the start node, the snapshots of
    [bfs_generator] form a chain under inclusion, each contains the start
    node and only nodes of the graph; and in the store each snapshot is a
    newly allocated set, different from the [visited] set and from every
    earlier snapshot, whose contents after [n] pulls are still what they
    were when it was yielded (after [m ≤ n] pulls). *)
Theorem snapshots_monotone_and_fresh (G : Graph) (start m n : nat)
    (σ : Heap.Store) :
  adj_closed G → start ∈ dom G → m ≤ n →
  let snaps := (pulls n G (bfs_generator start)).1 in
  let g0 := (Heap.bfs_generator start σ).1 in
  let σ0 := (Heap.bfs_generator start σ).2 in
  let run k := Heap.pulls k G g0 σ0 in
  (∀ i X Y, snaps !! i = Some X → snaps !! S i = Some Y → X ⊆ Y) ∧
  (∀ i X, snaps !! i = Some X → start ∈ X ∧ X ⊆ dom G) ∧
  (∀ i c, (run m).1.1 !! i = Some c →
     length σ < c ∧ c ≠ Heap.g_visited g0 ∧
     (∀ j, j < i → (run m).1.1 !! j ≠ Some c) ∧
     (run m).1.2 !! c = snaps !! i ∧
     (run n).1.2 !! c = (run m).1.2 !! c).
Proof.
  intros Hc Hs Hmn snaps g0 σ0 run.
  destruct (pulls_grow G n (bfs_generator start)) as [Hsup Hchain].
  split_and!.
  - exact Hchain.
  - intros i X Hi. apply list_elem_of_lookup_2 in Hi. split.
    + apply (Hsup X Hi). simpl. set_solver.
    + apply (pulls_within G n (bfs_generator start) Hc); [|done].
      simpl. set_solver.
  - assert (σ0 !! length σ = Some (visited (bfs_generator start))) as Hσ0.
    { unfold σ0. simpl. by rewrite lookup_app_r, Nat.sub_diag by lia. }
    assert (length σ0 = S (length σ)) as Hlen.
    { unfold σ0. simpl. rewrite length_app. simpl. lia. }
    assert (∀ k, run k = Heap.pulls k G
               (Heap.mkGen (length σ) (queue (bfs_generator start))) σ0) as Hrun.
    { done. }
    intros i c Hi. rewrite !Hrun in *.
    rewrite !(heap_pulls G (length σ) _ (bfs_generator start) σ0 Hσ0) in *.
    cbn [fst snd] in *.
    apply lookup_seq in Hi as [-> Hi].
    apply lookup_lt_is_Some in Hi as [X HX].
    pose proof (pulls_extend G m n _ i X Hmn HX) as HX'.
    split_and!.
    + lia.
    + simpl. lia.
    + intros j Hj Hc'. apply lookup_seq in Hc' as [Hc' _]. lia.
    + rewrite lookup_app_r by (rewrite length_insert; lia).
      rewrite length_insert. replace (length σ0 + i - length σ0) with i by lia.
      fold snaps in HX'. congruence.
    + rewrite !lookup_app_r by (rewrite length_insert; lia).
      rewrite !length_insert.
      replace (length σ0 + i - length σ0) with i by lia. congruence.
Qed.

(** ** The order in which nodes are expanded *)

Lemma completes_prefix_done G P s sts Pf :
  completes G P s sts Pf → P `prefix_of` Pf.
Proof.
  induction 1 as [|P s hd q s' sts Pf Hq Hit Hrun IH]; [done|].
  etrans; [|exact IH]. by apply prefix_app_r.
Qed.

Lemma completes_expansion G P s sts Pf i st :
  completes G P s sts Pf → sts !! i = Some st →
  ∃ prev n d ns, (s :: sts) !! i = Some prev ∧
    Pf !! (length P + i) = Some (n, d) ∧ G !! n = Some ns ∧
    s_visited st = list_to_set ns ∪ s_visited prev.
Proof.
  intros Hrun. revert i.
  induction Hrun as [|P s hd q s' sts Pf Hq Hit Hrun IH]; intros i Hi; [done|].
  destruct i as [|i]; simpl in Hi.
  - injection Hi as <-.
    apply spread_iter_inv in Hit as (n & d & q' & ns & Hq' & Hn & ->).
    rewrite Hq in Hq'. injection Hq' as -> <-.
    exists s, n, d, ns. split_and!; [done| |done|].
    + apply completes_prefix_done in Hrun.
      eapply prefix_lookup_Some; [|exact Hrun].
      by rewrite Nat.add_0_r, lookup_app_r, Nat.sub_diag by lia.
    + cbn [s_visited]. apply fresh_union.
  - destruct (IH i Hi) as (prev & n & d & ns & Hprev & HPf & Hn & Hv).
    exists prev, n, d, ns. split_and!; [done| |done..].
    rewrite length_app in HPf. simpl in HPf.
    by replace (length P + S i) with (length P + 1 + i) by lia.
Qed.

(** ** C2: one snapshot per expanded node *)

(** C2, as stated, fails on the ring of 8 nodes with degree 2 (the
    "Regular" network for these values): the first snapshot already holds
    the start node and both its neighbours, and the last three snapshots are
    the same set. *)
Lemma one_snapshot_per_discovery_fails :
  ¬ starts_with_start_alone 0 (pulls 9 (ring_lattice 8 2) (bfs_generator 0)).1 ∧
  ¬ one_discovery_between (pulls 9 (ring_lattice 8 2) (bfs_generator 0)).1.
Proof.
  split.
  - intros Hone. specialize (Hone {[0; 1; 7]}).
    assert (({[0; 1; 7]} : gset nat) = {[0]}) as Heq.
    { apply Hone. vm_compute. reflexivity. }
    apply (f_equal size) in Heq. vm_compute in Heq. discriminate.
  - intros Hone. specialize (Hone 6 (list_to_set (seq 0 8)) (list_to_set (seq 0 8))).
    assert (size ((list_to_set (seq 0 8) : gset nat) ∖ list_to_set (seq 0 8)) = 1)
      as Hsize.
    { apply Hone; vm_compute; reflexivity. }
    vm_compute in Hsize. discriminate.
Qed.

(** C2, amended.  On a well-formed graph that has the start node the stream
    is finite and yields one snapshot per expanded (dequeued) node: there is
    a duplicate-free list [order] of the discovered nodes, starting with the
    start node, in non-decreasing distance from it, as long as the stream
    and no longer than the graph has nodes, such that the [i]-th snapshot is
    the previous one (initially the start node alone) together with all the
    neighbours of the [i]-th node of [order]; the last snapshot is the set
    of all discovered nodes. *)
Theorem one_snapshot_per_expanded_node (G : Graph) (start n : nat) :
  adj_closed G → start ∈ dom G → size (dom G) < n →
  ∃ snaps order,
    pulls n G (bfs_generator start) = (snaps, Exhausted) ∧
    length snaps = length order ∧ length order ≤ size (dom G) ∧
    NoDup order ∧ order !! 0 = Some start ∧
    last snaps = Some (list_to_set order) ∧
    (∀ i j u v du dv, i ≤ j → order !! i = Some u → order !! j = Some v →
       dist G start u du → dist G start v dv → du ≤ dv) ∧
    (∀ i X, snaps !! i = Some X →
       ∃ prev u ns, ({[start]} :: snaps) !! i = Some prev ∧
         order !! i = Some u ∧ G !! u = Some ns ∧
         X = list_to_set ns ∪ prev).
Proof.
  intros Hc Hs Hn.
  destruct (traversals_run G start (size (dom G)) n Hc Hs)
    as (sts & Pf & final & Hrun & Hlast & Hinv & Hq & Hlen & Hb & Hsp & Hgen);
    [lia..|].
  pose proof (si_nodup _ _ _ _ Hinv) as Hnd.
  pose proof (si_first _ _ _ _ Hinv) as Hfirst.
  pose proof (si_ramp _ _ _ _ Hinv) as Hramp.
  pose proof (si_visited _ _ _ _ Hinv) as Hvis.
  rewrite Hq, app_nil_r in Hnd, Hfirst, Hramp, Hvis.
  exists (map s_visited sts), (map fst Pf).
  split_and!; try done.
  - by rewrite !length_map.
  - by rewrite length_map.
  - by rewrite list_lookup_fmap, Hfirst.
  - by rewrite fmap_last, Hlast, <- Hvis.
  - intros i j u v du dv Hij Hu Hv Hdu Hdv.
    rewrite list_lookup_fmap in Hu, Hv.
    destruct (Pf !! i) as [[u' eu]|] eqn:Hi; [|done].
    destruct (Pf !! j) as [[v' ev]|] eqn:Hj; [|done].
    simpl in Hu, Hv. injection Hu as ->. injection Hv as ->.
    apply list_elem_of_lookup_2 in Hi as Hiu, Hj as Hjv.
    rewrite (dist_unique _ _ _ _ _ Hdu (final_dist G start Pf final Hinv Hq u eu Hiu)).
    rewrite (dist_unique _ _ _ _ _ Hdv (final_dist G start Pf final Hinv Hq v ev Hjv)).
    eapply (ramp_sorted (map snd Pf) i j); [done|done|..];
      by rewrite list_lookup_fmap, ?Hi, ?Hj.
  - intros i X Hi. rewrite list_lookup_fmap in Hi.
    destruct (sts !! i) as [st|] eqn:Hst; [|done]. injection Hi as <-.
    destruct (completes_expansion G _ _ _ _ i st Hrun Hst)
      as (prev & u & d & ns & Hprev & HPf & Hu & Hv).
    exists (s_visited prev), u, ns. split_and!; [| |done..].
    + change ({[start]} :: map s_visited sts)
        with (map s_visited (spread_from start :: sts)).
      by rewrite list_lookup_fmap, Hprev.
    + simpl in HPf. by rewrite list_lookup_fmap, HPf.
Qed.

(** ** C3: breadth-first order and the connected component *)

(** In an undirected graph reachability is symmetric, so the set of nodes
    reachable from [start] is its connected component. *)
Lemma walk_app G s u v d e :
  walk G s d u → walk G u e v → walk G s (d + e) v.
Proof.
  intros Hsu Huv. induction Huv as [|e x y Hux IH Hxy].
  - by rewrite Nat.add_0_r.
  - rewrite Nat.add_succ_r. by eapply walk_step.
Qed.

Lemma reach_sym G s v : adj_sym G → reach G s v → reach G v s.
Proof.
  intros Hsym [d Hw]. exists d.
  induction Hw as [|d u v Hw IH He]; [constructor|].
  assert (edge G v u) as Hvu.
  { destruct He as (ns & Hns & Hv). specialize (Hsym u ns Hns). simpl in Hsym.
    rewrite Forall_forall in Hsym. apply has_edge_true. by apply Hsym. }
  change (S d) with (1 + d). eapply walk_app; [|exact IH].
  eapply walk_step; [constructor|done].
Qed.

(** C3.  On a well-formed graph that has the start node: a node that is in
    a snapshot is never farther from the start than a reachable node that
    is not yet in it; the last snapshot is exactly the set of nodes
    reachable from the start (its connected component); every node of every
    snapshot is reachable; and an isolated start node gives the single
    snapshot [{start}]. *)
Theorem stream_is_breadth_first (G : Graph) (start n : nat) :
  adj_closed G → start ∈ dom G → size (dom G) < n →
  ∃ snaps final,
    pulls n G (bfs_generator start) = (snaps, Exhausted) ∧
    last snaps = Some final ∧
    (∀ i X a b da db, snaps !! i = Some X → a ∈ X → b ∉ X →
       dist G start a da → dist G start b db → da ≤ db) ∧
    (∀ v, v ∈ final ↔ reach G start v) ∧
    size final = length snaps ∧
    (∀ X v, X ∈ snaps → v ∈ X → reach G start v) ∧
    (G !! start = Some [] → snaps = [{[start]}]).
Proof.
  intros Hc Hs Hn.
  destruct (traversals_run G start (size (dom G)) n Hc Hs)
    as (sts & Pf & final & Hrun & Hlast & Hinv & Hq & Hlen & Hb & Hsp & Hgen);
    [lia..|].
  pose proof (si_ramp _ _ _ _ Hinv) as Hramp.
  rewrite Hq, app_nil_r in Hramp.
  pose proof (spread_inv_init G start) as Hinit.
  assert (∀ i st, sts !! i = Some st →
            ∃ Li, Li `prefix_of` Pf ∧ s_visited st = list_to_set (map fst Li))
    as Hpre.
  { intros i st Hst.
    destruct (completes_nth G start _ _ _ _ i st Hrun Hinit Hst)
      as (Pi & _ & HPi & Hrest).
    exists (Pi ++ s_queue st). split; [|by apply (si_visited G start)].
    by eapply completes_prefix. }
  exists (map s_visited sts), (s_visited final).
  split_and!; try done.
  - by rewrite fmap_last, Hlast.
  - intros i X a b da db Hi Ha Hb' Hda Hdb.
    rewrite list_lookup_fmap in Hi.
    destruct (sts !! i) as [st|] eqn:Hst; [|done]. injection Hi as <-.
    destruct (Hpre i st Hst) as (Li & [rest HLi] & Hv). rewrite Hv in Ha, Hb'.
    rewrite elem_of_list_to_set in Ha, Hb'.
    apply list_elem_of_fmap in Ha as ([a' ea] & -> & Ha).
    apply list_elem_of_lookup_1 in Ha as [ia Hia].
    destruct Hdb as [Hwb Hminb].
    destruct (final_covers G start Pf final Hinv Hq db b Hwb) as (eb & Heb & Hle).
    apply list_elem_of_lookup_1 in Heb as Hib. destruct Hib as [ib Hib].
    assert (length Li ≤ ib) as Hge.
    { destruct (decide (length Li ≤ ib)) as [|Hlt]; [done|]. exfalso.
      apply Hb'. apply list_elem_of_fmap. exists (b, eb). split; [done|].
      rewrite HLi, lookup_app_l in Hib by lia.
      by eapply list_elem_of_lookup_2. }
    pose proof (lookup_lt_Some _ _ _ Hia) as Hlt.
    assert (Pf !! ia = Some (a', ea)) as Hia'.
    { rewrite HLi, lookup_app_l by lia. done. }
    assert (ea ≤ eb) as Hab.
    { eapply (ramp_sorted (map snd Pf) ia ib); [done|lia|..];
        by rewrite list_lookup_fmap, ?Hia', ?Hib. }
    apply list_elem_of_lookup_2 in Hia'.
    simpl in Hda.
    rewrite (dist_unique _ _ _ _ _ Hda
               (final_dist G start Pf final Hinv Hq a' ea Hia')).
    lia.
  - intros v. by eapply final_reach.
  - rewrite length_map, Hlen. by eapply final_size.
  - intros X v HX Hv. apply list_elem_of_fmap in HX as (st & -> & Hst).
    apply list_elem_of_lookup_1 in Hst as [i Hst].
    destruct (Hpre i st Hst) as (Li & [rest HLi] & HvLi).
    rewrite HvLi, elem_of_list_to_set in Hv.
    apply list_elem_of_fmap in Hv as ([v' e] & -> & Hin).
    exists e. apply (si_walk _ _ _ _ Hinv). rewrite Hq, app_nil_r, HLi.
    apply elem_of_app. by left.
  - intros Hiso.
    rewrite (pulls_completes G _ _ _ _ _ n Hrun (sim_init start)) in Hgen.
    destruct n as [|[|n]]; [lia| |].
    + pose proof (size_non_empty_iff (dom G)) as Hne.
      assert (size (dom G) = 0) as H0 by lia. apply size_empty_inv in H0.
      set_solver.
    + pose proof (pulls_completes G _ _ _ _ _ (S (S n)) Hrun (sim_init start))
        as Hp.
      simpl in Hp. unfold gen_next, neighbors in Hp. simpl in Hp.
      rewrite Hiso in Hp. simpl in Hp. unfold gen_next in Hp. simpl in Hp.
      injection Hp as Hp _. injection Hgen as Hg _. by rewrite <- Hg, <- Hp.
Qed.

(** ** C8: neighbour order and determinism *)

Lemma ascending_sorted ns : Sorted le ns → ascending ns = ns.
Proof.
  intros Hs. unfold ascending.
  apply (Sorted_unique le); [apply Sorted_merge_sort, _|done|].
  apply merge_sort_Permutation.
Qed.

Lemma pulls_ascending_sorted G n st :
  map_Forall (λ _ ns, Sorted le ns) G →
  pulls_ascending n G st = pulls n G st.
Proof.
  intros HG. revert st. induction n as [|n IH]; intros st; simpl; [done|].
  assert (gen_next_ascending G st = gen_next G st) as ->.
  { unfold gen_next_ascending, gen_next, neighbors.
    destruct (queue st) as [|u q]; [done|].
    destruct (G !! u) as [ns|] eqn:Hu; [|done].
    by rewrite (ascending_sorted ns (HG u ns Hu)). }
  destruct (gen_next G st); try done. by rewrite IH.
Qed.

Lemma heap_contents G start n σ :
  let r := Heap.pulls n G (Heap.bfs_generator start σ).1
             (Heap.bfs_generator start σ).2 in
  map (λ c, r.1.2 !! c) r.1.1 = map Some (pulls n G (bfs_generator start)).1 ∧
  r.2 = (pulls n G (bfs_generator start)).2.
Proof.
  cbn zeta.
  assert ((Heap.bfs_generator start σ).2 !! length σ
          = Some (visited (bfs_generator start))) as Hσ0.
  { simpl. by rewrite lookup_app_r, Nat.sub_diag by lia. }
  change ((Heap.bfs_generator start σ).1)
    with (Heap.mkGen (length σ) (queue (bfs_generator start))).
  rewrite (heap_pulls G (length σ) n (bfs_generator start) _ Hσ0).
  cbn [fst snd]. split; [|done].
  set (σ0 := (Heap.bfs_generator start σ).2).
  set (snaps := (pulls n G (bfs_generator start)).1).
  apply list_eq. intros i. rewrite !list_lookup_fmap.
  destruct (decide (i < length snaps)) as [Hlt|Hge].
  - rewrite lookup_seq_lt by done. simpl.
    rewrite lookup_app_r by (rewrite length_insert; lia).
    rewrite length_insert.
    replace (length σ0 + i - length σ0) with i by lia.
    by destruct (snaps !! i) eqn:Hi; [|apply lookup_ge_None in Hi; lia].
  - rewrite lookup_seq_ge by lia. simpl.
    by rewrite (proj2 (lookup_ge_None snaps i)) by lia.
Qed.

(** C8, as stated, fails on the "Regular" network of 20 nodes with degree
    4: the adjacency of node 0 is iterated as 1, 19, 2, 18, and from the
    third snapshot on the stream differs from the one a traversal in
    ascending neighbour order produces. *)
Lemma ascending_neighbour_order_fails :
  ∃ G r,
    watts_strogatz_graph 0 20 4 0 0%N = Ok (G, r) ∧
    neighbors G 0 = Some [1; 19; 2; 18] ∧
    (pulls 3 G (bfs_generator 0)).1 !! 2 = Some {[0; 1; 2; 3; 17; 18; 19]} ∧
    (pulls_ascending 3 G (bfs_generator 0)).1 !! 2
      = Some {[0; 1; 2; 3; 4; 18; 19]}.
Proof.
  eexists _, _. split; [vm_compute; reflexivity|].
  split_and!; vm_compute; reflexivity.
Qed.

Lemma fresh_sublist v ns : fresh v ns `sublist_of` ns.
Proof.
  revert v. induction ns as [|a ns IH]; intros v; simpl; [done|].
  destruct (decide (a ∈ v)).
  - apply sublist_cons, IH.
  - apply sublist_skip, IH.
Qed.

Lemma map_fst_tag (e : nat) (l : list nat) : map fst (map (λ m, (m, e)) l) = l.
Proof. induction l as [|a l IH]; [done|]. simpl. by rewrite IH. Qed.

(** A complete run visits the nodes in adjacency order: what each
    iteration appends is the list of unvisited neighbours of the node it
    dequeues, in the order of the adjacency list, tagged with the next
    depth. *)
Lemma completes_order G P s sts Pf :
  completes G P s sts Pf →
  s_visited s = list_to_set (map fst (P ++ s_queue s)) →
  ∃ ds rest,
    Pf = (P ++ s_queue s) ++ rest ∧ map fst rest = concat ds ∧
    length ds = length sts ∧
    (∀ k st, sts !! k = Some st →
       s_visited st
       = list_to_set (map fst (P ++ s_queue s) ++ concat (take (S k) ds))) ∧
    (∀ k u e d, Pf !! (length P + k) = Some (u, e) → ds !! k = Some d →
       ∃ ns, G !! u = Some ns ∧ d `sublist_of` ns ∧ NoDup d ∧
         (∀ m, m ∈ d ↔
            m ∈ ns ∧ m ∉ map fst (P ++ s_queue s) ++ concat (take k ds)) ∧
         ∀ m, m ∈ d → (m, e + 1) ∈ Pf).
Proof.
  induction 1 as [P s Hq|P s hd q s' sts Pf Hq Hiter Hrun IH]; intros Hvis.
  - exists [], []. rewrite Hq, !app_nil_r. split_and!; [done..| |].
    + intros k st Hk. by rewrite lookup_nil in Hk.
    + intros k u e d _ Hk. by rewrite lookup_nil in Hk.
  - destruct (spread_iter_inv G s s' Hiter) as (n & d0 & q0 & ns & Hq' & Hns & Hs').
    rewrite Hq in Hq'. injection Hq' as -> <-.
    set (F := fresh (s_visited s) ns) in *.
    set (base := map fst (P ++ (n, d0) :: q)).
    assert (map fst ((P ++ [(n, d0)]) ++ s_queue s') = base ++ F) as Hbase.
    { rewrite Hs'. cbn [s_queue]. unfold base.
      rewrite <- !app_assoc. cbn [app]. rewrite !map_app. cbn [map fst].
      rewrite !map_app, map_fst_tag. by rewrite <- !app_assoc. }
    destruct IH as (ds & rest & HPf & Hrest & Hlen & Hsnap & Hord).
    { rewrite Hbase, Hs'. cbn [s_visited]. rewrite Hvis, Hq. fold base.
      apply set_eq. intros x.
      rewrite elem_of_union, !elem_of_list_to_set, elem_of_app. tauto. }
    assert (s_queue s' = q ++ map (λ m, (m, d0 + 1)) F) as Hq1.
    { by rewrite Hs'. }
    assert (Pf = (P ++ (n, d0) :: q) ++ map (λ m, (m, d0 + 1)) F ++ rest)
      as HPf'.
    { rewrite HPf, Hq1, <- !app_assoc. done. }
    assert (∀ m, m ∈ F → (m, d0 + 1) ∈ Pf) as HtagF.
    { intros m Hm. rewrite HPf'. apply elem_of_app. right.
      apply elem_of_app. left. apply list_elem_of_fmap. by exists m. }
    assert (Pf !! length P = Some (n, d0)) as Hhead.
    { rewrite HPf', <- !app_assoc. cbn [app]. by rewrite list_lookup_middle. }
    exists (F :: ds), (map (λ m, (m, d0 + 1)) F ++ rest).
    rewrite Hq. fold base. split_and!.
    + done.
    + rewrite map_app, map_fst_tag, Hrest. done.
    + cbn [length]. by rewrite Hlen.
    + intros [|k] st Hk.
      * injection Hk as <-. rewrite Hs'. cbn [s_visited take concat].
        rewrite app_nil_r, Hvis, Hq. fold base.
        apply set_eq. intros x.
        rewrite elem_of_union, !elem_of_list_to_set, elem_of_app. tauto.
      * cbn [lookup] in Hk. rewrite (Hsnap k st Hk), Hbase.
        cbn [take concat]. by rewrite <- app_assoc.
    + intros [|k] u e d.
      * rewrite Nat.add_0_r, Hhead. intros [= <- <-] [= <-].
        exists ns.
        split_and!; [done|apply fresh_sublist|apply fresh_nodup| |done].
        intros m. cbn [take concat]. rewrite app_nil_r.
        unfold F. rewrite fresh_elem, Hvis, Hq. fold base.
        by rewrite elem_of_list_to_set.
      * cbn [lookup]. intros Hu Hd.
        destruct (Hord k u e d) as (ns' & Hns' & Hsub & Hnd & Hmem & Htag);
          [|exact Hd|].
        { rewrite length_app. cbn [length].
          by replace (length P + 1 + k) with (length P + S k) by lia. }
        exists ns'. split_and!; [done..| |done].
        intros m. rewrite Hmem, Hbase. cbn [take concat].
        by rewrite <- app_assoc.
Qed.

(** The run of either traversal from [start], with its visiting order. *)
Lemma run_visit_order G start :
  adj_closed G → start ∈ dom G →
  ∃ sts Pf ds,
    completes G [] (spread_from start) sts Pf ∧
    length sts = length Pf ∧ length Pf ≤ size (dom G) ∧
    NoDup (map fst Pf) ∧ Pf !! 0 = Some (start, 0) ∧
    (∀ v, v ∈ map fst Pf ↔ reach G start v) ∧
    visit_order G start (map fst Pf) ds ∧
    (∀ k st, sts !! k = Some st →
       s_visited st = list_to_set (start :: concat (take (S k) ds))) ∧
    (∀ k u e d m, Pf !! k = Some (u, e) → ds !! k = Some d → m ∈ d →
       (m, e + 1) ∈ Pf).
Proof.
  intros Hc Hs.
  destruct (traversals_run G start (size (dom G)) (S (size (dom G))) Hc Hs)
    as (sts & Pf & final & Hrun & Hlast & Hinv & Hq & Hlen & Hb & _ & _);
    [lia..|].
  destruct (completes_order G [] (spread_from start) sts Pf Hrun)
    as (ds & rest & HPf & Hrest & Hlds & Hsnap & Hord).
  { cbn. apply set_eq. intros x. set_solver. }
  cbn [app spread_from s_queue map fst] in *.
  exists sts, Pf, ds.
  pose proof (si_nodup _ _ _ _ Hinv) as Hnd. rewrite Hq, app_nil_r in Hnd.
  split_and!; [done..| | | | |].
  - by rewrite HPf.
  - intros v. rewrite <- (final_reach G start Pf final Hinv Hq v).
    rewrite (si_visited _ _ _ _ Hinv), Hq, app_nil_r.
    by rewrite elem_of_list_to_set.
  - split_and!.
    + rewrite HPf. cbn [map fst]. by rewrite Hrest.
    + rewrite length_map. lia.
    + intros k u d Hu Hd. rewrite list_lookup_fmap in Hu.
      destruct (Pf !! k) as [[u' e]|] eqn:Hk; [|done]. injection Hu as ->.
      destruct (Hord k u e d Hk Hd) as (ns & ? & ? & ? & ? & _).
      by exists ns.
  - exact Hsnap.
  - intros k u e d m Hk Hd Hm.
    destruct (Hord k u e d Hk Hd) as (ns & _ & _ & _ & _ & Htag).
    by apply Htag.
Qed.

(** C8, amended.  Neighbours are visited in the order of the graph's
    adjacency dict, which is the order in which the edges were inserted:
    the nodes are marked visited in the order [order], which begins with
    the start node, and the [k]-th call of [next] expands the [k]-th node
    of [order] and appends to it that node's not yet visited neighbours in
    the order of its adjacency list; the [k]-th snapshot is the set of the
    nodes visited up to there.  The histogram traversal visits in the same
    way from node 0, gives each node the depth of the node it was visited
    from plus one, and returns the histogram of these depths.  Where every
    adjacency list is ascending the order is the ascending one.  Both
    traversals are deterministic: the histogram does not depend on how far
    beyond the node count the loop is allowed to run, and the contents of
    the yielded snapshots and the way the stream ends do not depend on the
    store in which the generator is created. *)
Theorem traversal_follows_adjacency_order (G : Graph) (start n fuel fuel' : nat)
    (σ σ' : Heap.Store) :
  adj_closed G → 0 ∈ dom G → start ∈ dom G →
  size (dom G) ≤ fuel → size (dom G) ≤ fuel' →
  (∃ order ds snaps,
     visit_order G start order ds ∧ NoDup order ∧
     (∀ v, v ∈ order ↔ reach G start v) ∧
     (∀ m, size (dom G) < m →
           pulls m G (bfs_generator start) = (snaps, Exhausted)) ∧
     length snaps = length order ∧
     ∀ k X, snaps !! k = Some X →
       X = list_to_set (start :: concat (take (S k) ds))) ∧
  (∃ Pf ds,
     visit_order G 0 (map fst Pf) ds ∧ NoDup (map fst Pf) ∧
     (∀ v, v ∈ map fst Pf ↔ reach G 0 v) ∧
     Pf !! 0 = Some (0, 0) ∧
     (∀ k u e d m, Pf !! k = Some (u, e) → ds !! k = Some d → m ∈ d →
        (m, e + 1) ∈ Pf) ∧
     bfs_spread fuel G = Levels (hist (map snd Pf))) ∧
  bfs_spread fuel G = bfs_spread fuel' G ∧
  (let run s := Heap.pulls n G (Heap.bfs_generator start s).1
                  (Heap.bfs_generator start s).2 in
   map (λ c, (run σ).1.2 !! c) (run σ).1.1
   = map (λ c, (run σ').1.2 !! c) (run σ').1.1 ∧
   (run σ).2 = (run σ').2) ∧
  (map_Forall (λ _ ns, Sorted le ns) G →
   pulls n G (bfs_generator start) = pulls_ascending n G (bfs_generator start)).
Proof.
  intros Hc Hs Hst Hfuel Hfuel'. split_and!.
  - destruct (run_visit_order G start Hc Hst)
      as (sts & Pf & ds & Hrun & Hlen & Hb & Hnd & _ & Hre & Hord & Hsnap & _).
    exists (map fst Pf), ds, (map s_visited sts). split_and!; [done..| | |].
    + intros m Hm.
      rewrite (pulls_completes G _ _ _ _ _ m Hrun (sim_init start)).
      rewrite take_ge by lia. by rewrite decide_False by lia.
    + rewrite !length_map. done.
    + intros k X Hk. rewrite list_lookup_fmap in Hk.
      destruct (sts !! k) as [st|] eqn:Hst'; [|done]. injection Hk as <-.
      by apply Hsnap.
  - destruct (run_visit_order G 0 Hc Hs)
      as (sts & Pf & ds & Hrun & Hlen & Hb & Hnd & H0 & Hre & Hord & _ & Htag).
    exists Pf, ds. split_and!; [done..|].
    unfold bfs_spread.
    rewrite (spread_loop_completes G _ _ _ _ fuel Hrun) by lia.
    destruct (completes_inv G 0 _ _ _ _ Hrun (spread_inv_init G 0))
      as [Hinv _].
    by rewrite (si_levels _ _ _ _ Hinv).
  - destruct (traversal_completes G 0 Hc Hs) as (sts & Pf & Hrun & Hlen & Hb).
    unfold bfs_spread.
    rewrite (spread_loop_completes G _ _ _ _ fuel Hrun) by lia.
    rewrite (spread_loop_completes G _ _ _ _ fuel' Hrun) by lia. done.
  - cbn zeta.
    destruct (heap_contents G start n σ) as [H1 H2].
    destruct (heap_contents G start n σ') as [H1' H2'].
    cbn zeta in *. split; congruence.
  - intros Hsorted. symmetry. by apply pulls_ascending_sorted.
Qed.

(** ** The graph object: lookups after an update *)

Lemma edge_insert G u ns x y :
  edge (<[u := ns]> G) x y ↔ (x = u ∧ y ∈ ns) ∨ (x ≠ u ∧ edge G x y).
Proof.
  unfold edge. destruct (decide (x = u)) as [->|Hne].
  - rewrite lookup_insert_eq. naive_solver.
  - rewrite lookup_insert_ne by done. naive_solver.
Qed.

Lemma add_edge_new G u v ns ms :
  u ≠ v → G !! u = Some ns → G !! v = Some ms → v ∉ ns → u ∉ ms →
  add_edge u v G = <[v := ms ++ [u]]> (<[u := ns ++ [v]]> G).
Proof.
  intros Huv Hu Hv Hns Hms. unfold add_edge, add_node.
  rewrite Hu, Hv. unfold set_adj at 2. rewrite Hu, decide_False by done.
  unfold set_adj. rewrite lookup_insert_ne, Hv by done.
  by rewrite decide_False.
Qed.

Lemma remove_edge_present G u v ns ms :
  u ≠ v → G !! u = Some ns → G !! v = Some ms → v ∈ ns → u ∈ ms →
  remove_edge u v G = Some (<[v := del_adj u ms]> (<[u := del_adj v ns]> G)).
Proof.
  intros Huv Hu Hv Hns Hms. unfold remove_edge.
  rewrite Hu, decide_True by done. cbn zeta. rewrite decide_False by done.
  rewrite lookup_insert_ne, Hv by done. by rewrite decide_True.
Qed.

Lemma del_adj_elem v ns y : y ∈ del_adj v ns ↔ y ∈ ns ∧ y ≠ v.
Proof. unfold del_adj. rewrite list_elem_of_filter. tauto. Qed.

Lemma del_adj_length_gen v ns :
  NoDup ns →
  length (del_adj v ns) + (if decide (v ∈ ns) then 1 else 0) = length ns.
Proof.
  unfold del_adj. induction 1 as [|a ns Ha Hnd IH].
  - destruct (decide (v ∈ [])) as [Hin|]; [by apply elem_of_nil in Hin|done].
  - destruct (decide (a = v)) as [->|Hne].
    + rewrite filter_cons_False by tauto.
      rewrite (decide_False (P := v ∈ ns)) in IH by done.
      rewrite decide_True by (apply elem_of_cons; tauto). simpl. lia.
    + rewrite filter_cons_True by done. simpl.
      destruct (decide (v ∈ ns)) as [Hin|Hin].
      * rewrite decide_True by (apply elem_of_cons; tauto). lia.
      * rewrite decide_False; [lia|]. rewrite elem_of_cons. naive_solver.
Qed.

Lemma del_adj_length v ns :
  NoDup ns → v ∈ ns → S (length (del_adj v ns)) = length ns.
Proof.
  intros Hnd Hin. pose proof (del_adj_length_gen v ns Hnd) as H.
  rewrite decide_True in H by done. lia.
Qed.

(** ** Degree sums under point updates *)

Lemma sum_ext (f g : nat → nat) n :
  (∀ x, x < n → g x = f x) →
  sum_list (map g (seq 0 n)) = sum_list (map f (seq 0 n)).
Proof.
  induction n as [|n IH]; intros Hext; [done|].
  rewrite seq_S, !map_app, !sum_list_with_app. simpl.
  rewrite IH, Hext by auto with lia. done.
Qed.

Lemma sum_point (f g : nat → nat) n u :
  u < n → (∀ x, x < n → x ≠ u → g x = f x) →
  sum_list (map g (seq 0 n)) + f u = sum_list (map f (seq 0 n)) + g u.
Proof.
  induction n as [|n IH]; intros Hu Hext; [lia|].
  rewrite seq_S, !map_app, !sum_list_with_app. simpl.
  destruct (decide (u = n)) as [->|Hne].
  - rewrite (sum_ext f g n) by auto with lia. lia.
  - rewrite (Hext n) by lia. specialize (IH ltac:(lia)).
    rewrite <- Nat.add_assoc, (Nat.add_comm (f n + 0)), Nat.add_assoc, IH.
    + lia.
    + auto with lia.
Qed.

Lemma total_len_insert n G u ns ns' :
  u < n → G !! u = Some ns →
  total_len n (<[u := ns']> G) + length ns = total_len n G + length ns'.
Proof.
  intros Hu HG. unfold total_len.
  assert (adj_len G u = length ns) as <- by (unfold adj_len; by rewrite HG).
  assert (adj_len (<[u := ns']> G) u = length ns') as <-.
  { unfold adj_len. by rewrite lookup_insert_eq. }
  apply sum_point; [done|].
  intros x _ Hx. unfold adj_len. by rewrite lookup_insert_ne.
Qed.

(** ** Adding and removing an edge of a simple graph *)

Lemma simple_lookup n G u :
  simple_on n G → u < n → ∃ ns, G !! u = Some ns ∧ ∀ y, y ∈ ns ↔ edge G u y.
Proof.
  intros HG Hu. apply (so_dom _ _ HG) in Hu as [ns Hns].
  exists ns. split; [done|]. unfold edge. rewrite Hns. naive_solver.
Qed.

Lemma simple_add n G u v :
  simple_on n G → u < n → v < n → u ≠ v → ¬ edge G u v →
  simple_on n (add_edge u v G) ∧
  (∀ x y, edge (add_edge u v G) x y
          ↔ edge G x y ∨ (x = u ∧ y = v) ∨ (x = v ∧ y = u)) ∧
  total_len n (add_edge u v G) = total_len n G + 2.
Proof.
  intros HG Hu Hv Huv Hnew.
  destruct (simple_lookup n G u HG Hu) as (ns & Hns & Hens).
  destruct (simple_lookup n G v HG Hv) as (ms & Hms & Hems).
  assert (v ∉ ns) as Hvns by (by rewrite Hens).
  assert (u ∉ ms) as Hums.
  { rewrite Hems. intros He. by apply (so_sym _ _ HG) in He. }
  rewrite (add_edge_new G u v ns ms Huv Hns Hms Hvns Hums).
  assert (∀ x y, edge (<[v := ms ++ [u]]> (<[u := ns ++ [v]]> G)) x y
                 ↔ edge G x y ∨ (x = u ∧ y = v) ∨ (x = v ∧ y = u)) as Hchar.
  { intros x y. rewrite !edge_insert, !elem_of_app, !list_elem_of_singleton.
    destruct (decide (x = v)) as [->|Hxv]; [rewrite <- Hems; naive_solver|].
    destruct (decide (x = u)) as [->|Hxu]; [rewrite <- Hens; naive_solver|].
    naive_solver. }
  split_and!; [split| |].
  - intros x. rewrite !lookup_insert_is_Some, (so_dom _ _ HG).
    destruct (decide (v = x)), (decide (u = x)); naive_solver lia.
  - intros x y. rewrite Hchar. intros [He|[[-> ->]|[-> ->]]]; [|done..].
    by eapply (so_range _ _ HG).
  - intros x l. destruct (decide (x = v)) as [->|Hxv].
    { rewrite lookup_insert_eq. intros [= <-]. apply NoDup_app. split_and!.
      - by eapply (so_nodup _ _ HG).
      - intros y Hy ->%list_elem_of_singleton. done.
      - apply NoDup_singleton. }
    rewrite lookup_insert_ne by done.
    destruct (decide (x = u)) as [->|Hxu].
    { rewrite lookup_insert_eq. intros [= <-]. apply NoDup_app. split_and!.
      - by eapply (so_nodup _ _ HG).
      - intros y Hy ->%list_elem_of_singleton. done.
      - apply NoDup_singleton. }
    rewrite lookup_insert_ne by done. by apply (so_nodup _ _ HG).
  - intros x y. rewrite !Hchar. intros [He|[[-> ->]|[-> ->]]]; [|tauto..].
    left. by apply (so_sym _ _ HG).
  - intros x. rewrite Hchar. intros [He|[[-> ->]|[-> ->]]]; [|done..].
    by apply (so_loop _ _ HG) in He.
  - exact Hchar.
  - pose proof (total_len_insert n G u ns (ns ++ [v]) Hu Hns) as H1.
    pose proof (total_len_insert n (<[u := ns ++ [v]]> G) v ms (ms ++ [u]) Hv)
      as H2.
    rewrite lookup_insert_ne in H2 by done. specialize (H2 Hms).
    rewrite length_app in H1, H2. simpl in H1, H2. lia.
Qed.

Lemma simple_remove n G u v :
  simple_on n G → edge G u v →
  ∃ G', remove_edge u v G = Some G' ∧ simple_on n G' ∧
    (∀ x y, edge G' x y
            ↔ edge G x y ∧ ¬ (x = u ∧ y = v) ∧ ¬ (x = v ∧ y = u)) ∧
    total_len n G' + 2 = total_len n G.
Proof.
  intros HG He.
  assert (u ≠ v) as Huv by (intros ->; by apply (so_loop _ _ HG) in He).
  assert (v < n) as Hv by (by eapply (so_range _ _ HG)).
  assert (u < n) as Hu.
  { apply (so_dom _ _ HG). destruct He as (ns & -> & _). done. }
  destruct (simple_lookup n G u HG Hu) as (ns & Hns & Hens).
  destruct (simple_lookup n G v HG Hv) as (ms & Hms & Hems).
  assert (v ∈ ns) as Hvns by (by rewrite Hens).
  assert (u ∈ ms) as Hums by (rewrite Hems; by apply (so_sym _ _ HG)).
  rewrite (remove_edge_present G u v ns ms Huv Hns Hms Hvns Hums).
  eexists. split; [done|].
  assert (∀ x y, edge (<[v := del_adj u ms]> (<[u := del_adj v ns]> G)) x y
            ↔ edge G x y ∧ ¬ (x = u ∧ y = v) ∧ ¬ (x = v ∧ y = u)) as Hchar.
  { intros x y. rewrite !edge_insert, !del_adj_elem.
    destruct (decide (x = v)) as [->|Hxv]; [rewrite <- Hems; naive_solver|].
    destruct (decide (x = u)) as [->|Hxu]; [rewrite <- Hens; naive_solver|].
    naive_solver. }
  split_and!; [split| |].
  - intros x. rewrite !lookup_insert_is_Some, (so_dom _ _ HG).
    destruct (decide (v = x)), (decide (u = x)); naive_solver lia.
  - intros x y. rewrite Hchar. intros [He' _]. by eapply (so_range _ _ HG).
  - intros x l. destruct (decide (x = v)) as [->|Hxv].
    { rewrite lookup_insert_eq. intros [= <-]. apply NoDup_filter.
      by eapply (so_nodup _ _ HG). }
    rewrite lookup_insert_ne by done.
    destruct (decide (x = u)) as [->|Hxu].
    { rewrite lookup_insert_eq. intros [= <-]. apply NoDup_filter.
      by eapply (so_nodup _ _ HG). }
    rewrite lookup_insert_ne by done. by apply (so_nodup _ _ HG).
  - intros x y. rewrite !Hchar. intros (He' & H1 & H2).
    split; [by apply (so_sym _ _ HG)|]. naive_solver.
  - intros x. rewrite Hchar. intros [He' _]. by apply (so_loop _ _ HG) in He'.
  - exact Hchar.
  - pose proof (total_len_insert n G u ns (del_adj v ns) Hu Hns) as H1.
    pose proof (total_len_insert n (<[u := del_adj v ns]> G) v ms
                  (del_adj u ms) Hv) as H2.
    rewrite lookup_insert_ne in H2 by done. specialize (H2 Hms).
    pose proof (del_adj_length v ns (so_nodup _ _ HG u ns Hns) Hvns).
    pose proof (del_adj_length u ms (so_nodup _ _ HG v ms Hms) Hums).
    lia.
Qed.

(** ** Building a simple graph edge by edge *)

Lemma empty_graph_lookup n u :
  empty_graph n !! u = if decide (u < n) then Some [] else None.
Proof.
  unfold empty_graph. revert u. induction n as [|n IH]; intros u.
  - cbn [seq foldl]. rewrite lookup_empty. case_decide; [lia|done].
  - rewrite seq_S, foldl_app. simpl. unfold add_node at 1.
    rewrite IH. rewrite (decide_False (P := n < n)) by lia.
    destruct (decide (u = n)) as [->|Hne].
    + rewrite lookup_insert_eq. by rewrite decide_True by lia.
    + rewrite lookup_insert_ne, IH by done.
      destruct (decide (u < n)), (decide (u < S n)); (done || lia).
Qed.

Lemma empty_graph_no_edge n u v : ¬ edge (empty_graph n) u v.
Proof.
  intros (ns & Hns & Hv). rewrite empty_graph_lookup in Hns.
  case_decide; [|done]. injection Hns as <-. by apply elem_of_nil in Hv.
Qed.

Lemma empty_graph_simple n : simple_on n (empty_graph n).
Proof.
  split.
  - intros u. rewrite empty_graph_lookup. case_decide; [naive_solver|].
    split; [by intros [? ?]|lia].
  - intros u v He. by apply empty_graph_no_edge in He.
  - intros u ns. rewrite empty_graph_lookup. case_decide; [|done].
    intros [= <-]. constructor.
  - intros u v He. by apply empty_graph_no_edge in He.
  - intros u He. by apply empty_graph_no_edge in He.
Qed.

Lemma empty_graph_total n : total_len n (empty_graph n) = 0.
Proof.
  unfold total_len. rewrite (sum_ext (λ _, 0)).
  - induction (seq 0 n); simpl; auto.
  - intros x Hx. unfold adj_len. rewrite empty_graph_lookup.
    by rewrite decide_True.
Qed.

Lemma norm_swap u v : norm (v, u) = norm (u, v).
Proof. unfold norm. simpl. f_equal; lia. Qed.

Lemma add_edges_simple n es G :
  simple_on n G →
  Forall (λ e, e.1 < n ∧ e.2 < n ∧ e.1 ≠ e.2 ∧ ¬ edge G e.1 e.2) es →
  NoDup (map norm es) →
  simple_on n (add_edges_from es G) ∧
  (∀ x y, edge (add_edges_from es G) x y
          ↔ edge G x y ∨ (x, y) ∈ es ∨ (y, x) ∈ es) ∧
  total_len n (add_edges_from es G) = total_len n G + 2 * length es.
Proof.
  revert G. induction es as [|[u v] es IH]; intros G HG Hall Hnd.
  - simpl. split_and!; [done| |lia]. intros x y.
    rewrite !elem_of_nil. tauto.
  - apply Forall_cons in Hall as [(Hu & Hv & Huv & Hnew) Hall].
    apply NoDup_cons in Hnd as [Hfresh Hnd]. simpl in Hu, Hv, Huv, Hnew.
    destruct (simple_add n G u v HG Hu Hv Huv Hnew) as (HG1 & Hchar1 & Htot1).
    unfold add_edges_from. cbn [foldl fst snd].
    fold (add_edges_from es (add_edge u v G)).
    destruct (IH (add_edge u v G) HG1) as (HG' & Hchar & Htot); [|done|].
    { apply Forall_forall. intros [a b] Hab.
      rewrite Forall_forall in Hall. destruct (Hall _ Hab) as (Ha & Hb & Hne & He).
      simpl in *. split_and!; try done. rewrite Hchar1.
      intros [He'|[[-> ->]|[-> ->]]]; [done| |].
      - apply Hfresh. apply list_elem_of_fmap. by exists (u, v).
      - apply Hfresh. apply list_elem_of_fmap. exists (v, u).
        by rewrite norm_swap. }
    split_and!; [done| |].
    + intros x y. rewrite Hchar, Hchar1, !elem_of_cons. naive_solver.
    + rewrite Htot, Htot1. simpl. lia.
Qed.

Lemma add_edges_from_app es1 es2 G :
  add_edges_from (es1 ++ es2) G = add_edges_from es2 (add_edges_from es1 G).
Proof. unfold add_edges_from. by rewrite foldl_app. Qed.

Lemma add_edges_from_bind {A} (F : A → list (nat * nat)) js G :
  foldl (λ G j, add_edges_from (F j) G) G js = add_edges_from (js ≫= F) G.
Proof.
  revert G. induction js as [|j js IH]; intros G; [done|].
  cbn [foldl]. rewrite bind_cons. by rewrite IH, add_edges_from_app.
Qed.

(** ** The pairs of the ring *)

Lemma mod_wrap n u j :
  u < n → j ≤ n →
  (u + j) mod n = if decide (u + j < n) then u + j else u + j - n.
Proof.
  intros Hu Hj. case_decide as Hlt.
  - by apply Nat.mod_small.
  - replace (u + j) with (u + j - n + 1 * n) at 1 by lia.
    rewrite Nat.Div0.mod_add. apply Nat.mod_small. lia.
Qed.

Lemma ring_pass_map n j :
  j ≤ n → ring_pass n j = map (λ u, (u, (u + j) mod n)) (seq 0 n).
Proof.
  intros Hj. unfold ring_pass, ring_targets. apply list_eq. intros i.
  rewrite lookup_zip_with, list_lookup_fmap.
  destruct (decide (i < n)) as [Hi|Hi].
  - rewrite (lookup_seq_lt 0 n i) by done. simpl.
    rewrite mod_wrap by done.
    destruct (decide (i < n - j)) as [Hlt|Hge].
    + rewrite lookup_app_l by (rewrite length_drop, length_seq; lia).
      rewrite lookup_drop, lookup_seq_lt by lia. simpl.
      rewrite decide_True by lia. do 2 f_equal. lia.
    + rewrite lookup_app_r by (rewrite length_drop, length_seq; lia).
      rewrite length_drop, length_seq.
      rewrite lookup_take_lt, lookup_seq_lt by lia. simpl.
      rewrite decide_False by lia. do 2 f_equal. lia.
  - rewrite (lookup_seq_ge 0 n i) by lia. done.
Qed.

Lemma ring_pass_elem n j x y :
  j ≤ n → (x, y) ∈ ring_pass n j ↔ x < n ∧ y = (x + j) mod n.
Proof.
  intros Hj. rewrite ring_pass_map, list_elem_of_fmap by done.
  setoid_rewrite elem_of_seq. split.
  - intros (u & [= -> ->] & Hu). split; [lia|done].
  - intros [Hx ->]. exists x. split; [done|lia].
Qed.

Lemma ring_pairs_elem n k x y :
  k ≤ n →
  (x, y) ∈ ring_pairs n k ↔ x < n ∧ ∃ j, 1 ≤ j ≤ k / 2 ∧ y = (x + j) mod n.
Proof.
  intros Hk. assert (k / 2 ≤ k) as Hh by (apply Nat.Div0.div_le_upper_bound; lia).
  unfold ring_pairs. rewrite list_elem_of_bind. split.
  - intros (j & Hin & Hj). apply elem_of_seq in Hj.
    apply ring_pass_elem in Hin as [Hx ->]; [|lia]. split; [done|].
    exists j. split; [lia|done].
  - intros (Hx & j & Hj & ->). exists j. split.
    + apply ring_pass_elem; [lia|done].
    + apply elem_of_seq. lia.
Qed.

Lemma ring_norm_inj n j j' a u :
  a < n → u < n → 1 ≤ j → 1 ≤ j' → j + j' < n →
  norm (a, (a + j') mod n) = norm (u, (u + j) mod n) → a = u ∧ j' = j.
Proof.
  intros Ha Hu Hj Hj' Hsum. rewrite !mod_wrap by lia.
  unfold norm. cbn [fst snd]. intros [= Hmin Hmax].
  repeat case_decide; lia.
Qed.

Lemma fmap_bind_list {A B C} (f : B → C) (g : A → list B) (l : list A) :
  f <$> (l ≫= g) = l ≫= (λ x, f <$> g x).
Proof.
  induction l as [|x l IH]; [done|].
  by rewrite !bind_cons, fmap_app, IH.
Qed.

Lemma ring_pairs_nodup n k : k < n → NoDup (map norm (ring_pairs n k)).
Proof.
  intros Hk.
  assert (2 * (k / 2) ≤ k) as Hh by (apply Nat.Div0.mul_div_le).
  unfold ring_pairs.
  change (map norm (seq 1 (k / 2) ≫= ring_pass n))
    with (norm <$> (seq 1 (k / 2) ≫= ring_pass n)).
  rewrite fmap_bind_list. apply NoDup_bind.
  - intros j1 j2 y Hj1 Hj2 Hy1 Hy2.
    apply elem_of_seq in Hj1, Hj2.
    apply list_elem_of_fmap in Hy1 as ([a b] & -> & Hab).
    apply list_elem_of_fmap in Hy2 as ([c d] & Heq & Hcd).
    apply ring_pass_elem in Hab as [Ha ->]; [|lia].
    apply ring_pass_elem in Hcd as [Hc ->]; [|lia].
    by apply ring_norm_inj in Heq as [_ ->]; try lia.
  - intros j Hj. apply elem_of_seq in Hj.
    rewrite ring_pass_map by lia.
    rewrite <- list_fmap_compose. apply NoDup_fmap_2_strong; [|apply NoDup_seq].
    intros a u Ha Hu Heq. apply elem_of_seq in Ha, Hu. simpl in Heq.
    by apply ring_norm_inj in Heq as [-> _]; try lia.
  - apply NoDup_seq.
Qed.

Lemma ring_pairs_length n k : k ≤ n → length (ring_pairs n k) = n * (k / 2).
Proof.
  intros Hk. assert (k / 2 ≤ n) as Hh.
  { etrans; [|exact Hk]. apply Nat.Div0.div_le_upper_bound. lia. }
  unfold ring_pairs. revert Hh. generalize (k / 2). intros h.
  induction h as [|h IH]; intros Hh; [simpl; lia|].
  rewrite seq_S, bind_app, length_app, IH by lia. simpl.
  rewrite app_nil_r, ring_pass_map, length_map, length_seq by lia. lia.
Qed.

Lemma ring_lattice_pairs n k :
  ring_lattice n k = add_edges_from (ring_pairs n k) (empty_graph n).
Proof. unfold ring_lattice. cbn zeta. apply add_edges_from_bind. Qed.

Lemma ring_lattice_simple n k :
  k < n →
  simple_on n (ring_lattice n k) ∧
  (∀ x y, edge (ring_lattice n k) x y
          ↔ (x, y) ∈ ring_pairs n k ∨ (y, x) ∈ ring_pairs n k) ∧
  total_len n (ring_lattice n k) = 2 * (n * (k / 2)).
Proof.
  intros Hk. rewrite ring_lattice_pairs.
  assert (2 * (k / 2) ≤ k) as Hh by (apply Nat.Div0.mul_div_le).
  destruct (add_edges_simple n (ring_pairs n k) (empty_graph n))
    as (Hs & Hchar & Htot).
  - apply empty_graph_simple.
  - apply Forall_forall. intros [u v] Hin.
    apply ring_pairs_elem in Hin as (Hu & j & Hj & ->); [|lia]. simpl.
    split_and!; [done| | |apply empty_graph_no_edge].
    + apply Nat.mod_upper_bound. lia.
    + rewrite mod_wrap by lia. case_decide; lia.
  - by apply ring_pairs_nodup.
  - split_and!; [done| |].
    + intros x y. rewrite Hchar. split; [|tauto].
      intros [He|H]; [by apply empty_graph_no_edge in He|done].
    + rewrite Htot, empty_graph_total, ring_pairs_length by lia. lia.
Qed.

(** ** What a simple graph gives the traversals *)

Lemma simple_dom n G u : simple_on n G → u ∈ dom G ↔ u < n.
Proof. intros HG. by rewrite elem_of_dom, (so_dom _ _ HG). Qed.

Lemma simple_graph_ok n G : simple_on n G → graph_ok G ∧ loop_free G.
Proof.
  intros HG. split; [split_and!|].
  - intros u ns Hu. simpl. apply Forall_forall. intros w Hw.
    apply (simple_dom n G w HG). apply (so_range _ _ HG u). by exists ns.
  - intros u ns Hu. simpl. by apply (so_nodup _ _ HG u).
  - intros u ns Hu. simpl. apply Forall_forall. intros w Hw.
    apply has_edge_true. apply (so_sym _ _ HG). by exists ns.
  - intros u ns Hu. simpl. intros Hin. apply (so_loop _ _ HG u). by exists ns.
Qed.

Lemma simple_degree n G u : simple_on n G → degree G u = adj_len G u.
Proof.
  intros HG. unfold degree, adj_len. destruct (G !! u) as [ns|] eqn:Hu; [|done].
  rewrite bool_decide_eq_false_2; [lia|].
  intros Hin. apply (so_loop _ _ HG u). by exists ns.
Qed.

Lemma simple_number_of_edges n G :
  simple_on n G → number_of_edges G = total_len n G / 2.
Proof.
  intros HG. unfold number_of_edges, total_len. f_equal.
  assert (elements (dom G) ≡ₚ seq 0 n) as ->.
  { apply NoDup_Permutation; [apply NoDup_elements|apply NoDup_seq|].
    intros x. rewrite elem_of_elements, (simple_dom n G x HG), elem_of_seq. lia. }
  symmetry. apply sum_ext. intros x _. symmetry. by apply (simple_degree n).
Qed.

(** ** The rewiring phase *)

Section RewiringFacts.
Context {R : Type} `{RandomSource R}.

Lemma choice_range (r : R) n : 0 < n → (choice r (seq 0 n)).1 < n.
Proof.
  intros Hn. unfold choice. pose proof (randbelow_lt r n Hn) as Hlt.
  rewrite length_seq. destruct (randbelow r n) as [i r']. simpl in *.
  by rewrite seq_nth.
Qed.

Lemma random_nonneg (r : R) : ¬ (Qlt (random r).1 0).
Proof.
  unfold random. destruct (random53 r) as [m r']. cbn [fst].
  unfold Qlt. cbn [Qnum Qden].
  pose proof (N2Z.is_nonneg (m mod 2 ^ 53)). lia.
Qed.

Lemma pick_target_spec fuel G n u w r w' r' :
  0 < n → w < n →
  pick_target fuel G (seq 0 n) n u w r = Target w' r' →
  w' < n ∧ w' ≠ u ∧ ¬ edge G u w'.
Proof.
  intros Hn. revert w r.
  induction fuel as [|fuel IH]; intros w r Hw; cbn [pick_target];
    destruct (bool_decide (w = u) || has_edge G u w) eqn:Hcond; try done.
  - intros [= <- <-]. apply orb_false_iff in Hcond as [H1 H2].
    apply bool_decide_eq_false in H1. split_and!; [done..|].
    rewrite <- has_edge_true. by rewrite H2.
  - pose proof (choice_range r n Hn) as Hc.
    destruct (choice r (seq 0 n)) as [w1 r1]. simpl in Hc. cbn beta iota.
    destruct (decide (n - 1 ≤ degree G u)); [done|]. by apply IH.
  - intros [= <- <-]. apply orb_false_iff in Hcond as [H1 H2].
    apply bool_decide_eq_false in H1. split_and!; [done..|].
    rewrite <- has_edge_true. by rewrite H2.
Qed.

Lemma rewire_edge_spec fuel n p u v G r :
  0 < n → simple_on n G → edge G u v →
  rewire_edge fuel n p (seq 0 n) u v G r ≠ Error ∧
  ∀ G' r', rewire_edge fuel n p (seq 0 n) u v G r = Ok (G', r') →
    simple_on n G' ∧ total_len n G' = total_len n G ∧
    (∀ x y, edge G x y → ¬ (x = u ∧ y = v) → ¬ (x = v ∧ y = u) →
            edge G' x y).
Proof.
  intros Hn HG He. unfold rewire_edge.
  destruct (random r) as [x r1]. destruct (Qlt_le_dec x p) as [_|_].
  2: { split; [done|]. intros G' r' [= <- <-]. done. }
  pose proof (choice_range r1 n Hn) as Hw.
  destruct (choice r1 (seq 0 n)) as [w r2]. simpl in Hw.
  destruct (pick_target fuel G (seq 0 n) n u w r2) as [w' r3|r3|] eqn:Hpick.
  - apply pick_target_spec in Hpick as (Hw' & Hne & Hnew); [|done..].
    destruct (simple_remove n G u v HG He) as (G1 & -> & HG1 & Hchar1 & Htot1).
    assert (u < n) as Hu.
    { apply (so_dom _ _ HG). destruct He as (ns & -> & _). done. }
    destruct (simple_add n G1 u w' HG1 Hu Hw') as (HG2 & Hchar2 & Htot2);
      [done| |].
    { rewrite Hchar1. tauto. }
    split; [done|]. intros G' r' [= <- <-]. split_and!; [done|lia|].
    intros a b Hab H1 H2. rewrite Hchar2, Hchar1. tauto.
  - split; [done|]. intros G' r' [= <- <-]. done.
  - split; [done|]. intros G' r' [=].
Qed.

Lemma rewire_edges_spec fuel n p es G r :
  0 < n → simple_on n G →
  (∀ a b, (a, b) ∈ es → edge G a b) → NoDup (map norm es) →
  rewire_edges fuel n p (seq 0 n) es G r ≠ Error ∧
  ∀ G' r', rewire_edges fuel n p (seq 0 n) es G r = Ok (G', r') →
    simple_on n G' ∧ total_len n G' = total_len n G.
Proof.
  intros Hn. revert G r.
  induction es as [|[u v] es IH]; intros G r HG Hes Hnd; cbn [rewire_edges].
  - split; [done|]. intros G' r' [= <- <-]. done.
  - apply NoDup_cons in Hnd as [Hfresh Hnd].
    assert (edge G u v) as He by (apply Hes; apply elem_of_cons; tauto).
    destruct (rewire_edge_spec fuel n p u v G r Hn HG He) as [Hok Hstep].
    destruct (rewire_edge fuel n p (seq 0 n) u v G r) as [[G1 r1]| |]; try done.
    destruct (Hstep G1 r1 eq_refl) as (HG1 & Htot1 & Hkeep).
    destruct (IH G1 r1 HG1) as [Hok' Hrest]; [|done|].
    { intros a b Hab. apply Hkeep.
      - apply Hes. apply elem_of_cons. tauto.
      - intros [-> ->]. apply Hfresh. apply list_elem_of_fmap. by exists (u, v).
      - intros [-> ->]. apply Hfresh. apply list_elem_of_fmap. exists (v, u).
        by rewrite norm_swap. }
    split; [done|]. intros G' r' HG'.
    destruct (Hrest G' r' HG') as [? ?]. split; [done|lia].
Qed.

Lemma rewire_edges_app fuel n p nodes es1 es2 G r :
  rewire_edges fuel n p nodes (es1 ++ es2) G r
  = match rewire_edges fuel n p nodes es1 G r with
    | Ok (G', r') => rewire_edges fuel n p nodes es2 G' r'
    | Error => Error
    | Timeout => Timeout
    end.
Proof.
  revert G r. induction es1 as [|[u v] es1 IH]; intros G r; [done|].
  cbn [app rewire_edges].
  destruct (rewire_edge fuel n p nodes u v G r) as [[G1 r1]| |]; auto.
Qed.

Lemma rewire_rings_bind fuel n p js G r :
  rewire_rings fuel n p (seq 0 n) js G r
  = rewire_edges fuel n p (seq 0 n) (js ≫= ring_pass n) G r.
Proof.
  revert G r. induction js as [|j js IH]; intros G r; [done|].
  cbn [rewire_rings]. rewrite bind_cons, rewire_edges_app.
  fold (ring_pass n j).
  destruct (rewire_edges fuel n p (seq 0 n) (ring_pass n j) G r)
    as [[G1 r1]| |]; auto.
Qed.

(** With [p = 0] no edge is rewired. *)
Lemma rewire_edges_zero fuel n es G r :
  ∃ r', rewire_edges fuel n 0 (seq 0 n) es G r = Ok (G, r').
Proof.
  revert r. induction es as [|[u v] es IH]; intros r; cbn [rewire_edges].
  - by exists r.
  - unfold rewire_edge. pose proof (random_nonneg r) as Hnn.
    destruct (random r) as [x r1]. simpl in Hnn.
    destruct (Qlt_le_dec x 0) as [Hlt|_]; [done|]. apply IH.
Qed.

(** A valid-enough configuration always yields a simple graph with
    [n * (k / 2)] edges, whatever the random source does. *)
Lemma watts_strogatz_graph_simple fuel n k p seed :
  k < n →
  watts_strogatz_graph fuel n k p seed ≠ Error ∧
  ∀ G r, watts_strogatz_graph fuel n k p seed = Ok (G, r) →
    simple_on n G ∧ total_len n G = 2 * (n * (k / 2)).
Proof.
  intros Hk. unfold watts_strogatz_graph.
  rewrite decide_False by lia. rewrite decide_False by lia.
  rewrite rewire_rings_bind. fold (ring_pairs n k).
  destruct (ring_lattice_simple n k Hk) as (HG & Hchar & Htot).
  destruct (rewire_edges_spec fuel n p (ring_pairs n k) (ring_lattice n k) seed)
    as [Hok Hres]; [lia|done| |by apply ring_pairs_nodup|].
  { intros a b Hab. apply Hchar. by left. }
  split; [done|]. intros G r HGr. destruct (Hres G r HGr) as [? ?].
  split; [done|lia].
Qed.

(** Every graph the builder returns for [k < n] is a well-formed simple
    graph on the nodes [0 .. n-1]. *)
Lemma watts_strogatz_graph_ok fuel n k p seed G r :
  k < n → watts_strogatz_graph fuel n k p seed = Ok (G, r) →
  graph_ok G ∧ loop_free G ∧ ∀ u, u ∈ dom G ↔ u < n.
Proof.
  intros Hk HG.
  destruct (watts_strogatz_graph_simple fuel n k p seed Hk) as [_ Hres].
  destruct (Hres G r HG) as [Hs _].
  destruct (simple_graph_ok n G Hs). split_and!; [done..|].
  intros u. by apply simple_dom.
Qed.

Lemma watts_strogatz_graph_zero fuel n k seed :
  k < n → ∃ r, watts_strogatz_graph fuel n k 0 seed = Ok (ring_lattice n k, r).
Proof.
  intros Hk. unfold watts_strogatz_graph.
  rewrite decide_False by lia. rewrite decide_False by lia.
  rewrite rewire_rings_bind. apply rewire_edges_zero.
Qed.

End RewiringFacts.

(** ** The adjacency of the ring lattice *)

Lemma mod_back n i v j :
  i < n → 1 ≤ j → j < n →
  (v < n ∧ i = (v + j) mod n) ↔ v = (i + n - j) mod n.
Proof.
  intros Hi Hj Hjn. split.
  - intros [Hv ->]. rewrite (mod_wrap n v j) by lia.
    case_decide.
    + replace (v + j + n - j) with (v + j + (n - j)) by lia.
      rewrite mod_wrap by lia. case_decide; lia.
    + replace (v + j - n + n - j) with (v + j - n + (n - j)) by lia.
      rewrite mod_wrap by lia. case_decide; lia.
  - intros ->. replace (i + n - j) with (i + (n - j)) by lia.
    split; [apply Nat.mod_upper_bound; lia|].
    rewrite (mod_wrap n i (n - j)) by lia.
    case_decide; rewrite mod_wrap by lia; case_decide; lia.
Qed.

Lemma ring_adj_elem n k i v : v ∈ ring_adj n k i ↔ ring_neighbour n k i v.
Proof.
  unfold ring_adj, ring_neighbour.
  rewrite elem_of_app, !list_elem_of_fmap. setoid_rewrite elem_of_seq. split.
  - intros [(j & -> & Hj)|(j & -> & Hj)]; exists j; split; (lia || tauto).
  - intros (j & Hj & [->| ->]); [left|right]; exists j; split; (lia || done).
Qed.

Lemma ring_adj_nodup n k i : i < n → k < n → NoDup (ring_adj n k i).
Proof.
  intros Hi Hk. assert (2 * (k / 2) ≤ k) as Hh by (apply Nat.Div0.mul_div_le).
  unfold ring_adj. apply NoDup_app. split_and!.
  - apply NoDup_fmap_2_strong; [|apply NoDup_seq].
    intros a b Ha Hb. apply elem_of_seq in Ha, Hb.
    rewrite !mod_wrap by lia. repeat case_decide; lia.
  - intros x (a & -> & Ha)%list_elem_of_fmap (b & Heq & Hb)%list_elem_of_fmap.
    apply elem_of_seq in Ha, Hb. revert Heq.
    replace (i + n - b) with (i + (n - b)) by lia.
    rewrite !mod_wrap by lia. repeat case_decide; lia.
  - apply NoDup_fmap_2_strong; [|apply NoDup_seq].
    intros a b Ha Hb. apply elem_of_seq in Ha, Hb.
    replace (i + n - a) with (i + (n - a)) by lia.
    replace (i + n - b) with (i + (n - b)) by lia.
    rewrite !mod_wrap by lia. repeat case_decide; lia.
Qed.

Lemma ring_lattice_adj n k i :
  k < n → i < n →
  ∃ ns, ring_lattice n k !! i = Some ns ∧ NoDup ns ∧
    (∀ v, v ∈ ns ↔ ring_neighbour n k i v) ∧
    degree (ring_lattice n k) i = 2 * (k / 2).
Proof.
  intros Hk Hi. assert (2 * (k / 2) ≤ k) as Hh by (apply Nat.Div0.mul_div_le).
  destruct (ring_lattice_simple n k Hk) as (HG & Hchar & _).
  destruct (simple_lookup n _ i HG Hi) as (ns & Hns & Hens).
  assert (∀ v, v ∈ ns ↔ ring_neighbour n k i v) as Hnb.
  { intros v. rewrite Hens, Hchar, !ring_pairs_elem by lia.
    unfold ring_neighbour. split.
    - intros [(_ & j & Hj & ->)|(Hv & j & Hj & Hij)].
      + exists j. tauto.
      + exists j. split; [done|]. right. apply mod_back; [lia..|done].
    - intros (j & Hj & [->|Hv]).
      + left. split; [done|]. by exists j.
      + right. apply mod_back in Hv as [Hv Hij]; [|lia..].
        split; [done|]. by exists j. }
  pose proof (so_nodup _ _ HG i ns Hns) as Hnd.
  exists ns. split_and!; [done..|].
  rewrite (simple_degree n) by done. unfold adj_len. rewrite Hns.
  assert (ns ≡ₚ ring_adj n k i) as ->.
  { apply NoDup_Permutation; [done|by apply ring_adj_nodup|].
    intros v. by rewrite Hnb, ring_adj_elem. }
  unfold ring_adj. rewrite length_app, !length_map, !length_seq. lia.
Qed.

(** ** The builder does not depend on the cut-off of its [while] loop *)

Section BuilderClaims.
Context {R : Type} `{RandomSource R}.

Lemma pick_target_mono fuel fuel' G nodes n u w (r : R) :
  fuel ≤ fuel' → pick_target fuel G nodes n u w r ≠ Spinning →
  pick_target fuel' G nodes n u w r = pick_target fuel G nodes n u w r.
Proof.
  revert fuel' w r. induction fuel as [|fuel IH]; intros fuel' w r Hle;
    destruct fuel' as [|fuel']; cbn [pick_target];
    destruct (bool_decide (w = u) || has_edge G u w); try done; try lia.
  destruct (choice r nodes) as [w1 r1].
  destruct (decide (n - 1 ≤ degree G u)); [done|].
  apply IH. lia.
Qed.

Lemma rewire_edge_mono fuel fuel' n p nodes u v G (r : R) x :
  fuel ≤ fuel' →
  rewire_edge fuel n p nodes u v G r = Ok x →
  rewire_edge fuel' n p nodes u v G r = Ok x.
Proof.
  intros Hle. unfold rewire_edge.
  destruct (random r) as [y r1]. destruct (Qlt_le_dec y p); [|done].
  destruct (choice r1 nodes) as [w r2].
  destruct (pick_target fuel G nodes n u w r2) as [w' r3|r3|] eqn:Hpick;
    [| |done]; rewrite (pick_target_mono fuel fuel') by (done || congruence);
    by rewrite Hpick.
Qed.

Lemma rewire_edges_mono fuel fuel' n p nodes es G (r : R) x :
  fuel ≤ fuel' →
  rewire_edges fuel n p nodes es G r = Ok x →
  rewire_edges fuel' n p nodes es G r = Ok x.
Proof.
  intros Hle. revert G r.
  induction es as [|[u v] es IH]; intros G r; cbn [rewire_edges]; [done|].
  destruct (rewire_edge fuel n p nodes u v G r) as [[G1 r1]| |] eqn:Hstep;
    [|done..].
  rewrite (rewire_edge_mono fuel fuel' _ _ _ _ _ _ _ _ Hle Hstep). apply IH.
Qed.

Lemma watts_strogatz_graph_mono fuel fuel' n k p (seed : R) x :
  fuel ≤ fuel' →
  watts_strogatz_graph fuel n k p seed = Ok x →
  watts_strogatz_graph fuel' n k p seed = Ok x.
Proof.
  intros Hle. unfold watts_strogatz_graph.
  repeat case_decide; try done.
  rewrite !rewire_rings_bind. by apply rewire_edges_mono.
Qed.

(** ** C1 for the graphs of the builder *)

Lemma simple_size_dom n G : simple_on n G → size (dom G) = n.
Proof.
  intros HG. transitivity (length (seq 0 n)); [|apply length_seq].
  rewrite <- (size_list_to_set (C := gset nat)) by apply NoDup_seq.
  f_equal. apply set_eq. intros x.
  rewrite (simple_dom n G x HG), elem_of_list_to_set, elem_of_seq. lia.
Qed.

(** C1.  For every graph that [watts_strogatz_graph] builds from a valid
    configuration, whatever the rewiring probability and the random source,
    both traversals from node 0 run to completion within [n] iterations,
    and the per-depth counts returned by [bfs_spread] add up to the size of
    the last snapshot yielded by [bfs_generator]. *)
Theorem spread_total_is_final_snapshot_size (fuel n k : nat) (p : Q) (seed : R)
    (G : Graph) (r : R) (bound pullcount : nat) :
  valid_config n k →
  watts_strogatz_graph fuel n k p seed = Ok (G, r) →
  n ≤ bound → n < pullcount →
  ∃ levels snaps final,
    bfs_spread bound G = Levels levels ∧
    pulls pullcount G (bfs_generator 0) = (snaps, Exhausted) ∧
    last snaps = Some final ∧
    sum_list (values levels) = size final.
Proof.
  intros (Hn & Hk2 & Hk & Heven) HG Hbound Hpull.
  destruct (watts_strogatz_graph_simple fuel n k p seed Hk) as [_ Hres].
  destruct (Hres G r HG) as [Hs _].
  destruct (simple_graph_ok n G Hs) as [(Hc & _ & _) _].
  pose proof (simple_size_dom n G Hs) as Hsize.
  apply traversals_agree_on_total; [done| |lia..].
  apply (simple_dom n G 0 Hs). lia.
Qed.

(** ** C4: no rewiring gives the ring lattice *)

(** C4.  For a valid configuration, [watts_strogatz_graph] with rewiring
    probability 0 returns a graph on the nodes [0 .. n-1] in which node
    [i] is adjacent to exactly the nodes [i ± 1, ..., i ± k/2] modulo
    [n], each once, so that its degree is [k]. *)
Theorem regular_network_is_ring_lattice (fuel n k : nat) (seed : R) :
  valid_config n k →
  ∃ G r,
    watts_strogatz_graph fuel n k 0 seed = Ok (G, r) ∧
    (∀ i, i ∈ dom G ↔ i < n) ∧
    ∀ i, i < n →
      ∃ ns, G !! i = Some ns ∧ NoDup ns ∧
        (∀ v, v ∈ ns ↔ ring_neighbour n k i v) ∧
        degree G i = k.
Proof.
  intros (Hn & Hk2 & Hk & Heven).
  destruct (watts_strogatz_graph_zero fuel n k seed Hk) as [r Hr].
  exists (ring_lattice n k), r. split_and!; [done| |].
  - intros i. destruct (ring_lattice_simple n k Hk) as (HG & _ & _).
    by apply simple_dom.
  - intros i Hi.
    destruct (ring_lattice_adj n k i Hk Hi) as (ns & Hns & Hnd & Hnb & Hdeg).
    exists ns. split_and!; [done..|].
    rewrite Hdeg. pose proof (Nat.div_mod_eq k 2). lia.
Qed.

(** ** C5: which configurations are rejected *)

(** C5, amended.  [watts_strogatz_graph] fails, returning no graph,
    exactly when the degree exceeds the population, whatever the rewiring
    probability and the random source.  A degree equal to the population
    gives the complete graph.  Any smaller degree, odd or even, is not
    rejected: without rewiring it gives the ring in which every node is
    adjacent to exactly the [k // 2] nodes on each side, each once, so
    that its degree is [2 * (k // 2)]. *)
Theorem build_fails_only_above_population (fuel n k : nat) (p : Q) (seed : R) :
  (watts_strogatz_graph fuel n k p seed = Error ↔ n < k) ∧
  (k = n → watts_strogatz_graph fuel n k p seed = Ok (complete_graph n, seed)) ∧
  (k < n →
     ∃ r, watts_strogatz_graph fuel n k 0 seed = Ok (ring_lattice n k, r) ∧
          ∀ i, i < n →
            ∃ ns, ring_lattice n k !! i = Some ns ∧ NoDup ns ∧
              (∀ v, v ∈ ns ↔ ring_neighbour n k i v) ∧
              degree (ring_lattice n k) i = 2 * (k / 2)).
Proof.
  split_and!.
  - split.
    + intros Herr. destruct (decide (n < k)) as [|Hge]; [done|]. exfalso.
      destruct (decide (k = n)) as [->|Hne].
      * unfold watts_strogatz_graph in Herr.
        rewrite decide_False, decide_True in Herr by (done || lia). done.
      * by apply (watts_strogatz_graph_simple fuel n k p seed); [lia|].
    + intros Hlt. unfold watts_strogatz_graph. by rewrite decide_True.
  - intros ->. unfold watts_strogatz_graph.
    by rewrite decide_False, decide_True by (done || lia).
  - intros Hk. destruct (watts_strogatz_graph_zero fuel n k seed Hk) as [r Hr].
    exists r. split; [done|]. intros i Hi.
    by apply ring_lattice_adj.
Qed.

(** ** C6: rewiring keeps the number of edges *)

(** C6.  For a valid configuration and any rewiring probability and
    random source, [watts_strogatz_graph] never raises, and every graph
    it returns has exactly [n * k / 2] edges; the result does not depend
    on how many more iterations its [while] loop is allowed. *)
Theorem rewiring_keeps_edge_count (fuel n k : nat) (p : Q) (seed : R) :
  valid_config n k →
  watts_strogatz_graph fuel n k p seed ≠ Error ∧
  ∀ G r, watts_strogatz_graph fuel n k p seed = Ok (G, r) →
    number_of_edges G = n * k / 2 ∧
    ∀ fuel', fuel ≤ fuel' →
      watts_strogatz_graph fuel' n k p seed = Ok (G, r).
Proof.
  intros (Hn & Hk2 & Hk & Heven).
  destruct (watts_strogatz_graph_simple fuel n k p seed Hk) as [Hok Hres].
  split; [done|]. intros G r HG. destruct (Hres G r HG) as [Hs Htot].
  split.
  - rewrite (simple_number_of_edges n G Hs), Htot.
    pose proof (Nat.div_mod_eq k 2) as Hdiv. rewrite Heven in Hdiv.
    replace (n * k) with (2 * (n * (k / 2))) at 1 by lia. done.
  - intros fuel' Hle. by eapply watts_strogatz_graph_mono.
Qed.

(** The dict of lines 61-65: its "Regular" entry is the ring lattice, and
    all three entries are simple graphs with the same number of edges. *)
Lemma networks_spec (fuel nodes neighbours : nat) (randomness : Q) (seed : R)
    regular small_world rand :
  neighbours < nodes →
  networks fuel nodes neighbours randomness seed
  = Ok (regular, small_world, rand) →
  regular = ring_lattice nodes neighbours ∧
  Forall (λ G, simple_on nodes G ∧
               total_len nodes G = 2 * (nodes * (neighbours / 2)))
         [regular; small_world; rand].
Proof.
  intros Hk. unfold networks.
  destruct (watts_strogatz_graph_zero fuel nodes neighbours seed Hk) as [r1 H1].
  rewrite H1.
  destruct (watts_strogatz_graph fuel nodes neighbours randomness r1)
    as [[G2 r2]| |] eqn:H2; [|done..].
  destruct (watts_strogatz_graph fuel nodes neighbours 1 r2)
    as [[G3 r3]| |] eqn:H3; [|done..].
  intros [= <- <- <-]. split; [done|].
  repeat constructor;
    eapply watts_strogatz_graph_simple; [exact Hk|eassumption..].
Qed.

End BuilderClaims.

(** C5, as stated, fails for population 10 and degree 3, the invalid
    scenario of the specification: a graph with 10 edges is returned.  A
    degree equal to the population is accepted as well. *)
Lemma odd_degree_is_not_rejected :
  (∃ G r, watts_strogatz_graph 10 10 3 (1 # 10) 0%N = Ok (G, r) ∧
          number_of_edges G = 10) ∧
  watts_strogatz_graph 10 4 4 (1 # 10) 0%N = Ok (complete_graph 4, 0%N).
Proof.
  split; [eexists _, _; split|]; vm_compute; reflexivity.
Qed.

(** * Concrete runs *)

(** The scenarios of the specification: population 8 with degree 2, and
    population 20 with degree 4. *)
Example ring_8_2_histogram :
  bfs_spread 8 (ring_lattice 8 2)
  = Levels [(0, 1); (1, 2); (2, 2); (3, 2); (4, 1)].
Proof. vm_compute. reflexivity. Qed.

Example ring_20_4_edges_and_histogram :
  number_of_edges (ring_lattice 20 4) = 40 ∧
  bfs_spread 20 (ring_lattice 20 4)
  = Levels [(0, 1); (1, 4); (2, 4); (3, 4); (4, 4); (5, 3)].
Proof. split; vm_compute; reflexivity. Qed.

Example isolated_start_stream :
  pulls 3 {[0 := []; 1 := [2]; 2 := [1]]} (bfs_generator 0)
  = ([{[0]}], Exhausted).
Proof. vm_compute. reflexivity. Qed.

Example small_world_10_4_edges : number_of_edges small_world_10_4 = 20.
Proof. vm_compute. reflexivity. Qed.

Lemma spread_total_is_final_snapshot_size_witness :
  valid_config 10 4 ∧
  ∃ G r levels snaps final,
    watts_strogatz_graph 10 10 4 (1 # 2) 0%N = Ok (G, r) ∧
    bfs_spread 10 G = Levels levels ∧
    pulls 11 G (bfs_generator 0) = (snaps, Exhausted) ∧
    last snaps = Some final ∧
    sum_list (values levels) = size final.
Proof.
  assert (valid_config 10 4) as Hv by (repeat split; by_evaluation).
  split; [exact Hv|].
  assert (∃ G r, watts_strogatz_graph 10 10 4 (1 # 2) 0%N = Ok (G, r))
    as (G & r & HG) by (eexists _, _; vm_compute; reflexivity).
  assert (10 ≤ 10) as Hb by lia.
  assert (10 < 11) as Hp by lia.
  destruct (spread_total_is_final_snapshot_size 10 10 4 (1 # 2) 0%N G r 10 11
              Hv HG Hb Hp) as (levels & snaps & final & H1 & H2 & H3 & H4).
  exists G, r, levels, snaps, final. split_and!; assumption.
Defined.

Lemma spread_depths_contiguous_witness :
  adj_closed (ring_lattice 8 2) ∧ 0 ∈ dom (ring_lattice 8 2) ∧
  size (dom (ring_lattice 8 2)) ≤ 8 ∧
  ∃ levels,
    bfs_spread 8 (ring_lattice 8 2) = Levels levels ∧
    levels !! 0 = Some (0, 1) ∧
    keys levels = seq 0 (length levels) ∧
    Forall (λ c, 1 ≤ c) (values levels).
Proof.
  assert (adj_closed (ring_lattice 8 2)) as H1 by by_evaluation.
  assert (0 ∈ dom (ring_lattice 8 2)) as H2 by by_evaluation.
  assert (size (dom (ring_lattice 8 2)) ≤ 8) as H3 by by_evaluation.
  split_and!; [done..|].
  exact (spread_depths_contiguous (ring_lattice 8 2) 8 H1 H2 H3).
Defined.

Lemma traversal_of_missing_start_raises_witness :
  empty_graph 0 !! 0 = None ∧
  bfs_spread 5 (empty_graph 0) = SpreadError ∧
  pulls 1 (empty_graph 0) (bfs_generator 0) = ([], Raised).
Proof.
  assert (empty_graph 0 !! 0 = None) as H0 by reflexivity.
  split; [done|].
  exact (traversal_of_missing_start_raises (empty_graph 0) 5 0 H0).
Defined.

Lemma snapshots_monotone_and_fresh_witness :
  adj_closed (ring_lattice 8 2) ∧ 0 ∈ dom (ring_lattice 8 2) ∧ 3 ≤ 9 ∧
  let snaps := (pulls 9 (ring_lattice 8 2) (bfs_generator 0)).1 in
  let g0 := (Heap.bfs_generator 0 [∅]).1 in
  let σ0 := (Heap.bfs_generator 0 [∅]).2 in
  let run k := Heap.pulls k (ring_lattice 8 2) g0 σ0 in
  (∀ i X Y, snaps !! i = Some X → snaps !! S i = Some Y → X ⊆ Y) ∧
  (∀ i X, snaps !! i = Some X → 0 ∈ X ∧ X ⊆ dom (ring_lattice 8 2)) ∧
  (∀ i c, (run 3).1.1 !! i = Some c →
     length [(∅ : gset nat)] < c ∧ c ≠ Heap.g_visited g0 ∧
     (∀ j, j < i → (run 3).1.1 !! j ≠ Some c) ∧
     (run 3).1.2 !! c = snaps !! i ∧
     (run 9).1.2 !! c = (run 3).1.2 !! c).
Proof.
  assert (adj_closed (ring_lattice 8 2)) as H1 by by_evaluation.
  assert (0 ∈ dom (ring_lattice 8 2)) as H2 by by_evaluation.
  assert (3 ≤ 9) as H3 by lia.
  split_and!; [done..|].
  exact (snapshots_monotone_and_fresh (ring_lattice 8 2) 0 3 9 [∅] H1 H2 H3).
Defined.

Lemma one_snapshot_per_expanded_node_witness :
  adj_closed (ring_lattice 8 2) ∧ 0 ∈ dom (ring_lattice 8 2) ∧
  size (dom (ring_lattice 8 2)) < 9 ∧
  ∃ snaps order,
    pulls 9 (ring_lattice 8 2) (bfs_generator 0) = (snaps, Exhausted) ∧
    length snaps = length order ∧
    length order ≤ size (dom (ring_lattice 8 2)) ∧
    NoDup order ∧ order !! 0 = Some 0 ∧
    last snaps = Some (list_to_set order) ∧
    (∀ i j u v du dv, i ≤ j → order !! i = Some u → order !! j = Some v →
       dist (ring_lattice 8 2) 0 u du → dist (ring_lattice 8 2) 0 v dv →
       du ≤ dv) ∧
    (∀ i X, snaps !! i = Some X →
       ∃ prev u ns, ({[0]} :: snaps) !! i = Some prev ∧
         order !! i = Some u ∧ ring_lattice 8 2 !! u = Some ns ∧
         X = list_to_set ns ∪ prev).
Proof.
  assert (adj_closed (ring_lattice 8 2)) as H1 by by_evaluation.
  assert (0 ∈ dom (ring_lattice 8 2)) as H2 by by_evaluation.
  assert (size (dom (ring_lattice 8 2)) < 9) as H3 by by_evaluation.
  split_and!; [done..|].
  exact (one_snapshot_per_expanded_node (ring_lattice 8 2) 0 9 H1 H2 H3).
Defined.

Lemma stream_is_breadth_first_witness :
  adj_closed small_world_10_4 ∧ 0 ∈ dom small_world_10_4 ∧
  size (dom small_world_10_4) < 11 ∧
  ∃ snaps final,
    pulls 11 small_world_10_4 (bfs_generator 0) = (snaps, Exhausted) ∧
    last snaps = Some final ∧
    (∀ i X a b da db, snaps !! i = Some X → a ∈ X → b ∉ X →
       dist small_world_10_4 0 a da → dist small_world_10_4 0 b db →
       da ≤ db) ∧
    (∀ v, v ∈ final ↔ reach small_world_10_4 0 v) ∧
    size final = length snaps ∧
    (∀ X v, X ∈ snaps → v ∈ X → reach small_world_10_4 0 v) ∧
    (small_world_10_4 !! 0 = Some [] → snaps = [{[0]}]).
Proof.
  assert (adj_closed small_world_10_4) as H1 by by_evaluation.
  assert (0 ∈ dom small_world_10_4) as H2 by by_evaluation.
  assert (size (dom small_world_10_4) < 11) as H3 by by_evaluation.
  split_and!; [done..|].
  exact (stream_is_breadth_first small_world_10_4 0 11 H1 H2 H3).
Defined.

Lemma traversal_follows_adjacency_order_witness :
  adj_closed (ring_lattice 20 4) ∧ 0 ∈ dom (ring_lattice 20 4) ∧
  size (dom (ring_lattice 20 4)) ≤ 20 ∧
  size (dom (ring_lattice 20 4)) ≤ 25 ∧
  (∃ order ds snaps,
     visit_order (ring_lattice 20 4) 0 order ds ∧ NoDup order ∧
     (∀ v, v ∈ order ↔ reach (ring_lattice 20 4) 0 v) ∧
     (∀ m, size (dom (ring_lattice 20 4)) < m →
           pulls m (ring_lattice 20 4) (bfs_generator 0)
           = (snaps, Exhausted)) ∧
     length snaps = length order ∧
     ∀ k X, snaps !! k = Some X →
       X = list_to_set (0 :: concat (take (S k) ds))) ∧
  (∃ Pf ds,
     visit_order (ring_lattice 20 4) 0 (map fst Pf) ds ∧
     NoDup (map fst Pf) ∧
     (∀ v, v ∈ map fst Pf ↔ reach (ring_lattice 20 4) 0 v) ∧
     Pf !! 0 = Some (0, 0) ∧
     (∀ k u e d m, Pf !! k = Some (u, e) → ds !! k = Some d → m ∈ d →
        (m, e + 1) ∈ Pf) ∧
     bfs_spread 20 (ring_lattice 20 4) = Levels (hist (map snd Pf))) ∧
  bfs_spread 20 (ring_lattice 20 4) = bfs_spread 25 (ring_lattice 20 4).
Proof.
  assert (adj_closed (ring_lattice 20 4)) as H1 by by_evaluation.
  assert (0 ∈ dom (ring_lattice 20 4)) as H2 by by_evaluation.
  assert (size (dom (ring_lattice 20 4)) ≤ 20) as H3 by by_evaluation.
  assert (size (dom (ring_lattice 20 4)) ≤ 25) as H4 by by_evaluation.
  pose proof (traversal_follows_adjacency_order (ring_lattice 20 4) 0 5 20 25
                [] [∅] H1 H2 H2 H3 H4) as (Ho & Hp & Hs & _).
  split_and!; done.
Defined.

Lemma regular_network_is_ring_lattice_witness :
  valid_config 20 4 ∧
  ∃ G r,
    watts_strogatz_graph 0 20 4 0 0%N = Ok (G, r) ∧
    (∀ i, i ∈ dom G ↔ i < 20) ∧
    ∀ i, i < 20 →
      ∃ ns, G !! i = Some ns ∧ NoDup ns ∧
        (∀ v, v ∈ ns ↔ ring_neighbour 20 4 i v) ∧
        degree G i = 4.
Proof.
  assert (valid_config 20 4) as Hv by (repeat split; by_evaluation).
  split; [done|].
  exact (regular_network_is_ring_lattice 0 20 4 0%N Hv).
Defined.

Lemma build_fails_only_above_population_witness :
  3 < 10 ∧
  ∃ r, watts_strogatz_graph 0 10 3 0 0%N = Ok (ring_lattice 10 3, r) ∧
       ∀ i, i < 10 →
         ∃ ns, ring_lattice 10 3 !! i = Some ns ∧ NoDup ns ∧
           (∀ v, v ∈ ns ↔ ring_neighbour 10 3 i v) ∧
           degree (ring_lattice 10 3) i = 2 * (3 / 2).
Proof.
  assert (3 < 10) as Hk by lia.
  split; [done|].
  exact (proj2 (proj2 (build_fails_only_above_population 0 10 3 0 0%N)) Hk).
Defined.

Lemma rewiring_keeps_edge_count_witness :
  valid_config 10 4 ∧
  ∃ G r,
    watts_strogatz_graph 10 10 4 (1 # 2) 0%N = Ok (G, r) ∧
    number_of_edges G = 10 * 4 / 2.
Proof.
  assert (valid_config 10 4) as Hv by (repeat split; by_evaluation).
  split; [done|].
  eexists _, _. split; [vm_compute; reflexivity|].
  eapply (proj2 (rewiring_keeps_edge_count 10 10 4 (1 # 2) 0%N Hv)).
  vm_compute. reflexivity.
Defined.

(** * Further properties of the program *)

(** ** What the histogram counts *)

(** X1.  On a well-formed graph that has node 0, [bfs_spread] returns for
    each depth [d] the number of nodes whose shortest walk from node 0 has
    exactly [d] edges, and it has an entry for [d] only if there is such a
    node. *)
Theorem spread_counts_nodes_at_each_distance (G : Graph) (fuel : nat) :
  adj_closed G → 0 ∈ dom G → size (dom G) ≤ fuel →
  ∃ levels,
    bfs_spread fuel G = Levels levels ∧
    ∀ d c, (d, c) ∈ levels ↔
      0 < c ∧ ∃ X : gset nat, size X = c ∧ ∀ v, v ∈ X ↔ dist G 0 v d.
Proof.
  intros Hc Hs Hfuel.
  destruct (traversals_run G 0 fuel (S (size (dom G))) Hc Hs Hfuel)
    as (sts & Pf & final & Hrun & Hlast & Hinv & Hq & Hlen & Hb & Hsp & Hgen);
    [lia|].
  exists (hist (map snd Pf)). split; [done|]. intros d c.
  destruct (final_layer G 0 Pf final d Hinv Hq) as (X & HX & HXd).
  rewrite hist_elem. split.
  - intros [-> Hpos]. split; [done|]. by exists X.
  - intros (Hpos & Y & HY & HYd). split; [|done].
    rewrite <- HX, <- HY. f_equal. apply set_eq. intros v.
    by rewrite HXd, HYd.
Qed.

(** ** The running total of the histogram *)

Lemma spread_result_spec G fuel :
  adj_closed G → 0 ∈ dom G → size (dom G) ≤ fuel →
  ∃ Pf final,
    bfs_spread fuel G = Levels (hist (map snd Pf)) ∧
    spread_inv G 0 Pf final ∧ s_queue final = [] ∧
    ramp (map snd Pf) ∧ 1 ≤ length Pf ≤ size (dom G).
Proof.
  intros Hc Hs Hfuel.
  destruct (traversals_run G 0 fuel (S (size (dom G))) Hc Hs Hfuel)
    as (sts & Pf & final & Hrun & Hlast & Hinv & Hq & Hlen & Hb & Hsp & Hgen);
    [lia|].
  exists Pf, final. split_and!; try done.
  - pose proof (si_ramp _ _ _ _ Hinv) as Hr. by rewrite Hq, app_nil_r in Hr.
  - destruct sts; [done|]. simpl in Hlen. lia.
Qed.

Lemma hist_keys_seq ds : ramp ds → keys (hist ds) = seq 0 (length (hist ds)).
Proof.
  intros Hr. pose proof (hist_keys _ Hr) as Hk. rewrite Hk. f_equal.
  unfold keys in Hk. apply (f_equal length) in Hk.
  by rewrite length_map, length_seq in Hk.
Qed.

Lemma hist_depth_bound ds e : ramp ds → e ∈ ds → e < length (hist ds).
Proof.
  intros Hr He.
  assert (e ∈ keys (hist ds)) as Hk.
  { unfold keys. apply list_elem_of_fmap. exists (e, occ e ds). split; [done|].
    apply hist_elem. split; [done|]. unfold occ.
    assert (e ∈ filter (λ x, x = e) ds) as Hin by (by apply list_elem_of_filter).
    destruct (filter (λ x, x = e) ds); [by apply elem_of_nil in Hin|simpl; lia]. }
  rewrite hist_keys_seq in Hk by done. apply elem_of_seq in Hk. lia.
Qed.

Lemma hist_values_lookup ds j :
  ramp ds → j < length (hist ds) →
  values (hist ds) !! j = Some (occ j ds) ∧ 0 < occ j ds.
Proof.
  intros Hr Hj. destruct (hist ds !! j) as [[k c]|] eqn:Hjc.
  2: { apply lookup_ge_None in Hjc. lia. }
  assert (k = j) as ->.
  { pose proof (hist_keys_seq ds Hr) as Hk. apply (f_equal (λ l, l !! j)) in Hk.
    unfold keys in Hk. rewrite list_lookup_fmap, Hjc, lookup_seq_lt in Hk by done.
    simpl in Hk. congruence. }
  apply list_elem_of_lookup_2 in Hjc as Hin. apply hist_elem in Hin as [-> Hpos].
  split; [|done]. unfold values. by rewrite list_lookup_fmap, Hjc.
Qed.

Lemma below_succ m ds :
  length (filter (λ e, e < S m) ds) = length (filter (λ e, e < m) ds) + occ m ds.
Proof.
  unfold occ. induction ds as [|e ds IH]; [done|].
  rewrite !filter_cons.
  destruct (decide (e < S m)), (decide (e < m)), (decide (e = m));
    simpl; lia.
Qed.

Lemma below_zero ds : length (filter (λ e, e < 0) ds) = 0.
Proof.
  induction ds as [|e ds IH]; [done|].
  rewrite filter_cons. destruct (decide (e < 0)); [lia|done].
Qed.

Lemma below_all m ds :
  (∀ e, e ∈ ds → e < m) → length (filter (λ e, e < m) ds) = length ds.
Proof.
  induction ds as [|e ds IH]; intros Hall; [done|].
  rewrite filter_cons_True by (apply Hall; apply elem_of_cons; tauto).
  simpl. f_equal. apply IH. intros x Hx. apply Hall. apply elem_of_cons. tauto.
Qed.

Lemma hist_take_sum ds m :
  ramp ds → m ≤ length (hist ds) →
  sum_list (take m (values (hist ds))) = length (filter (λ e, e < m) ds).
Proof.
  intros Hr. induction m as [|m IH]; intros Hm.
  - by rewrite take_0, below_zero.
  - destruct (hist_values_lookup ds m Hr) as [Hv _]; [lia|].
    rewrite (take_S_r _ _ _ Hv), sum_list_with_app, IH, below_succ by lia.
    simpl. lia.
Qed.

Lemma nodes_reached_lookup ds i :
  ramp ds → i < length (hist ds) →
  nodes_reached (hist ds) !! i = Some (length (filter (λ e, e < S i) ds)).
Proof.
  intros Hr Hi. unfold nodes_reached.
  rewrite list_lookup_fmap, lookup_seq_lt by done. simpl. f_equal.
  rewrite Nat.add_1_r. apply hist_take_sum; [done|lia].
Qed.

Lemma nodes_reached_length levels :
  length (nodes_reached levels) = length levels.
Proof. unfold nodes_reached. by rewrite length_map, length_seq. Qed.

(** The nodes that a finished traversal tagged with a depth below [m]. *)
Lemma final_ball G start Pf s m :
  spread_inv G start Pf s → s_queue s = [] →
  ∃ X : gset nat,
    size X = length (filter (λ e, e < m) (map snd Pf)) ∧
    ∀ v, v ∈ X ↔ ∃ e, e < m ∧ dist G start v e.
Proof.
  intros Hinv Hq.
  pose proof (si_nodup _ _ _ _ Hinv) as Hnd. rewrite Hq, app_nil_r in Hnd.
  exists (list_to_set (map fst (filter (λ p, p.2 < m) Pf))). split.
  - rewrite size_list_to_set.
    + rewrite length_map. clear.
      induction Pf as [|[v e] Pf IH]; [done|].
      cbn [map snd]. rewrite !filter_cons. cbn [snd].
      destruct (decide (e < m)); simpl; by rewrite IH.
    + apply (sublist_NoDup _ (map fst Pf)); [exact Hnd|].
      apply fmap_sublist, sublist_filter.
  - intros v. rewrite elem_of_list_to_set, list_elem_of_fmap. split.
    + intros ([v' e] & -> & Hin). apply list_elem_of_filter in Hin as [He Hin].
      simpl in He. exists e. split; [done|]. by eapply final_dist.
    + intros (e & He & Hd). pose proof Hd as [Hw _].
      destruct (final_covers G start Pf s Hinv Hq e v Hw) as (e2 & He2 & _).
      pose proof (final_dist G start Pf s Hinv Hq v e2 He2) as Hde.
      rewrite <- (dist_unique _ _ _ _ _ Hd Hde) in He2.
      exists (v, e). split; [done|]. apply list_elem_of_filter. done.
Qed.

(** X2.  On a well-formed graph that has node 0, the running total has one
    entry per depth, and its entry for step [i] is the number of nodes that
    are at most [i] edges away from node 0. *)
Theorem nodes_reached_counts_nodes_within_distance (G : Graph) (fuel : nat) :
  adj_closed G → 0 ∈ dom G → size (dom G) ≤ fuel →
  ∃ levels,
    bfs_spread fuel G = Levels levels ∧
    length (nodes_reached levels) = length levels ∧
    ∀ i c, nodes_reached levels !! i = Some c →
      ∃ X : gset nat, size X = c ∧ ∀ v, v ∈ X ↔ ∃ e, e ≤ i ∧ dist G 0 v e.
Proof.
  intros Hc Hs Hfuel.
  destruct (spread_result_spec G fuel Hc Hs Hfuel)
    as (Pf & final & Hsp & Hinv & Hq & Hr & Hlen).
  exists (hist (map snd Pf)). split_and!; [done|apply nodes_reached_length|].
  intros i c Hi.
  assert (i < length (hist (map snd Pf))) as Hlt.
  { apply lookup_lt_Some in Hi. by rewrite nodes_reached_length in Hi. }
  rewrite (nodes_reached_lookup _ i Hr Hlt) in Hi. injection Hi as <-.
  destruct (final_ball G 0 Pf final (S i) Hinv Hq) as (X & HX & HXd).
  exists X. split; [done|]. intros v. rewrite HXd.
  split; intros (e & He & Hd); exists e; (split; [lia|done]).
Qed.

(** X3.  On a well-formed graph that has node 0, the running total starts
    at 1, grows strictly from step to step, and ends at the number of nodes
    reachable from node 0, which is at most the number of nodes. *)
Theorem nodes_reached_climbs_to_component_size (G : Graph) (fuel : nat) :
  adj_closed G → 0 ∈ dom G → size (dom G) ≤ fuel →
  ∃ levels (X : gset nat),
    bfs_spread fuel G = Levels levels ∧
    (∀ v, v ∈ X ↔ reach G 0 v) ∧
    nodes_reached levels !! 0 = Some 1 ∧
    (∀ i a b, nodes_reached levels !! i = Some a →
              nodes_reached levels !! S i = Some b → a < b) ∧
    last (nodes_reached levels) = Some (size X) ∧
    size X ≤ size (dom G).
Proof.
  intros Hc Hs Hfuel.
  destruct (spread_result_spec G fuel Hc Hs Hfuel)
    as (Pf & final & Hsp & Hinv & Hq & Hr & Hlen).
  set (ds := map snd Pf) in *.
  assert (0 ∈ ds) as H0.
  { unfold ds. apply list_elem_of_fmap. exists (0, 0). split; [done|].
    by eapply final_start. }
  pose proof (hist_depth_bound ds 0 Hr H0) as Hpos.
  exists (hist ds), (s_visited final). split_and!; [done| | | | |].
  - intros v. by eapply final_reach.
  - rewrite (nodes_reached_lookup ds 0 Hr Hpos). f_equal.
    rewrite below_succ, below_zero. simpl.
    destruct (final_layer G 0 Pf final 0 Hinv Hq) as (X & HX & HXd).
    fold ds in HX. rewrite <- HX.
    assert (X = {[0]}) as ->; [|by rewrite size_singleton].
    apply set_eq. intros v. rewrite HXd, elem_of_singleton. split.
    + intros [Hw _]. by inversion Hw.
    + intros ->. split; [constructor|lia].
  - intros i a b Ha Hb.
    assert (S i < length (hist ds)) as Hlt.
    { apply lookup_lt_Some in Hb. by rewrite nodes_reached_length in Hb. }
    rewrite (nodes_reached_lookup ds i Hr) in Ha by lia.
    rewrite (nodes_reached_lookup ds (S i) Hr Hlt) in Hb.
    injection Ha as <-. injection Hb as <-.
    rewrite (below_succ (S i)).
    destruct (hist_values_lookup ds (S i) Hr Hlt) as [_ Hocc]. lia.
  - rewrite last_lookup, nodes_reached_length.
    rewrite (nodes_reached_lookup ds _ Hr) by lia. f_equal.
    replace (S (pred (length (hist ds)))) with (length (hist ds)) by lia.
    rewrite (final_size G 0 Pf final Hinv Hq), <- (length_map snd Pf).
    fold ds. apply below_all. intros e He. by apply hist_depth_bound.
  - rewrite (final_size G 0 Pf final Hinv Hq). lia.
Qed.

(** ** The result table *)

Lemma filter_Forall_id {A} (P : A → Prop) `{∀ x, Decision (P x)} (l : list A) :
  Forall P l → filter P l = l.
Proof.
  induction 1 as [|x l Hx Hl IH]; [done|].
  by rewrite filter_cons_True, IH.
Qed.

Lemma filter_Forall_nil {A} (P : A → Prop) `{∀ x, Decision (P x)} (l : list A) :
  Forall (λ x, ¬ P x) l → filter P l = [].
Proof.
  induction 1 as [|x l Hx Hl IH]; [done|].
  by rewrite filter_cons_False.
Qed.

Lemma data_frame_network label levels :
  Forall (λ row, Network row = label) (data_frame label levels).
Proof.
  unfold data_frame. apply Forall_forall. intros row Hrow.
  apply elem_of_zip_with in Hrow as (s & r & -> & _ & _). done.
Qed.

Lemma data_frame_last label levels :
  keys levels = seq 0 (length levels) → 0 < length levels →
  Steps <$> last (data_frame label levels) = Some (pred (length levels)).
Proof.
  intros Hk Hpos. unfold data_frame.
  rewrite last_lookup, length_zip_with, nodes_reached_length.
  assert (length (keys levels) = length levels) as Hlen.
  { unfold keys. by rewrite length_map. }
  rewrite Hlen, Nat.min_id, lookup_zip_with.
  rewrite Hk, lookup_seq_lt by lia. simpl.
  destruct (nodes_reached levels !! pred (length levels)) as [r|] eqn:Hr; [done|].
  apply lookup_ge_None in Hr. rewrite nodes_reached_length in Hr. lia.
Qed.

Lemma positive_length_le_sum (l : list nat) :
  Forall (λ c, 1 ≤ c) l → length l ≤ sum_list l.
Proof. induction 1 as [|c l Hc Hl IH]; simpl; lia. Qed.

Lemma df_all_select fuel networks :
  NoDup (map fst networks) →
  Forall (λ kg, ∃ levels, bfs_spread fuel kg.2 = Levels levels) networks →
  ∃ df, df_all fuel networks = Some df ∧
    ∀ k G levels, (k, G) ∈ networks → bfs_spread fuel G = Levels levels →
      filter (λ row, Network row = k) df = data_frame k levels.
Proof.
  induction networks as [|[label G0] networks IH]; intros Hnd Hall.
  - exists []. split; [done|]. intros k G levels Hin. by apply elem_of_nil in Hin.
  - cbn [map fst] in Hnd. apply NoDup_cons in Hnd as [Hfresh Hnd].
    apply Forall_cons in Hall as [[levels0 H0] Hall]. simpl in H0.
    destruct (IH Hnd Hall) as (df & Hdf & Hsel).
    exists (data_frame label levels0 ++ df). cbn [df_all].
    rewrite H0, Hdf. split; [done|].
    intros k G levels [[= -> ->]|Hin]%elem_of_cons Hlv.
    + rewrite H0 in Hlv. injection Hlv as <-. rewrite filter_app.
      rewrite (filter_Forall_id _ _ (data_frame_network label levels0)).
      assert (filter (λ row, Network row = label) df = []) as ->;
        [|by rewrite app_nil_r].
      clear -Hdf Hfresh. revert df Hdf.
      induction networks as [|[l1 G1] networks IH]; intros df Hdf.
      * by injection Hdf as <-.
      * cbn [df_all] in Hdf.
        destruct (bfs_spread fuel G1) as [lv1| |]; [|done..].
        destruct (df_all fuel networks) as [df1|] eqn:Hdf1; [|done].
        injection Hdf as <-.
        assert (label ∉ map fst networks) as Hfresh1.
        { intros Hin. apply Hfresh. cbn [map fst]. apply elem_of_cons.
          by right. }
        rewrite filter_app, (IH Hfresh1 df1 eq_refl), app_nil_r.
        apply filter_Forall_nil.
        eapply Forall_impl; [apply data_frame_network|].
        intros row -> ->. apply Hfresh. cbn [map fst]. apply elem_of_cons.
        by left.
    + rewrite filter_app, (Hsel k G levels Hin Hlv).
      rewrite filter_Forall_nil; [done|].
      eapply Forall_impl; [apply data_frame_network|].
      intros row Hrow Hk. apply Hfresh. apply list_elem_of_fmap.
      exists (k, G). split; [simpl; congruence|done].
Qed.

Lemma farthest_distance (fuel : nat)
    (networks : list (string * Graph)) :
  NoDup (map fst networks) →
  Forall (λ kg, adj_closed kg.2 ∧ 0 ∈ dom kg.2 ∧ size (dom kg.2) ≤ fuel)
         networks →
  ∃ df, df_all fuel networks = Some df ∧
    ∀ k G, (k, G) ∈ networks →
      ∃ D, final_steps df k = Some D ∧
        (∃ v, dist G 0 v D) ∧
        (∀ v d, dist G 0 v d → d ≤ D) ∧
        D < size (dom G).
Proof.
  intros Hnd Hall.
  destruct (df_all_select fuel networks Hnd) as (df & Hdf & Hsel).
  { eapply Forall_impl; [exact Hall|]. intros [k G] (Hc & Hs & Hf). simpl in *.
    destruct (spread_result_spec G fuel Hc Hs Hf) as (Pf & final & Hsp & _).
    by eexists. }
  exists df. split; [done|]. intros k G Hin.
  rewrite Forall_forall in Hall. destruct (Hall _ Hin) as (Hc & Hs & Hf).
  simpl in Hc, Hs, Hf.
  destruct (spread_result_spec G fuel Hc Hs Hf)
    as (Pf & final & Hsp & Hinv & Hq & Hr & Hlen).
  set (ds := map snd Pf) in *.
  assert (0 ∈ ds) as H0.
  { unfold ds. apply list_elem_of_fmap. exists (0, 0). split; [done|].
    by eapply final_start. }
  pose proof (hist_depth_bound ds 0 Hr H0) as Hpos.
  exists (pred (length (hist ds))). split_and!.
  - unfold final_steps. rewrite (Hsel k G (hist ds) Hin Hsp).
    apply data_frame_last; [by apply hist_keys_seq|done].
  - destruct (hist_values_lookup ds (pred (length (hist ds))) Hr) as [_ Hocc];
      [lia|].
    destruct (final_layer G 0 Pf final (pred (length (hist ds))) Hinv Hq)
      as (X & HX & HXd).
    fold ds in HX. rewrite <- HX in Hocc.
    apply size_pos_elem_of in Hocc as [v Hv]. exists v. by apply HXd.
  - intros v d Hd. pose proof Hd as [Hw _].
    destruct (final_covers G 0 Pf final Hinv Hq d v Hw) as (e & He & _).
    pose proof (final_dist G 0 Pf final Hinv Hq v e He) as Hde.
    rewrite (dist_unique _ _ _ _ _ Hd Hde).
    assert (e ∈ ds) as Heds.
    { unfold ds. apply list_elem_of_fmap. by exists (v, e). }
    pose proof (hist_depth_bound ds e Hr Heds). lia.
  - pose proof (positive_length_le_sum _ (hist_positive ds)) as Hle.
    rewrite hist_sum in Hle. unfold values in Hle.
    rewrite length_map in Hle. unfold ds in Hle at 2.
    rewrite length_map in Hle. lia.
Qed.

(** X4.  For a dict of well-formed graphs that all have node 0, every
    histogram is computed, and the value reported for a network as its
    "Steps to Reach Everyone" is the greatest distance from node 0 to a node
    reachable from it: some node is that far, none that is reachable is
    farther, and the value is below the number of nodes.  Nodes that are
    not reachable from node 0 do not count. *)
Theorem final_steps_is_farthest_distance (fuel : nat)
    (networks : list (string * Graph)) :
  NoDup (map fst networks) →
  Forall (λ kg, adj_closed kg.2 ∧ 0 ∈ dom kg.2 ∧ size (dom kg.2) ≤ fuel)
         networks →
  ∃ df, df_all fuel networks = Some df ∧
    ∀ k G, (k, G) ∈ networks →
      ∃ D, final_steps df k = Some D ∧
        (∃ v, dist G 0 v D) ∧
        (∀ v d, dist G 0 v d → d ≤ D) ∧
        D < size (dom G).
Proof. apply farthest_distance. Qed.

(** ** The animation loop *)

Lemma yields_cons G st X snaps :
  yields G st (X :: snaps) →
  ∃ st', gen_next G st = Yield X st' ∧ yields G st' snaps.
Proof.
  intros Hy. pose proof (Hy 1) as H1. cbn [pulls take] in H1.
  destruct (gen_next G st) as [Y st'| |] eqn:Hnext; [|done..].
  assert (Y = X) as -> by congruence. exists st'. split; [done|].
  intros n. pose proof (Hy (S n)) as Hn. cbn [pulls take length] in Hn.
  rewrite Hnext in Hn. destruct (pulls n G st') as [ss e].
  assert (ss = take n snaps) as -> by congruence.
  assert (e = if decide (S n ≤ S (length snaps)) then Suspended else Exhausted)
    as -> by congruence.
  f_equal.
  destruct (decide (S n ≤ S (length snaps))), (decide (n ≤ length snaps));
    (done || lia).
Qed.

Lemma yields_nil G st : yields G st [] → gen_next G st = StopIteration.
Proof.
  intros Hy. pose proof (Hy 1) as H1. cbn [pulls take length] in H1.
  destruct (gen_next G st) as [Y st'| |] eqn:Hnext; [|done|done].
  by destruct (pulls 0 G st').
Qed.

Lemma next_frame_spec G st snaps t :
  yields G st (drop t snaps) →
  ∃ st', next_frame G st
         = Some (shown G snaps t, st', bool_decide (t < length snaps)) ∧
         yields G st' (drop (S t) snaps).
Proof.
  intros Hy. unfold next_frame, shown.
  destruct (snaps !! t) as [X|] eqn:Ht.
  - pose proof (lookup_lt_Some _ _ _ Ht) as Hlt.
    rewrite (drop_S _ _ _ Ht) in Hy.
    destruct (yields_cons _ _ _ _ Hy) as (st' & -> & Hy').
    exists st'. by rewrite bool_decide_eq_true_2.
  - pose proof Ht as Hge. apply lookup_ge_None in Hge.
    rewrite drop_ge in Hy by done. rewrite (yields_nil _ _ Hy).
    exists st. rewrite bool_decide_eq_false_2 by lia. split; [done|].
    by rewrite drop_ge by lia.
Qed.

Lemma longest_cons spec specs :
  longest (spec :: specs) = length spec.2 `max` longest specs.
Proof. done. Qed.

Lemma pass_spec t nets specs :
  tracks t nets specs →
  ∃ nets', animate_pass nets
           = (pass_frames specs t,
              Some (nets', bool_decide (t < longest specs))) ∧
           tracks (S t) nets' specs.
Proof.
  induction 1 as [|[[key G] st] [[key' G'] snaps] nets specs [Heq Hy] Hrest IH].
  - exists []. split; [|constructor]. cbn [animate_pass pass_frames map].
    by rewrite bool_decide_eq_false_2 by (unfold longest; simpl; lia).
  - simpl in Heq, Hy. injection Heq as <- <-.
    destruct (next_frame_spec G st snaps t Hy) as (st' & Hnext & Hy').
    destruct IH as (nets' & Hpass & Htr).
    exists ((key, G, st') :: nets'). split.
    + cbn [animate_pass]. rewrite Hnext, Hpass. cbn [pass_frames map fst snd].
      do 3 f_equal. rewrite longest_cons. cbn [snd].
      repeat case_bool_decide; simpl; (done || lia).
    + constructor; [|done]. done.
Qed.

Lemma steps_spec k t nets specs :
  tracks t nets specs →
  ∃ nets', animate_steps k nets
           = (seq t k ≫= pass_frames specs,
              Some (nets', bool_decide (0 < k ∧ t < longest specs))) ∧
           tracks (t + k) nets' specs.
Proof.
  revert t nets. induction k as [|k IH]; intros t nets Htr.
  - exists nets. split.
    + cbn [animate_steps seq]. by rewrite bool_decide_eq_false_2 by lia.
    + by rewrite Nat.add_0_r.
  - destruct (pass_spec t nets specs Htr) as (nets1 & Hpass & Htr1).
    destruct (IH (S t) nets1 Htr1) as (nets' & Hsteps & Htr').
    exists nets'. split.
    + cbn [animate_steps seq]. rewrite Hpass, Hsteps, bind_cons.
      do 3 f_equal.
      repeat case_bool_decide; simpl; (done || lia).
    + by replace (t + S k) with (S t + k) by lia.
Qed.

Lemma animate_S fuel nets :
  animate (S fuel) nets
  = match animate_steps 5 nets with
    | (frames, None) => (frames, Raised)
    | (frames, Some (nets', moved)) =>
        if moved then
          let '(frames', e) := animate fuel nets' in (frames ++ frames', e)
        else (frames, Exhausted)
    end.
Proof. done. Qed.

Lemma animate_spec r extra t nets specs :
  tracks t nets specs →
  longest specs ≤ t + 5 * r →
  (0 < r → t + 5 * (r - 1) < longest specs) →
  animate (S r + extra) nets
  = (seq t (5 * S r) ≫= pass_frames specs, Exhausted).
Proof.
  revert t nets. induction r as [|r IH]; intros t nets Htr Hup Hlow.
  - destruct (steps_spec 5 t nets specs Htr) as (nets' & Hsteps & _).
    change (1 + extra) with (S extra). rewrite animate_S, Hsteps.
    by rewrite bool_decide_eq_false_2 by lia.
  - destruct (steps_spec 5 t nets specs Htr) as (nets' & Hsteps & Htr').
    change (S (S r) + extra) with (S (S r + extra)).
    rewrite animate_S, Hsteps.
    rewrite bool_decide_eq_true_2 by lia.
    rewrite (IH (t + 5) nets' Htr') by lia.
    replace (5 * S (S r)) with (5 + 5 * S r) by lia.
    by rewrite seq_app, bind_app.
Qed.

Lemma bfs_generator_yields G start sts Pf :
  completes G [] (spread_from start) sts Pf →
  yields G (bfs_generator start) (map s_visited sts).
Proof.
  intros Hrun n.
  rewrite (pulls_completes G _ _ _ _ _ n Hrun (sim_init start)).
  by rewrite fmap_take, length_map.
Qed.

Lemma bfs_gens_streams networks :
  Forall (λ kg : string * Graph, adj_closed kg.2 ∧ 0 ∈ dom kg.2) networks →
  ∃ specs,
    Forall2 (λ (kg : string * Graph) (spec : string * Graph * list (gset nat)),
               spec.1 = kg ∧ 1 ≤ length spec.2 ≤ size (dom kg.2) ∧
               yields kg.2 (bfs_generator 0) spec.2)
            networks specs.
Proof.
  induction 1 as [|[key G] networks [Hc H0] _ (specs & IH)].
  - exists []. constructor.
  - simpl in Hc, H0.
    destruct (traversal_completes G 0 Hc H0) as (sts & Pf & Hrun & Hlen & Hb).
    exists ((key, G, map s_visited sts) :: specs). constructor; [|done].
    cbn [fst snd]. rewrite length_map. split_and!; [done|lia..|].
    by apply (bfs_generator_yields G 0 sts Pf).
Qed.

Lemma bfs_gens_tracks networks specs :
  Forall2 (λ (kg : string * Graph) (spec : string * Graph * list (gset nat)),
             spec.1 = kg ∧ 1 ≤ length spec.2 ≤ size (dom kg.2) ∧
             yields kg.2 (bfs_generator 0) spec.2)
          networks specs →
  tracks 0 (bfs_gens networks) specs.
Proof.
  induction 1 as [|[key G] [[key' G'] snaps] networks specs (Heq & _ & Hy) _ IH].
  - constructor.
  - cbn [fst snd] in Heq, Hy. injection Heq as -> ->.
    cbn [bfs_gens map]. constructor; [|exact IH]. done.
Qed.

Lemma longest_bound networks specs b :
  Forall2 (λ (kg : string * Graph) (spec : string * Graph * list (gset nat)),
             spec.1 = kg ∧ 1 ≤ length spec.2 ≤ size (dom kg.2) ∧
             yields kg.2 (bfs_generator 0) spec.2)
          networks specs →
  Forall (λ kg : string * Graph, size (dom kg.2) ≤ b) networks →
  longest specs ≤ b.
Proof.
  induction 1 as [|kg spec networks specs (_ & Hlen & _) _ IH]; intros Hb.
  - unfold longest. simpl. lia.
  - apply Forall_cons in Hb as [Hb1 Hb2]. rewrite longest_cons.
    specialize (IH Hb2). lia.
Qed.

Lemma animate_run fuel networks specs :
  tracks 0 (bfs_gens networks) specs →
  (longest specs + 4) / 5 < fuel →
  animate fuel (bfs_gens networks)
  = (seq 0 (5 * ((longest specs + 4) / 5 + 1)) ≫= pass_frames specs,
     Exhausted).
Proof.
  intros Htr Hfuel.
  set (r := (longest specs + 4) / 5) in *.
  assert (5 * r ≤ longest specs + 4 < 5 * r + 5) as Hr.
  { unfold r. pose proof (Nat.div_mod_eq (longest specs + 4) 5).
    pose proof (Nat.mod_upper_bound (longest specs + 4) 5). lia. }
  replace fuel with (S r + (fuel - S r)) by lia.
  replace (r + 1) with (S r) by lia.
  apply animate_spec; [done|lia..].
Qed.

Lemma yields_exhausted G st snaps n :
  yields G st snaps → length snaps < n → pulls n G st = (snaps, Exhausted).
Proof.
  intros Hy Hn. rewrite (Hy n), take_ge by lia.
  by rewrite decide_False by lia.
Qed.

Lemma pass_frames_done networks specs t :
  Forall2 (λ (kg : string * Graph) (spec : string * Graph * list (gset nat)),
             spec.1 = kg ∧ 1 ≤ length spec.2 ≤ size (dom kg.2) ∧
             yields kg.2 (bfs_generator 0) spec.2)
          networks specs →
  longest specs ≤ t →
  pass_frames specs t = map (λ kg, (kg.1, dom kg.2)) networks.
Proof.
  induction 1 as [|[key G] [[key' G'] snaps] networks specs (Heq & _) _ IH];
    intros Ht; [done|].
  cbn [fst snd] in Heq. injection Heq as -> ->.
  rewrite longest_cons in Ht. cbn [snd] in Ht.
  cbn [pass_frames map fst snd]. f_equal.
  - unfold shown. by rewrite lookup_ge_None_2 by lia.
  - apply IH. lia.
Qed.

Lemma frames_done networks specs t k :
  Forall2 (λ (kg : string * Graph) (spec : string * Graph * list (gset nat)),
             spec.1 = kg ∧ 1 ≤ length spec.2 ≤ size (dom kg.2) ∧
             yields kg.2 (bfs_generator 0) spec.2)
          networks specs →
  longest specs ≤ t →
  seq t k ≫= pass_frames specs
  = concat (replicate k (map (λ kg, (kg.1, dom kg.2)) networks)).
Proof.
  intros Hsp. revert t. induction k as [|k IH]; intros t Ht; [done|].
  cbn [seq replicate concat]. rewrite bind_cons.
  rewrite (pass_frames_done networks specs t Hsp Ht). f_equal.
  apply IH. lia.
Qed.

(** X5.  The animation loop, run on generators started at node 0 of
    graphs that contain node 0 and list only their own nodes, ends after
    [(L + 4) / 5 + 1] rounds of five passes, where [L] is the length of
    the longest snapshot stream.  Pass [t] draws one frame per network,
    in dictionary order: the network's [t]-th snapshot while it has one,
    and the set of all its nodes from then on. *)
Theorem animation_draws_snapshots_then_all_nodes
    (fuel : nat) (networks : list (string * Graph)) :
  0 < fuel →
  Forall (λ kg : string * Graph,
            adj_closed kg.2 ∧ 0 ∈ dom kg.2 ∧ size (dom kg.2) + 4 < 5 * fuel)
         networks →
  ∃ specs : list (string * Graph * list (gset nat)),
    Forall2 (λ kg spec,
               spec.1 = kg ∧
               ∀ n, size (dom kg.2) < n →
                    pulls n kg.2 (bfs_generator 0) = (spec.2, Exhausted))
            networks specs ∧
    animate fuel (bfs_gens networks)
    = (seq 0 (5 * ((longest specs + 4) / 5 + 1)) ≫= pass_frames specs,
       Exhausted).
Proof.
  intros Hfuel Hnets.
  destruct (bfs_gens_streams networks) as [specs Hsp].
  { eapply Forall_impl; [exact Hnets|]. naive_solver. }
  exists specs. split.
  - eapply Forall2_impl; [exact Hsp|].
    intros kg spec (Heq & Hlen & Hy). split; [done|].
    intros n Hn. apply yields_exhausted; [done|lia].
  - apply animate_run; [by apply bfs_gens_tracks|].
    assert (longest specs ≤ 5 * fuel - 5) as Hl.
    { apply (longest_bound networks); [done|].
      eapply Forall_impl; [exact Hnets|]. simpl. intros kg (_ & _ & Hb). lia. }
    pose proof (Nat.div_mod_eq (longest specs + 4) 5).
    pose proof (Nat.mod_upper_bound (longest specs + 4) 5). lia.
Qed.

(** X6.  Under the same conditions the last round of the animation loop
    consists of five passes that draw every network with all of its nodes
    as visited, whether or not the traversal reached them. *)
Theorem animation_ends_with_every_node_drawn
    (fuel : nat) (networks : list (string * Graph)) :
  0 < fuel →
  Forall (λ kg : string * Graph,
            adj_closed kg.2 ∧ 0 ∈ dom kg.2 ∧ size (dom kg.2) + 4 < 5 * fuel)
         networks →
  ∃ earlier,
    animate fuel (bfs_gens networks)
    = (earlier ++ concat (replicate 5 (map (λ kg, (kg.1, dom kg.2)) networks)),
       Exhausted).
Proof.
  intros Hfuel Hnets.
  destruct (bfs_gens_streams networks) as [specs Hsp].
  { eapply Forall_impl; [exact Hnets|]. naive_solver. }
  assert (longest specs ≤ 5 * fuel - 5) as Hl.
  { apply (longest_bound networks); [done|].
    eapply Forall_impl; [exact Hnets|]. simpl. intros kg (_ & _ & Hb). lia. }
  set (r := (longest specs + 4) / 5).
  assert (5 * r ≤ longest specs + 4 < 5 * r + 5) as Hr.
  { unfold r. pose proof (Nat.div_mod_eq (longest specs + 4) 5).
    pose proof (Nat.mod_upper_bound (longest specs + 4) 5). lia. }
  exists (seq 0 (5 * r) ≫= pass_frames specs).
  rewrite (animate_run fuel networks specs);
    [|by apply bfs_gens_tracks|fold r; lia].
  fold r. replace (5 * (r + 1)) with (5 * r + 5) by lia.
  rewrite seq_app, bind_app. do 2 f_equal.
  apply frames_done; [done|]. lia.
Qed.

Lemma first_snapshot G :
  0 ∈ dom G →
  ∃ st', gen_next G (bfs_generator 0) = Yield ({[0]} ∪ nbr_set G 0) st'.
Proof.
  intros [ns Hns]%elem_of_dom. unfold gen_next, bfs_generator, neighbors.
  cbn [queue visited]. rewrite Hns, expand_fresh. eexists. f_equal.
  unfold nbr_set. rewrite Hns. cbn [default]. apply set_eq. intros x.
  rewrite !elem_of_union, !elem_of_list_to_set, fresh_elem.
  destruct (decide (x ∈ ({[0]} : gset nat))); naive_solver.
Qed.

Lemma animate_pass_raises before key G after :
  Forall (λ kg : string * Graph, 0 ∈ dom kg.2) before → 0 ∉ dom G →
  animate_pass (bfs_gens (before ++ (key, G) :: after))
  = (map (λ kg, (kg.1, {[0]} ∪ nbr_set kg.2 0)) before, None).
Proof.
  intros Hbefore HG. induction Hbefore as [|[key' G'] before H0 _ IH].
  - cbn [app bfs_gens map animate_pass]. unfold next_frame, gen_next.
    cbn [bfs_generator queue]. unfold neighbors.
    apply not_elem_of_dom in HG. by rewrite HG.
  - cbn [snd] in H0. destruct (first_snapshot G' H0) as [st' Hst].
    change (bfs_gens (((key', G') :: before) ++ (key, G) :: after))
      with ((key', G', bfs_generator 0)
            :: bfs_gens (before ++ (key, G) :: after)).
    cbn [animate_pass]. unfold next_frame. rewrite Hst, IH. done.
Qed.

(** X7.  The animation loop catches [StopIteration] only.  When a graph
    of the dictionary lacks node 0, the first pass draws the first
    snapshot (node 0 and its neighbours) of each network before it, and
    then the library's error ends the loop. *)
Theorem animation_raises_at_network_without_node_0
    (fuel : nat) (before after : list (string * Graph))
    (key : string) (G : Graph) :
  Forall (λ kg : string * Graph, 0 ∈ dom kg.2) before → 0 ∉ dom G →
  animate (S fuel) (bfs_gens (before ++ (key, G) :: after))
  = (map (λ kg, (kg.1, {[0]} ∪ nbr_set kg.2 0)) before, Raised).
Proof.
  intros Hbefore HG. rewrite animate_S.
  change 5 with (S 4). cbn [animate_steps].
  by rewrite (animate_pass_raises before key G after Hbefore HG).
Qed.

(** ** The colours of a frame *)

(** X8.  [plot_graph] gives every node of the graph one colour, and for a
    duplicate-free node list the number of highlighted nodes is the number
    of members of [visited] that are nodes of the graph: members of
    [visited] that are no nodes are ignored. *)
Theorem node_colors_highlight_visited_nodes
    (nodes : list nat) (visited : gset nat) :
  NoDup nodes →
  length (node_colors nodes visited) = length nodes ∧
  length (filter (λ c, c = "#00BFFF") (node_colors nodes visited))
  = size (visited ∩ list_to_set nodes).
Proof.
  intros Hnd. split; [apply length_map|].
  induction Hnd as [|a nodes Ha Hnd IH].
  - cbn. replace (visited ∩ (∅ : gset nat)) with (∅ : gset nat) by set_solver.
    by rewrite size_empty.
  - cbn [node_colors map list_to_set]. fold (node_colors nodes visited).
    destruct (decide (a ∈ visited)) as [Hin|Hout].
    + rewrite filter_cons_True by done. cbn [length]. rewrite IH.
      replace (visited ∩ ({[a]} ∪ list_to_set nodes))
        with ({[a]} ∪ visited ∩ list_to_set nodes : gset nat) by set_solver.
      rewrite (size_union {[a]} (visited ∩ list_to_set nodes)) by set_solver.
      by rewrite size_singleton.
    + rewrite filter_cons_False by done. rewrite IH. f_equal. set_solver.
Qed.

(** ** More about the graphs that are built *)

Lemma nbr_set_edge G x y : y ∈ nbr_set G x ↔ edge G x y.
Proof.
  unfold nbr_set, edge. destruct (G !! x) as [ns|]; cbn [default].
  - rewrite elem_of_list_to_set. naive_solver.
  - set_solver.
Qed.

Lemma adj_len_size n G x : simple_on n G → adj_len G x = size (nbr_set G x).
Proof.
  intros HG. unfold adj_len, nbr_set.
  destruct (G !! x) as [ns|] eqn:Hx; cbn [default].
  - symmetry. apply size_list_to_set. by apply (so_nodup _ _ HG x).
  - by rewrite list_to_set_nil, size_empty.
Qed.

Lemma size_le_add_one (A B : gset nat) a :
  A ⊆ B ∪ {[a]} → size A ≤ size B + 1.
Proof.
  intros Hsub. apply subseteq_size in Hsub.
  rewrite size_union_alt in Hsub.
  assert (size ({[a]} ∖ B : gset nat) ≤ 1) as Hone.
  { rewrite <- (size_singleton (C := gset nat) a). apply subseteq_size.
    set_solver. }
  lia.
Qed.

Lemma size_le_swap (A B : gset nat) a w :
  A ⊆ B ∖ {[w]} ∪ {[a]} → w ∈ B → size A ≤ size B.
Proof.
  intros Hsub Hw. apply size_le_add_one in Hsub.
  assert (size B = size (B ∖ {[w]}) + 1) as ->; [|done].
  rewrite <- (size_singleton (C := gset nat) w).
  rewrite <- size_union by set_solver. f_equal. apply set_eq. intros x.
  rewrite elem_of_union, elem_of_difference, elem_of_singleton.
  destruct (decide (x = w)); naive_solver.
Qed.

Lemma filter_at_most_one {A} (P : A → Prop) `{∀ x, Decision (P x)} (l : list A) :
  NoDup l → (∀ a b, a ∈ l → b ∈ l → P a → P b → a = b) →
  length (filter P l) ≤ 1.
Proof.
  intros Hnd Huniq. pose proof (NoDup_filter P l Hnd) as Hnd'.
  assert (∀ a, a ∈ filter P l → a ∈ l ∧ P a) as Hin.
  { intros a Ha. apply list_elem_of_filter in Ha. tauto. }
  destruct (filter P l) as [|a [|b rest]]; cbn [length]; [lia..|].
  exfalso. apply NoDup_cons in Hnd' as [Hfresh _]. apply Hfresh.
  destruct (Hin a) as [? ?]; [by left|].
  destruct (Hin b) as [? ?]; [right; by left|].
  replace a with b by (symmetry; by apply Huniq). by left.
Qed.

Lemma ring_pass_nodup n j : j ≤ n → NoDup (ring_pass n j).
Proof.
  intros Hj. rewrite ring_pass_map by done.
  apply (NoDup_fmap_1 fst).
  assert (∀ l : list nat, fst <$> map (λ u, (u, (u + j) mod n)) l = l) as ->.
  { induction l as [|a l IH]; [done|]. simpl. f_equal. exact IH. }
  apply NoDup_seq.
Qed.

Lemma incoming_ring_pass n j x : j ≤ n → incoming x (ring_pass n j) ≤ 1.
Proof.
  intros Hj. unfold incoming.
  apply filter_at_most_one; [by apply ring_pass_nodup|].
  intros [a a'] [b b'] Ha Hb. cbn [snd]. intros -> ->.
  apply ring_pass_elem in Ha as [Ha Hax]; [|done].
  apply ring_pass_elem in Hb as [Hb Hbx]; [|done].
  f_equal. rewrite Hax in Hbx. rewrite !mod_wrap in Hbx by done.
  repeat case_decide; lia.
Qed.

Lemma incoming_passes n js x :
  Forall (λ j, j ≤ n) js → incoming x (js ≫= ring_pass n) ≤ length js.
Proof.
  induction 1 as [|j js Hj _ IH]; [done|].
  rewrite bind_cons. unfold incoming in *.
  rewrite filter_app, length_app. cbn [length].
  pose proof (incoming_ring_pass n j x Hj) as H1. unfold incoming in H1. lia.
Qed.

Lemma incoming_ring_pairs n k x : k ≤ n → incoming x (ring_pairs n k) ≤ k / 2.
Proof.
  intros Hk. assert (k / 2 ≤ n) as Hh.
  { pose proof (Nat.Div0.mul_div_le k 2). lia. }
  unfold ring_pairs.
  transitivity (length (seq 1 (k / 2))); [|by rewrite length_seq].
  apply incoming_passes. apply Forall_forall. intros j Hjs.
  apply elem_of_seq in Hjs. lia.
Qed.

Section BuilderFacts.
Context {R : Type} `{RandomSource R}.

Lemma rewire_edge_degrees fuel n p u v G (r : R) G' r' x :
  0 < n → simple_on n G → edge G u v →
  rewire_edge fuel n p (seq 0 n) u v G r = Ok (G', r') →
  adj_len G x ≤ adj_len G' x + (if decide (x = v) then 1 else 0).
Proof.
  intros Hn HG He. unfold rewire_edge.
  destruct (random r) as [q r1]. destruct (Qlt_le_dec q p) as [_|_].
  2: { intros [= <- <-]. lia. }
  pose proof (choice_range r1 n Hn) as Hw.
  destruct (choice r1 (seq 0 n)) as [w r2]. simpl in Hw.
  destruct (pick_target fuel G (seq 0 n) n u w r2) as [w' r3|r3|] eqn:Hpick.
  - apply pick_target_spec in Hpick as (Hw' & Hne & Hnew); [|done..].
    destruct (simple_remove n G u v HG He) as (G1 & -> & HG1 & Hchar1 & Htot1).
    assert (u < n) as Hu.
    { apply (so_dom _ _ HG). destruct He as (ns & -> & _). done. }
    destruct (simple_add n G1 u w' HG1 Hu Hw') as (HG2 & Hchar2 & Htot2);
      [done| |].
    { rewrite Hchar1. tauto. }
    intros [= <- <-].
    rewrite (adj_len_size n G x HG), (adj_len_size n _ x HG2).
    assert (u ≠ v) as Huv.
    { intros ->. by apply (so_loop _ _ HG v). }
    destruct (decide (x = v)) as [->|Hxv].
    + apply (size_le_add_one _ _ u). intros y Hy. apply nbr_set_edge in Hy.
      rewrite elem_of_union, elem_of_singleton, nbr_set_edge, Hchar2, Hchar1.
      destruct (decide (y = u)); [tauto|]. left. left.
      split_and!; [done|intros [? ?]; congruence..].
    + rewrite Nat.add_0_r. destruct (decide (x = u)) as [->|Hxu].
      * apply (size_le_swap _ _ v w').
        -- intros y Hy. apply nbr_set_edge in Hy.
           rewrite elem_of_union, elem_of_difference, !elem_of_singleton,
             nbr_set_edge, Hchar2, Hchar1.
           destruct (decide (y = v)); [tauto|]. left. split.
           ++ left. split_and!; [done|intros [? ?]; congruence..].
           ++ intros ->. contradiction.
        -- apply nbr_set_edge, Hchar2. tauto.
      * apply subseteq_size. intros y Hy. apply nbr_set_edge in Hy.
        apply nbr_set_edge, Hchar2. left. apply Hchar1.
        split_and!; [done|intros [? ?]; congruence..].
  - intros [= <- <-]. lia.
  - intros [=].
Qed.

Lemma rewire_edges_min_degree fuel n p es G (r : R) G' r' x h :
  0 < n → simple_on n G →
  (∀ a b, (a, b) ∈ es → edge G a b) → NoDup (map norm es) →
  rewire_edges fuel n p (seq 0 n) es G r = Ok (G', r') →
  h + incoming x es ≤ adj_len G x → h ≤ adj_len G' x.
Proof.
  intros Hn. revert G r.
  induction es as [|[u v] es IH]; intros G r HG Hes Hnd; cbn [rewire_edges].
  - intros [= <- <-] Hh. lia.
  - apply NoDup_cons in Hnd as [Hfresh Hnd].
    assert (edge G u v) as He by (apply Hes; apply elem_of_cons; tauto).
    destruct (rewire_edge_spec fuel n p u v G r Hn HG He) as [Hok Hstep].
    destruct (rewire_edge fuel n p (seq 0 n) u v G r) as [[G1 r1]| |] eqn:Hre;
      try done.
    destruct (Hstep G1 r1 eq_refl) as (HG1 & Htot1 & Hkeep).
    pose proof (rewire_edge_degrees fuel n p u v G r G1 r1 x Hn HG He Hre)
      as Hdeg.
    intros Hrun Hh. apply (IH G1 r1 HG1); [|done|exact Hrun|].
    { intros a b Hab. apply Hkeep.
      - apply Hes. apply elem_of_cons. tauto.
      - intros [-> ->]. apply Hfresh. apply list_elem_of_fmap. by exists (u, v).
      - intros [-> ->]. apply Hfresh. apply list_elem_of_fmap. exists (v, u).
        by rewrite norm_swap. }
    unfold incoming in *. destruct (decide (x = v)) as [->|Hxv].
    + rewrite filter_cons_True in Hh by done. cbn [length] in Hh. lia.
    + rewrite filter_cons_False in Hh by (cbn [snd]; congruence). lia.
Qed.

Lemma degree_below n G x : simple_on n G → x < n → adj_len G x ≤ n - 1.
Proof.
  intros HG Hx. rewrite (adj_len_size n G x HG).
  transitivity (size (list_to_set (seq 0 n) ∖ {[x]} : gset nat)).
  - apply subseteq_size. intros y Hy. apply nbr_set_edge in Hy.
    rewrite elem_of_difference, elem_of_list_to_set, elem_of_seq,
      elem_of_singleton.
    split.
    + pose proof (so_range _ _ HG x y Hy). lia.
    + intros ->. by apply (so_loop _ _ HG x).
  - rewrite size_difference.
    + rewrite size_list_to_set by apply NoDup_seq.
      by rewrite length_seq, size_singleton.
    + intros y ->%elem_of_singleton.
      rewrite elem_of_list_to_set, elem_of_seq. lia.
Qed.

(** X9.  When the population exceeds the chosen degree, the three graphs
    of the [networks] dictionary are simple undirected graphs on the same
    nodes [0 .. nodes-1]: neighbours are nodes, no neighbour is listed
    twice, adjacency is mutual and no node is its own neighbour.  Each has
    [nodes * (neighbours // 2)] edges, also for an odd degree. *)
Theorem networks_are_simple_graphs_of_equal_size
    (fuel nodes neighbours : nat) (randomness : Q) (seed : R)
    (regular small_world rand : Graph) :
  neighbours < nodes →
  networks fuel nodes neighbours randomness seed
  = Ok (regular, small_world, rand) →
  Forall (λ G, graph_ok G ∧ loop_free G ∧ (∀ u, u ∈ dom G ↔ u < nodes) ∧
               number_of_edges G = nodes * (neighbours / 2))
         [regular; small_world; rand].
Proof.
  intros Hk Hnets.
  destruct (networks_spec fuel nodes neighbours randomness seed _ _ _ Hk Hnets)
    as [_ Hall].
  eapply Forall_impl; [exact Hall|]. intros G [HG Htot].
  destruct (simple_graph_ok nodes G HG). split_and!; [done..| |].
  - intros u. by apply simple_dom.
  - rewrite (simple_number_of_edges nodes G HG), Htot.
    rewrite Nat.mul_comm. apply Nat.div_mul. lia.
Qed.

(** X10.  Whatever the rewiring probability and the random source, every
    node of a graph returned by [watts_strogatz_graph] for [k < n] keeps
    at least [k // 2] neighbours, and has at most [n - 1]: rewiring
    replaces the far end of an edge, never the near one. *)
Theorem rewiring_keeps_half_of_each_degree
    (fuel n k : nat) (p : Q) (seed : R) (G : Graph) (r : R) :
  k < n → watts_strogatz_graph fuel n k p seed = Ok (G, r) →
  ∀ x, x < n → k / 2 ≤ degree G x ≤ n - 1.
Proof.
  intros Hk HGr x Hx.
  destruct (watts_strogatz_graph_simple fuel n k p seed Hk) as [_ Hres].
  destruct (Hres G r HGr) as [HG _].
  rewrite (simple_degree n G x HG). split; [|by apply degree_below].
  revert HGr. unfold watts_strogatz_graph.
  rewrite decide_False by lia. rewrite decide_False by lia.
  rewrite rewire_rings_bind. fold (ring_pairs n k). intros HGr.
  destruct (ring_lattice_simple n k Hk) as (HG0 & Hchar & Htot).
  apply (rewire_edges_min_degree fuel n p (ring_pairs n k) (ring_lattice n k)
           seed G r x (k / 2)); [lia|done| |by apply ring_pairs_nodup|done|].
  { intros a b Hab. apply Hchar. by left. }
  pose proof (incoming_ring_pairs n k x ltac:(lia)) as Hin.
  destruct (ring_lattice_adj n k x Hk Hx) as (ns & _ & _ & _ & Hdeg).
  rewrite (simple_degree n _ x HG0) in Hdeg. lia.
Qed.

Lemma ring_lattice_walk n k v :
  2 ≤ k → k < n → v < n → walk (ring_lattice n k) 0 v v.
Proof.
  intros Hk2 Hk. induction v as [|v IH]; intros Hv; [constructor|].
  apply (walk_step _ _ _ v); [apply IH; lia|].
  destruct (ring_lattice_simple n k Hk) as (_ & Hchar & _).
  apply Hchar. left. apply ring_pairs_elem; [lia|]. split; [lia|].
  exists 1. split.
  - assert (2 * 1 ≤ k) as Hle by lia.
    pose proof (Nat.div_le_lower_bound k 2 1 ltac:(lia) Hle). lia.
  - rewrite Nat.mod_small by lia. lia.
Qed.

(** X11.  The Regular network is connected whenever the degree is at
    least 2: every node can be reached from node 0, so the counts of
    [bfs_spread] add up to the whole population and the last snapshot of
    [bfs_generator] is the set of all nodes. *)
Theorem regular_network_is_connected (fuel n k : nat) (seed : R) :
  2 ≤ k → k < n →
  ∃ G r levels snaps,
    watts_strogatz_graph fuel n k 0 seed = Ok (G, r) ∧
    (∀ v, v < n → reach G 0 v) ∧
    bfs_spread n G = Levels levels ∧ sum_list (values levels) = n ∧
    pulls (S n) G (bfs_generator 0) = (snaps, Exhausted) ∧
    last snaps = Some (dom G).
Proof.
  intros Hk2 Hk.
  destruct (watts_strogatz_graph_zero fuel n k seed Hk) as [r Hr].
  destruct (ring_lattice_simple n k Hk) as (HG & _ & _).
  destruct (simple_graph_ok n _ HG) as [(Hc & _ & _) _].
  pose proof (simple_size_dom n _ HG) as Hsize.
  assert (0 ∈ dom (ring_lattice n k)) as H0.
  { apply (simple_dom n _ 0 HG). lia. }
  assert (∀ v, v < n → reach (ring_lattice n k) 0 v) as Hreach.
  { intros v Hv. exists v. by apply ring_lattice_walk. }
  destruct (traversals_run (ring_lattice n k) 0 n (S n) Hc H0)
    as (sts & Pf & final & Hrun & Hlast & Hinv & Hq & Hlen & Hb & Hloop & Hpulls);
    [lia..|].
  assert (s_visited final = dom (ring_lattice n k)) as Hall.
  { apply set_eq. intros v.
    rewrite (final_reach _ _ _ _ Hinv Hq v), (simple_dom n _ v HG).
    split; [|by apply Hreach].
    intros [d Hd]. apply (simple_dom n _ v HG). by apply (walk_dom _ 0 d). }
  exists (ring_lattice n k), r, (hist (map snd Pf)), (map s_visited sts).
  split_and!; [done|done|done| |done|].
  - rewrite hist_sum, length_map.
    rewrite <- (final_size _ _ _ _ Hinv Hq), Hall. done.
  - rewrite fmap_last, Hlast. cbn. by rewrite Hall.
Qed.

End BuilderFacts.

(** ** Distances in the regular network *)

Lemma ceil_div_le c h l : 0 < h → (c + h - 1) / h ≤ l ↔ c ≤ l * h.
Proof.
  intros Hh. split.
  - intros Hle. destruct (decide (c ≤ l * h)) as [|Hgt]; [done|]. exfalso.
    assert (S l ≤ (c + h - 1) / h); [|lia].
    apply Nat.div_le_lower_bound; [lia|]. rewrite Nat.mul_succ_r. lia.
  - intros Hle. apply Nat.lt_succ_r.
    apply Nat.Div0.div_lt_upper_bound. rewrite Nat.mul_succ_r. lia.
Qed.

Lemma ring_edge_bound n k u v :
  k < n → edge (ring_lattice n k) u v →
  u < n ∧ v < n ∧ v `min` (n - v) ≤ u `min` (n - u) + k / 2.
Proof.
  intros Hk He. pose proof (Nat.Div0.mul_div_le k 2) as Hh.
  destruct (ring_lattice_simple n k Hk) as (_ & Hchar & _).
  apply Hchar in He as [He|He];
    apply ring_pairs_elem in He as (Hx & j & Hj & Hy); [|lia| |lia];
    rewrite mod_wrap in Hy by lia; case_decide; lia.
Qed.

Lemma ring_walk_lower n k l v :
  k < n → walk (ring_lattice n k) 0 l v →
  v < n ∧ v `min` (n - v) ≤ l * (k / 2).
Proof.
  intros Hk. induction 1 as [|l u v _ [Hu IH] He]; [lia|].
  destruct (ring_edge_bound n k u v Hk He) as (_ & Hv & Hb).
  rewrite Nat.mul_succ_l. lia.
Qed.

Lemma ring_walk_upper n k m v :
  2 ≤ k → k < n → v < n → v `min` (n - v) ≤ m * (k / 2) →
  ∃ l, l ≤ m ∧ walk (ring_lattice n k) 0 l v.
Proof.
  intros Hk2 Hk. pose proof (Nat.Div0.mul_div_le k 2) as Hh.
  assert (1 ≤ k / 2) as Hh1.
  { apply Nat.div_le_lower_bound; lia. }
  destruct (ring_lattice_simple n k Hk) as (_ & Hchar & _).
  revert v. induction m as [|m IH]; intros v Hv Hc.
  - exists 0. split; [done|]. replace v with 0 by lia. constructor.
  - rewrite Nat.mul_succ_l in Hc.
    destruct (decide (v `min` (n - v) ≤ m * (k / 2))) as [Hle|Hgt].
    { destruct (IH v Hv Hle) as (l & Hl & Hw). exists l. split; [lia|done]. }
    assert (∃ u, u < n ∧ u `min` (n - u) ≤ m * (k / 2) ∧
                 edge (ring_lattice n k) u v) as (u & Hu & Hcu & He).
    { destruct (decide (v ≤ n - v)) as [Hside|Hside].
      - exists (v - v `min` (k / 2)). split_and!; [lia..|].
        apply Hchar. left. apply ring_pairs_elem; [lia|]. split; [lia|].
        exists (v `min` (k / 2)). split; [lia|].
        rewrite Nat.mod_small by lia. lia.
      - exists ((v + (n - v) `min` (k / 2)) mod n).
        rewrite mod_wrap by lia. split_and!; [case_decide; lia..|].
        apply Hchar. right. apply ring_pairs_elem; [lia|]. split; [lia|].
        exists ((n - v) `min` (k / 2)). split; [lia|].
        by rewrite mod_wrap by lia. }
    destruct (IH u Hu Hcu) as (l & Hl & Hw).
    exists (S l). split; [lia|]. by apply (walk_step _ _ _ u).
Qed.

Lemma ring_dist n k v :
  2 ≤ k → k < n → v < n →
  dist (ring_lattice n k) 0 v (ring_distance n k v).
Proof.
  intros Hk2 Hk Hv. unfold ring_distance.
  assert (0 < k / 2) as Hh1.
  { apply Nat.div_le_lower_bound; lia. }
  set (c := v `min` (n - v)). set (m := (c + k / 2 - 1) / (k / 2)).
  assert (c ≤ m * (k / 2)) as Hm by (by apply ceil_div_le).
  assert (∀ l, walk (ring_lattice n k) 0 l v → m ≤ l) as Hmin.
  { intros l Hw. apply ceil_div_le; [done|].
    by destruct (ring_walk_lower n k l v Hk Hw). }
  split; [|done].
  destruct (ring_walk_upper n k m v Hk2 Hk Hv Hm) as (l & Hl & Hw).
  pose proof (Hmin l Hw). by replace m with l by lia.
Qed.

Section RegularSteps.
Context {R : Type} `{RandomSource R}.

(** X12.  In the Regular network node [v] is
    [ceil (min v (n - v) / (k // 2))] steps away from node 0, and the
    value shown for it as "Steps to Reach Everyone" is
    [ceil ((n // 2) / (k // 2))]. *)
Theorem regular_network_steps_to_reach_everyone
    (fuel bound nodes neighbours : nat) (randomness : Q) (seed : R)
    (regular small_world rand : Graph) :
  2 ≤ neighbours → neighbours < nodes → nodes ≤ bound →
  networks fuel nodes neighbours randomness seed
  = Ok (regular, small_world, rand) →
  (∀ v, v < nodes → dist regular 0 v (ring_distance nodes neighbours v)) ∧
  ∃ df,
    df_all bound [("Regular", regular); ("Small-World", small_world);
                  ("Random", rand)] = Some df ∧
    final_steps df "Regular"
    = Some ((nodes / 2 + neighbours / 2 - 1) / (neighbours / 2)).
Proof.
  intros Hk2 Hk Hbound Hnets.
  destruct (networks_spec fuel nodes neighbours randomness seed _ _ _ Hk Hnets)
    as [Hreg Hall].
  assert (∀ v, v < nodes → dist regular 0 v (ring_distance nodes neighbours v))
    as Hdist.
  { intros v Hv. rewrite Hreg. by apply ring_dist. }
  split; [done|].
  destruct (farthest_distance bound
              [("Regular", regular); ("Small-World", small_world);
               ("Random", rand)]) as (df & Hdf & Hsteps).
  { apply (bool_decide_unpack _). vm_compute. exact I. }
  { apply Forall_fmap with (f := snd) (P := λ G, adj_closed G ∧ 0 ∈ dom G ∧ size (dom G) ≤ bound).
    cbn [fmap list_fmap snd].
    eapply Forall_impl; [exact Hall|]. intros G [HG _].
    destruct (simple_graph_ok nodes G HG) as [(Hc & _ & _) _].
    rewrite (simple_size_dom nodes G HG). split_and!; [done| |done].
    apply (simple_dom nodes G 0 HG). lia. }
  exists df. split; [done|].
  destruct (Hsteps "Regular" regular) as (D & HD & [v0 Hv0] & Hmax & _);
    [by left|].
  rewrite HD. f_equal.
  assert (simple_on nodes regular) as HG.
  { apply Forall_cons in Hall as [[? _] _]. done. }
  destruct (simple_graph_ok nodes regular HG) as [(Hc & _ & _) _].
  apply Nat.le_antisymm.
  - assert (v0 < nodes) as Hv0n.
    { apply (simple_dom nodes regular v0 HG).
      destruct Hv0 as [Hw _]. apply (walk_dom _ 0 D); [done| |done].
      apply (simple_dom nodes regular 0 HG). lia. }
    rewrite (dist_unique _ _ _ _ _ Hv0 (Hdist v0 Hv0n)). unfold ring_distance.
    apply Nat.Div0.div_le_mono.
    pose proof (Nat.div_mod_eq nodes 2) as Hdm.
    pose proof (Nat.mod_upper_bound nodes 2) as Hmod.
    assert (v0 `min` (nodes - v0) ≤ nodes / 2) by lia. lia.
  - assert (nodes / 2 < nodes) as Hhalf.
    { apply Nat.div_lt; lia. }
    pose proof (Hmax _ _ (Hdist (nodes / 2) Hhalf)) as Hle.
    unfold ring_distance in Hle.
    assert ((nodes / 2) `min` (nodes - nodes / 2) = nodes / 2) as Hmid.
    { pose proof (Nat.div_mod_eq nodes 2) as Hdm.
      apply Nat.min_l. lia. }
    by rewrite Hmid in Hle.
Qed.

End RegularSteps.

(** ** A whole run *)

Lemma length_frames specs t k :
  length (seq t k ≫= pass_frames specs) = k * length specs.
Proof.
  revert t. induction k as [|k IH]; intros t; [done|].
  cbn [seq]. rewrite bind_cons, length_app, IH.
  unfold pass_frames. rewrite length_map. lia.
Qed.

Section WholeRun.
Context {R : Type} `{RandomSource R}.

Lemma networks_no_error fuel nodes neighbours randomness (seed : R) :
  neighbours < nodes →
  networks fuel nodes neighbours randomness seed ≠ Error.
Proof.
  intros Hk. unfold networks.
  destruct (watts_strogatz_graph fuel nodes neighbours 0 seed)
    as [[G1 r1]| |] eqn:H1; [| |done].
  2: { by destruct (watts_strogatz_graph_simple fuel nodes neighbours 0 seed Hk). }
  destruct (watts_strogatz_graph fuel nodes neighbours randomness r1)
    as [[G2 r2]| |] eqn:H2; [| |done].
  2: { by destruct (watts_strogatz_graph_simple fuel nodes neighbours
                      randomness r1 Hk). }
  destruct (watts_strogatz_graph fuel nodes neighbours 1 r2)
    as [[G3 r3]| |] eqn:H3; [done| |done].
  by destruct (watts_strogatz_graph_simple fuel nodes neighbours 1 r2 Hk).
Qed.

(** X13.  For every setting of the two integer sliders the construction
    of the three networks does not raise; and when it returns, the rest
    of the run goes through without an error: the animation loop ends
    after at most 42 rounds, having drawn 15 frames per round, and the
    result table gets a "Steps to Reach Everyone" value below the
    population for each of the three networks. *)
Theorem slider_settings_run_without_error
    (fuel nodes neighbours : nat) (randomness : Q) (seed : R) :
  slider_setting nodes neighbours →
  networks fuel nodes neighbours randomness seed ≠ Error ∧
  ∀ regular small_world rand,
    networks fuel nodes neighbours randomness seed
    = Ok (regular, small_world, rand) →
    (∃ frames rounds,
       animate 42 (bfs_gens [("Regular", regular);
                             ("Small-World", small_world);
                             ("Random", rand)]) = (frames, Exhausted) ∧
       rounds ≤ 42 ∧ length frames = 15 * rounds) ∧
    ∃ df,
      df_all 200 [("Regular", regular); ("Small-World", small_world);
                  ("Random", rand)] = Some df ∧
      Forall (λ key, ∃ D, final_steps df key = Some D ∧ D < nodes)
             ["Regular"; "Small-World"; "Random"].
Proof.
  intros (Hn & _ & Hk). assert (neighbours < nodes) as Hlt by lia.
  split; [by apply networks_no_error|].
  intros regular small_world rand Hnets.
  destruct (networks_spec fuel nodes neighbours randomness seed _ _ _ Hlt Hnets)
    as [_ Hall].
  set (nets := [("Regular", regular); ("Small-World", small_world);
                ("Random", rand)]).
  assert (Forall (λ kg : string * Graph,
                    adj_closed kg.2 ∧ 0 ∈ dom kg.2 ∧ size (dom kg.2) = nodes)
                 nets) as Hnet.
  { apply Forall_fmap with (f := snd)
      (P := λ G, adj_closed G ∧ 0 ∈ dom G ∧ size (dom G) = nodes).
    cbn [fmap list_fmap snd nets].
    eapply Forall_impl; [exact Hall|]. intros G [HG _].
    destruct (simple_graph_ok nodes G HG) as [(Hc & _ & _) _].
    rewrite (simple_size_dom nodes G HG). split_and!; [done| |done].
    apply (simple_dom nodes G 0 HG). lia. }
  split.
  - destruct (bfs_gens_streams nets) as [specs Hsp].
    { eapply Forall_impl; [exact Hnet|]. naive_solver. }
    assert (longest specs ≤ 200) as Hl.
    { apply (longest_bound nets); [done|].
      eapply Forall_impl; [exact Hnet|]. simpl. intros kg (_ & _ & Hb). lia. }
    pose proof (Nat.div_mod_eq (longest specs + 4) 5) as Hdm.
    pose proof (Nat.mod_upper_bound (longest specs + 4) 5) as Hmod.
    eexists _, ((longest specs + 4) / 5 + 1). split_and!.
    + apply (animate_run 42 nets specs); [by apply bfs_gens_tracks|lia].
    + lia.
    + rewrite length_frames. apply Forall2_length in Hsp.
      rewrite <- Hsp. cbn [nets length]. lia.
  - destruct (farthest_distance 200 nets) as (df & Hdf & Hsteps).
    { apply (bool_decide_unpack _). vm_compute. exact I. }
    { eapply Forall_impl; [exact Hnet|]. simpl. intros kg (? & ? & ?).
      split_and!; [done..|lia]. }
    exists df. split; [done|].
    assert (∀ key G, (key, G) ∈ nets →
              ∃ D, final_steps df key = Some D ∧ D < nodes) as Hrow.
    { intros key G Hin. destruct (Hsteps key G Hin) as (D & HD & _ & _ & Hlt').
      exists D. split; [done|]. rewrite Forall_forall in Hnet.
      destruct (Hnet _ Hin) as (_ & _ & Hsz). simpl in Hsz. lia. }
    repeat apply Forall_cons_2; [| | |apply Forall_nil_2].
    + apply (Hrow _ regular). by left.
    + apply (Hrow _ small_world). right. by left.
    + apply (Hrow _ rand). right. right. by left.
Qed.

End WholeRun.

(** * Concrete runs of the further properties *)

Lemma spread_counts_nodes_at_each_distance_witness :
  adj_closed (ring_lattice 8 2) ∧ 0 ∈ dom (ring_lattice 8 2) ∧
  size (dom (ring_lattice 8 2)) ≤ 8 ∧
  ∃ levels,
    bfs_spread 8 (ring_lattice 8 2) = Levels levels ∧
    ∀ d c, (d, c) ∈ levels ↔
      0 < c ∧ ∃ X : gset nat, size X = c ∧
                ∀ v, v ∈ X ↔ dist (ring_lattice 8 2) 0 v d.
Proof.
  assert (adj_closed (ring_lattice 8 2)) as H1 by by_evaluation.
  assert (0 ∈ dom (ring_lattice 8 2)) as H2 by by_evaluation.
  assert (size (dom (ring_lattice 8 2)) ≤ 8) as H3 by by_evaluation.
  split_and!; [done..|].
  exact (spread_counts_nodes_at_each_distance (ring_lattice 8 2) 8 H1 H2 H3).
Defined.

Lemma nodes_reached_counts_nodes_within_distance_witness :
  adj_closed two_pairs ∧ 0 ∈ dom two_pairs ∧ size (dom two_pairs) ≤ 4 ∧
  ∃ levels,
    bfs_spread 4 two_pairs = Levels levels ∧
    length (nodes_reached levels) = length levels ∧
    ∀ i c, nodes_reached levels !! i = Some c →
      ∃ X : gset nat, size X = c ∧
        ∀ v, v ∈ X ↔ ∃ e, e ≤ i ∧ dist two_pairs 0 v e.
Proof.
  assert (adj_closed two_pairs) as H1 by by_evaluation.
  assert (0 ∈ dom two_pairs) as H2 by by_evaluation.
  assert (size (dom two_pairs) ≤ 4) as H3 by by_evaluation.
  split_and!; [done..|].
  exact (nodes_reached_counts_nodes_within_distance two_pairs 4 H1 H2 H3).
Defined.

Lemma nodes_reached_climbs_to_component_size_witness :
  adj_closed two_pairs ∧ 0 ∈ dom two_pairs ∧ size (dom two_pairs) ≤ 4 ∧
  ∃ levels (X : gset nat),
    bfs_spread 4 two_pairs = Levels levels ∧
    (∀ v, v ∈ X ↔ reach two_pairs 0 v) ∧
    nodes_reached levels !! 0 = Some 1 ∧
    (∀ i a b, nodes_reached levels !! i = Some a →
              nodes_reached levels !! S i = Some b → a < b) ∧
    last (nodes_reached levels) = Some (size X) ∧
    size X ≤ size (dom two_pairs).
Proof.
  assert (adj_closed two_pairs) as H1 by by_evaluation.
  assert (0 ∈ dom two_pairs) as H2 by by_evaluation.
  assert (size (dom two_pairs) ≤ 4) as H3 by by_evaluation.
  split_and!; [done..|].
  exact (nodes_reached_climbs_to_component_size two_pairs 4 H1 H2 H3).
Defined.

Lemma final_steps_is_farthest_distance_witness :
  NoDup (map fst [("Regular", ring_lattice 8 2); ("Pairs", two_pairs)]) ∧
  Forall (λ kg : string * Graph,
            adj_closed kg.2 ∧ 0 ∈ dom kg.2 ∧ size (dom kg.2) ≤ 8)
         [("Regular", ring_lattice 8 2); ("Pairs", two_pairs)] ∧
  ∃ df,
    df_all 8 [("Regular", ring_lattice 8 2); ("Pairs", two_pairs)] = Some df ∧
    ∀ k G, (k, G) ∈ [("Regular", ring_lattice 8 2); ("Pairs", two_pairs)] →
      ∃ D, final_steps df k = Some D ∧
        (∃ v, dist G 0 v D) ∧
        (∀ v d, dist G 0 v d → d ≤ D) ∧
        D < size (dom G).
Proof.
  assert (NoDup (map fst [("Regular", ring_lattice 8 2); ("Pairs", two_pairs)]))
    as H1 by by_evaluation.
  assert (Forall (λ kg : string * Graph,
                    adj_closed kg.2 ∧ 0 ∈ dom kg.2 ∧ size (dom kg.2) ≤ 8)
                 [("Regular", ring_lattice 8 2); ("Pairs", two_pairs)]) as H2.
  { repeat apply Forall_cons_2; [| |apply Forall_nil_2];
      split_and!; by_evaluation. }
  split_and!; [done..|].
  exact (final_steps_is_farthest_distance 8 _ H1 H2).
Defined.

Lemma animation_draws_snapshots_then_all_nodes_witness :
  0 < 3 ∧
  Forall (λ kg : string * Graph,
            adj_closed kg.2 ∧ 0 ∈ dom kg.2 ∧ size (dom kg.2) + 4 < 5 * 3)
         [("Regular", ring_lattice 8 2); ("Pairs", two_pairs)] ∧
  ∃ specs : list (string * Graph * list (gset nat)),
    Forall2 (λ kg spec,
               spec.1 = kg ∧
               ∀ n, size (dom kg.2) < n →
                    pulls n kg.2 (bfs_generator 0) = (spec.2, Exhausted))
            [("Regular", ring_lattice 8 2); ("Pairs", two_pairs)] specs ∧
    animate 3 (bfs_gens [("Regular", ring_lattice 8 2); ("Pairs", two_pairs)])
    = (seq 0 (5 * ((longest specs + 4) / 5 + 1)) ≫= pass_frames specs,
       Exhausted).
Proof.
  assert (0 < 3) as H1 by lia.
  assert (Forall (λ kg : string * Graph,
                    adj_closed kg.2 ∧ 0 ∈ dom kg.2 ∧
                    size (dom kg.2) + 4 < 5 * 3)
                 [("Regular", ring_lattice 8 2); ("Pairs", two_pairs)]) as H2.
  { repeat apply Forall_cons_2; [| |apply Forall_nil_2];
      split_and!; by_evaluation. }
  split_and!; [done..|].
  exact (animation_draws_snapshots_then_all_nodes 3 _ H1 H2).
Defined.

Lemma animation_ends_with_every_node_drawn_witness :
  0 < 2 ∧
  Forall (λ kg : string * Graph,
            adj_closed kg.2 ∧ 0 ∈ dom kg.2 ∧ size (dom kg.2) + 4 < 5 * 2)
         [("Pairs", two_pairs)] ∧
  ∃ earlier,
    animate 2 (bfs_gens [("Pairs", two_pairs)])
    = (earlier ++ concat (replicate 5 [("Pairs", dom two_pairs)]), Exhausted).
Proof.
  assert (0 < 2) as H1 by lia.
  assert (Forall (λ kg : string * Graph,
                    adj_closed kg.2 ∧ 0 ∈ dom kg.2 ∧
                    size (dom kg.2) + 4 < 5 * 2)
                 [("Pairs", two_pairs)]) as H2.
  { repeat apply Forall_cons_2; [|apply Forall_nil_2];
      split_and!; by_evaluation. }
  split_and!; [done..|].
  exact (animation_ends_with_every_node_drawn 2 _ H1 H2).
Defined.

Lemma animation_raises_at_network_without_node_0_witness :
  Forall (λ kg : string * Graph, 0 ∈ dom kg.2) [("Pairs", two_pairs)] ∧
  0 ∉ dom (empty_graph 0) ∧
  animate 1 (bfs_gens ([("Pairs", two_pairs)] ++ [("Nobody", empty_graph 0)]))
  = ([("Pairs", {[0]} ∪ nbr_set two_pairs 0)], Raised).
Proof.
  assert (Forall (λ kg : string * Graph, 0 ∈ dom kg.2) [("Pairs", two_pairs)])
    as H1.
  { repeat apply Forall_cons_2; [|apply Forall_nil_2]. by_evaluation. }
  assert (0 ∉ dom (empty_graph 0)) as H2 by by_evaluation.
  split_and!; [done..|].
  exact (animation_raises_at_network_without_node_0
           0 [("Pairs", two_pairs)] [] "Nobody" (empty_graph 0) H1 H2).
Defined.

Lemma node_colors_highlight_visited_nodes_witness :
  NoDup [0; 1; 2; 3] ∧
  length (node_colors [0; 1; 2; 3] {[1; 7]}) = 4 ∧
  length (filter (λ c, c = "#00BFFF") (node_colors [0; 1; 2; 3] {[1; 7]}))
  = size (({[1; 7]} : gset nat) ∩ list_to_set [0; 1; 2; 3]).
Proof.
  assert (NoDup [0; 1; 2; 3]) as H1 by by_evaluation.
  split; [done|].
  exact (node_colors_highlight_visited_nodes [0; 1; 2; 3] {[1; 7]} H1).
Defined.

Lemma networks_are_simple_graphs_of_equal_size_witness :
  4 < 10 ∧
  ∃ regular small_world rand,
    networks 10 10 4 (1 # 2) 0%N = Ok (regular, small_world, rand) ∧
    Forall (λ G, graph_ok G ∧ loop_free G ∧ (∀ u, u ∈ dom G ↔ u < 10) ∧
                 number_of_edges G = 10 * (4 / 2))
           [regular; small_world; rand].
Proof.
  assert (4 < 10) as H1 by lia.
  assert (∃ a b c, networks 10 10 4 (1 # 2) 0%N = Ok (a, b, c))
    as (a & b & c & H2) by (eexists _, _, _; vm_compute; reflexivity).
  split; [done|]. exists a, b, c. split; [done|].
  exact (networks_are_simple_graphs_of_equal_size
           10 10 4 (1 # 2) 0%N a b c H1 H2).
Defined.

Lemma rewiring_keeps_half_of_each_degree_witness :
  4 < 10 ∧
  ∃ G r,
    watts_strogatz_graph 10 10 4 (1 # 2) 0%N = Ok (G, r) ∧
    (3 < 10 → 4 / 2 ≤ degree G 3 ≤ 10 - 1).
Proof.
  assert (4 < 10) as H1 by lia.
  assert (∃ G r, watts_strogatz_graph 10 10 4 (1 # 2) 0%N = Ok (G, r))
    as (G & r & H2) by (eexists _, _; vm_compute; reflexivity).
  split; [done|]. exists G, r. split; [done|].
  exact (rewiring_keeps_half_of_each_degree 10 10 4 (1 # 2) 0%N G r H1 H2 3).
Defined.

Lemma regular_network_is_connected_witness :
  2 ≤ 2 ∧ 2 < 8 ∧
  ∃ G r levels snaps,
    watts_strogatz_graph 0 8 2 0 0%N = Ok (G, r) ∧
    (∀ v, v < 8 → reach G 0 v) ∧
    bfs_spread 8 G = Levels levels ∧ sum_list (values levels) = 8 ∧
    pulls 9 G (bfs_generator 0) = (snaps, Exhausted) ∧
    last snaps = Some (dom G).
Proof.
  assert (2 ≤ 2) as H1 by lia. assert (2 < 8) as H2 by lia.
  split_and!; [done..|].
  exact (regular_network_is_connected 0 8 2 0%N H1 H2).
Defined.

Lemma regular_network_steps_to_reach_everyone_witness :
  2 ≤ 4 ∧ 4 < 10 ∧ 10 ≤ 10 ∧
  ∃ regular small_world rand,
    networks 10 10 4 (1 # 2) 0%N = Ok (regular, small_world, rand) ∧
    (∀ v, v < 10 → dist regular 0 v (ring_distance 10 4 v)) ∧
    ∃ df,
      df_all 10 [("Regular", regular); ("Small-World", small_world);
                 ("Random", rand)] = Some df ∧
      final_steps df "Regular" = Some ((10 / 2 + 4 / 2 - 1) / (4 / 2)).
Proof.
  assert (2 ≤ 4) as H1 by lia. assert (4 < 10) as H2 by lia.
  assert (10 ≤ 10) as H3 by lia.
  assert (∃ a b c, networks 10 10 4 (1 # 2) 0%N = Ok (a, b, c))
    as (a & b & c & H4) by (eexists _, _, _; vm_compute; reflexivity).
  split_and!; [done..|]. exists a, b, c. split; [done|].
  exact (regular_network_steps_to_reach_everyone
           10 10 10 4 (1 # 2) 0%N a b c H1 H2 H3 H4).
Defined.

Lemma slider_settings_run_without_error_witness :
  slider_setting 20 4 ∧
  networks 20 20 4 (1 # 10) 0%N ≠ Error.
Proof.
  assert (slider_setting 20 4) as H1 by (repeat split; by_evaluation).
  split; [done|].
  exact (proj1 (slider_settings_run_without_error 20 20 4 (1 # 10) 0%N H1)).
Defined.

Example two_pairs_animation :
  animate 2 (bfs_gens [("Pairs", two_pairs)])
  = (replicate 2 ("Pairs", {[0; 1]}) ++ replicate 8 ("Pairs", {[0; 1; 2; 3]}),
     Exhausted).
Proof. vm_compute. reflexivity. Qed.

Example ring_20_4_steps :
  ∃ df,
    df_all 20 [("Regular", ring_lattice 20 4)] = Some df ∧
    final_steps df "Regular" = Some 5 ∧
    Nodes_Reached <$> df = [1; 5; 9; 13; 17; 20].
Proof. eexists. split; [vm_compute; reflexivity|]. by vm_compute. Qed.
